(** * Geometry_Collision: rigid spheres, rigid planes and the GVector math surface

    A shallow embedding of
      - Mathematics/GVector.h  (GVector<Real>: the constructors, SetSize,
                                GetSize, MakeZero, MakeUnit, Zero, Unit, the
                                arithmetic operators, Dot, Length, Normalize,
                                Orthonormalize, ComputeExtremes, HLift,
                                HProject, Lift, Project),
      - HyperSphere.h          (Hypersphere<T, N>, Sphere3<T>, the comparisons),
      - Rigidsphere.h / RigidSphere.cpp,
      - RigidPlane.h,
    and of the properties the specification states about them.

    The C++ code is generic in its scalar ([template <typename Real>]) and the
    rigid bodies fix it to [double].  The embedding keeps the scalar abstract
    through the class [RealOps]; it is instantiated with IEEE binary64
    ([PrimFloat], what [double] is) and with the mathematical reals (the
    idealised arithmetic in which the specification writes its formulas). *)

From Stdlib Require Import String ZArith List Bool Lia Reals Lra Floats Uint63.
Import ListNotations.

Local Open Scope Z_scope.

(** ** Scalars *)

Declare Scope gte_scope.
Delimit Scope gte_scope with gte.

Class RealOps (Real : Type) : Type := {
  r_lit  : Z -> Real;            (* [(Real)k] and the literals [0.0], [3.0], [4.0] *)
  r_pi   : Real;                 (* GTE_C_PI, from the math headers *)
  r_add  : Real -> Real -> Real;
  r_sub  : Real -> Real -> Real;
  r_mul  : Real -> Real -> Real;
  r_div  : Real -> Real -> Real;
  r_fabs : Real -> Real;         (* std::fabs *)
  r_sqrt : Real -> Real;         (* std::sqrt *)
  r_lt   : Real -> Real -> bool; (* a < b *)
  r_eq   : Real -> Real -> bool  (* a == b *)
}.

Notation "x + y" := (r_add x y) : gte_scope.
Notation "x - y" := (r_sub x y) : gte_scope.
Notation "x * y" := (r_mul x y) : gte_scope.
Notation "x / y" := (r_div x y) : gte_scope.

Section ScalarComparisons.
Context {Real : Type} `{RealOps Real}.

(** [a > b], [a != b] and [a <= b] as C++ evaluates them. *)
Definition r_gt (a b : Real) : bool := r_lt b a.
Definition r_ne (a b : Real) : bool := negb (r_eq a b).
Definition r_le (a b : Real) : bool := r_lt a b || r_eq a b.

(** [(Real)0] and [(Real)1]. *)
Definition r0 : Real := r_lit 0.
Definition r1 : Real := r_lit 1.

End ScalarComparisons.

(** The facts about the scalar that the guards of the code rely on.  All of
    them hold for binary64 and for the reals (instances below). *)
Class RealLaws (Real : Type) `{RealOps Real} : Prop := {
  gt_zero_ne_zero : forall x : Real, r_gt x r0 = true -> r_ne x r0 = true;
  zero_not_gt_zero : r_gt (r0 : Real) r0 = false;
  add_zero_sq_zero : (r0 + r0 * r0)%gte = (r0 : Real);
  sqrt_zero : r_sqrt (r0 : Real) = r0;
  fabs_zero : r_fabs (r0 : Real) = r0
}.

(** *** IEEE binary64 *)

Definition float_of_Z (z : Z) : float :=
  if z <? 0 then PrimFloat.opp (PrimFloat.of_uint63 (Uint63.of_Z (- z)))
  else PrimFloat.of_uint63 (Uint63.of_Z z).

#[export] Instance binary64_ops : RealOps float := {|
  r_lit := float_of_Z;
  r_pi := 0x1.921fb54442d18p+1%float;
  r_add := PrimFloat.add;
  r_sub := PrimFloat.sub;
  r_mul := PrimFloat.mul;
  r_div := PrimFloat.div;
  r_fabs := PrimFloat.abs;
  r_sqrt := PrimFloat.sqrt;
  r_lt := PrimFloat.ltb;
  r_eq := PrimFloat.eqb
|}.

(** *** Mathematical reals *)

Definition Rltb (a b : R) : bool := if Rlt_dec a b then true else false.
Definition Reqb (a b : R) : bool := if Req_dec_T a b then true else false.

#[export] Instance ideal_ops : RealOps R := {|
  r_lit := IZR;
  r_pi := PI;
  r_add := Rplus;
  r_sub := Rminus;
  r_mul := Rmult;
  r_div := Rdiv;
  r_fabs := Rabs;
  r_sqrt := R_sqrt.sqrt;
  r_lt := Rltb;
  r_eq := Reqb
|}.


(** ** Errors, results and the state-and-error monad

    [LogError] and [LogAssert] are macros of Mathematics/Logger.h, which is not
    among the sources: they are taken to raise an error that carries their
    message (the functions that end in [LogError] have no [return] after it).
    An element access outside the tuple is undefined behaviour of
    [std::vector::operator[]]; the embedding makes it the error [OutOfRange],
    so that "no out-of-bounds access occurs" is "no [OutOfRange] is raised". *)

Inductive error : Type :=
| LogError (message : string)
| LogAssert (message : string)
| OutOfRange (index : Z)
| FatalError (message : string).

Inductive result (A : Type) : Type :=
| Ok (a : A)
| Err (e : error).

Arguments Ok {A} a.
Arguments Err {A} e.

(** A computation over a mutable object of type [St]: it returns a value or an
    error, together with the object as it is at that point.  The state that
    comes with an error is the state the exception leaves behind. *)
Definition M (St A : Type) : Type := St -> result A * St.

Definition ret {St A : Type} (a : A) : M St A := fun s => (Ok a, s).

Definition bind {St A B : Type} (m : M St A) (k : A -> M St B) : M St B :=
  fun s =>
    match m s with
    | (Ok a, s') => k a s'
    | (Err e, s') => (Err e, s')
    end.

Definition raise {St A : Type} (e : error) : M St A := fun s => (Err e, s).
Definition get {St : Type} : M St St := fun s => (Ok s, s).
Definition put {St : Type} (s : St) : M St unit := fun _ => (Ok tt, s).
Definition lift {St A : Type} (r : result A) : M St A := fun s => (r, s).

Notation "x <- m ;; k" := (bind m (fun x => k))
  (at level 61, m at next level, right associativity).
Notation "m ;;; k" := (bind m (fun _ => k))
  (at level 61, right associativity).

(** [for (int32_t i = lo; i < hi; ++i) body], with the local variables the
    body updates threaded as [a]. *)
Fixpoint for_iter {St A : Type} (n : nat) (i : Z) (body : Z -> A -> M St A) (a : A) : M St A :=
  match n with
  | O => ret a
  | S n' => a' <- body i a ;; for_iter n' (i + 1) body a'
  end.

Definition for_loop {St A : Type} (lo hi : Z) (body : Z -> A -> M St A) (a : A) : M St A :=
  for_iter (Z.to_nat (hi - lo)) lo body a.

(** [static_cast<int32_t>] of a [size_t]: reduction modulo 2^32 into the
    signed range. *)
Definition INT32_MAX : Z := 2147483647.
Definition cast_int32 (z : Z) : Z := (z + 2147483648) mod 4294967296 - 2147483648.

(** ** Mathematics/GVector.h *)

Section GVectorCode.

Context {Real : Type} `{RealOps Real}.

(** [std::vector<Real> mTuple]. *)
Record GVector : Type := mkGVector { mTuple : list Real }.

(** Every GVector gets its size from [SetSize(int32_t)], so its size fits
    [int32_t]; this is the representation invariant of the class. *)
Definition GVector_valid (v : GVector) : Prop :=
  Z.of_nat (length (mTuple v)) <= INT32_MAX.

Definition GetSize (v : GVector) : Z :=
  cast_int32 (Z.of_nat (length (mTuple v))).

(** [operator[](int32_t i) const]: [mTuple[i]]. *)
Definition elem (v : GVector) (i : Z) : result Real :=
  if i <? 0 then Err (OutOfRange i)
  else match nth_error (mTuple v) (Z.to_nat i) with
       | Some x => Ok x
       | None => Err (OutOfRange i)
       end.

Fixpoint list_update (l : list Real) (n : nat) (x : Real) : option (list Real) :=
  match l, n with
  | [], _ => None
  | _ :: t, O => Some (x :: t)
  | h :: t, S n' => option_map (cons h) (list_update t n' x)
  end.

(** Reading and writing through [operator[](int32_t i)] of the vector that
    the computation mutates. *)
Definition load (i : Z) : M GVector Real := fun v => (elem v i, v).

Definition store (i : Z) (x : Real) : M GVector unit :=
  fun v =>
    if i <? 0 then (Err (OutOfRange i), v)
    else match list_update (mTuple v) (Z.to_nat i) x with
         | Some l => (Ok tt, mkGVector l)
         | None => (Err (OutOfRange i), v)
         end.

(** [std::fill(mTuple.begin(), mTuple.end(), x)]. *)
Definition std_fill (x : Real) : M GVector unit :=
  fun v => (Ok tt, mkGVector (map (fun _ => x) (mTuple v))).

(** [mTuple.resize(size)]: the tuple is cut, or grown by value-initialised
    elements. *)
Definition std_resize (size : nat) (l : list Real) : list Real :=
  firstn size l ++ repeat r0 (size - length l).

Definition SetSize (size : Z) : M GVector unit :=
  if size >=? 0 then v <- get ;; put (mkGVector (std_resize (Z.to_nat size) (mTuple v)))
  else raise (LogAssert "Invalid size.").

Definition MakeZero : M GVector unit := std_fill r0.

Definition MakeUnit (d : Z) : M GVector unit :=
  std_fill r0 ;;;
  v <- get ;;
  if (0 <=? d) && (d <? cast_int32 (Z.of_nat (length (mTuple v))))
  then store d r1
  else ret tt.

(** The constructors [GVector()], [GVector(size)] and [GVector(size, d)], and
    the static [Zero] and [Unit]: each returns the object it has built. *)
Definition GVector_default : GVector := mkGVector [].

Definition construct (init : M GVector unit) : result GVector :=
  match init GVector_default with
  | (Ok _, v) => Ok v
  | (Err e, _) => Err e
  end.

Definition GVector_sized (size : Z) : result GVector := construct (SetSize size).
Definition GVector_unit (size d : Z) : result GVector :=
  construct (SetSize size ;;; MakeUnit d).
Definition Zero (size : Z) : result GVector := construct (SetSize size ;;; MakeZero).
Definition Unit (size d : Z) : result GVector := construct (SetSize size ;;; MakeUnit d).

(** [operator+=(v0, v1)]: [v0] is the mutated object.  The loop bound
    [v0.GetSize()] does not change while the loop runs (a store keeps the
    size), so it is read once. *)
Definition op_add_assign (v1 : GVector) : M GVector unit :=
  v0 <- get ;;
  if GetSize v0 =? GetSize v1 then
    for_loop 0 (GetSize v0)
      (fun i _ => a <- load i ;; b <- lift (elem v1 i) ;; store i (a + b)%gte) tt
  else raise (LogError "Mismatched sizes.").

(** [operator/=(v, scalar)]. *)
Definition op_div_assign (scalar : Real) : M GVector unit :=
  if r_ne scalar r0 then
    let invScalar := (r1 / scalar)%gte in
    v <- get ;;
    for_loop 0 (GetSize v) (fun i _ => a <- load i ;; store i (a * invScalar)%gte) tt
  else raise (LogError "Division by zero.").

(** [operator/(v, scalar)]: [result = v; return result /= scalar]. *)
Definition op_div {St : Type} (v : GVector) (scalar : Real) : M St GVector :=
  match op_div_assign scalar v with
  | (Ok _, result) => ret result
  | (Err e, _) => raise e
  end.

(** [Dot(v0, v1)]; both arguments are const. *)
Definition Dot {St : Type} (v0 v1 : GVector) : M St Real :=
  if GetSize v0 =? GetSize v1 then
    for_loop 0 (GetSize v0)
      (fun i dot => a <- lift (elem v0 i) ;; b <- lift (elem v1 i) ;; ret (dot + a * b)%gte) r0
  else raise (LogError "Mismatched sizes.").

(** The scan that opens the robust branch of [Length] and of [Normalize]:
    [maxAbsComp = fabs(v[0])], then the maximum over [v[1]], ... *)
Definition maxAbsComp_scan {St : Type} (v : GVector) : M St Real :=
  first <- lift (elem v 0) ;;
  for_loop 1 (GetSize v)
    (fun i maxAbsComp =>
       x <- lift (elem v i) ;;
       let absComp := r_fabs x in
       ret (if r_gt absComp maxAbsComp then absComp else maxAbsComp))
    (r_fabs first).

(** [Length(v, robust)]. *)
Definition Length {St : Type} (v : GVector) (robust : bool) : M St Real :=
  if robust then
    maxAbsComp <- maxAbsComp_scan v ;;
    if r_gt maxAbsComp r0 then
      scaled <- op_div v maxAbsComp ;;
      d <- Dot scaled scaled ;;
      ret (maxAbsComp * r_sqrt d)%gte
    else ret r0
  else
    d <- Dot v v ;; ret (r_sqrt d).

(** The loop [for (i = 0; i < v.GetSize(); ++i) v[i] = (Real)0]. *)
Definition zero_components : M GVector unit :=
  v <- get ;; for_loop 0 (GetSize v) (fun i _ => store i r0) tt.

(** [Normalize(v, robust)]: [v] is the mutated object, the length is returned. *)
Definition Normalize (robust : bool) : M GVector Real :=
  if robust then
    v <- get ;;
    maxAbsComp <- maxAbsComp_scan v ;;
    if r_gt maxAbsComp r0 then
      op_div_assign maxAbsComp ;;;
      v' <- get ;;
      d <- Dot v' v' ;;
      let length := r_sqrt d in
      op_div_assign length ;;;
      ret (length * maxAbsComp)%gte
    else
      zero_components ;;; ret r0
  else
    v <- get ;;
    d <- Dot v v ;;
    let length := r_sqrt d in
    (if r_gt length r0 then op_div_assign length else zero_components) ;;;
    ret length.

End GVectorCode.

Arguments GVector Real : clear implicits.

(** ** The fixed-size types the rigid bodies use

    Vector.h, Matrix3x3.h and Hyperplane.h are not among the sources; the
    rigid bodies use a 3-vector with its dot product, a 3x3 matrix with
    [Identity()] and the scalar multiple, and a plane with the members
    [normal] and [constant]. *)

Section FixedSizeTypes.

Context {Real : Type} `{RealOps Real}.

(** Modelled from the spec: [Vector3<T>] of Vector.h, the specification's
    3-vector, by its three components. *)
Record Vector3 : Type := mkVector3 { x0 : Real; x1 : Real; x2 : Real }.

(** Modelled from the spec: [Dot] of Vector.h on 3-vectors, the dot product
    [n . p] of the specification, summed from the first component on. *)
Definition Dot3 (u v : Vector3) : Real :=
  (x0 u * x0 v + x1 u * x1 v + x2 u * x2 v)%gte.

(** Modelled from the spec: [Matrix3x3<T>] of Matrix3x3.h, the
    specification's 3x3 matrix, by its rows; [Identity()] is its [I] and
    [scalar * M] multiplies every entry. *)
Record Matrix3x3 : Type := mkMatrix3x3 { row0 : Vector3; row1 : Vector3; row2 : Vector3 }.

Definition Identity : Matrix3x3 :=
  mkMatrix3x3 (mkVector3 r1 r0 r0) (mkVector3 r0 r1 r0) (mkVector3 r0 r0 r1).

Definition scale_row (s : Real) (v : Vector3) : Vector3 :=
  mkVector3 (s * x0 v)%gte (s * x1 v)%gte (s * x2 v)%gte.

Definition scale_matrix (s : Real) (m : Matrix3x3) : Matrix3x3 :=
  mkMatrix3x3 (scale_row s (row0 m)) (scale_row s (row1 m)) (scale_row s (row2 m)).

(** Modelled from the spec: [Plane3<T>] of Hyperplane.h, the specification's
    plane [(n, d)] of the points with [n . p = d]; RigidPlane.h reads its
    members [normal] and [constant]. *)
Record Plane3 : Type := mkPlane3 { normal : Vector3; constant : Real }.

(** HyperSphere.h, [Hypersphere<T, 3>]: the public members [center] and
    [radius] and the constructor that copies its two arguments. *)
Record Sphere3 : Type := mkSphere3 { center : Vector3; radius : Real }.

Definition Hypersphere (inCenter : Vector3) (inRadius : Real) : Sphere3 :=
  mkSphere3 inCenter inRadius.

(** Modelled from the spec: the orientation [q] of a body, a quaternion. *)
Record Quaternion : Type := mkQuaternion { qx : Real; qy : Real; qz : Real; qw : Real }.

End FixedSizeTypes.

Arguments Vector3 Real : clear implicits.
Arguments Matrix3x3 Real : clear implicits.
Arguments Plane3 Real : clear implicits.
Arguments Sphere3 Real : clear implicits.
Arguments Quaternion Real : clear implicits.

(** ** RigidBody *)

Section RigidBodyModel.

Context {Real : Type} `{RealOps Real}.

(** Modelled from the spec: RigidBody.h is not among the sources.  The state
    is the specification's [(x, q, P, L)], the constants [(m, J_body)] and the
    accumulators [(F, tau)] of its data model. *)
Record RigidBody : Type := mkRigidBody {
  mass : Real;
  bodyInertia : Matrix3x3 Real;
  position : Vector3 Real;
  orientation : Quaternion Real;
  linearMomentum : Vector3 Real;
  angularMomentum : Vector3 Real;
  force : Vector3 Real;
  torque : Vector3 Real
}.

(** Modelled from the spec: "J_body: body-frame inertia tensor, symmetric 3x3
    positive-definite".  Positive definiteness is decided as for a symmetric
    matrix, by the signs of the leading principal minors. *)
Definition minor2 (m : Matrix3x3 Real) : Real :=
  (x0 (row0 m) * x1 (row1 m) - x1 (row0 m) * x0 (row1 m))%gte.

Definition determinant (m : Matrix3x3 Real) : Real :=
  (x0 (row0 m) * (x1 (row1 m) * x2 (row2 m) - x2 (row1 m) * x1 (row2 m))
   - x1 (row0 m) * (x0 (row1 m) * x2 (row2 m) - x2 (row1 m) * x0 (row2 m))
   + x2 (row0 m) * (x0 (row1 m) * x1 (row2 m) - x1 (row1 m) * x0 (row2 m)))%gte.

Definition is_symmetric (m : Matrix3x3 Real) : bool :=
  r_eq (x1 (row0 m)) (x0 (row1 m))
  && r_eq (x2 (row0 m)) (x0 (row2 m))
  && r_eq (x2 (row1 m)) (x1 (row2 m)).

Definition is_positive_definite (m : Matrix3x3 Real) : bool :=
  is_symmetric m
  && r_gt (x0 (row0 m)) r0
  && r_gt (minor2 m) r0
  && r_gt (determinant m) r0.

(** Modelled from the spec: RigidBody::SetMass is not among the sources.
    "Constructing with m <= 0 or a non-positive-definite J_body is a
    programming error; the operation panics/fails fast." *)
Definition SetMass (m : Real) : M RigidBody unit :=
  fun b =>
    if r_le m r0 then (Err (FatalError "Mass must be positive."), b)
    else (Ok tt, mkRigidBody m (bodyInertia b) (position b) (orientation b)
                   (linearMomentum b) (angularMomentum b) (force b) (torque b)).

(** Modelled from the spec: RigidBody::SetBodyInertia is not among the
    sources; it fails fast on a body inertia that is not positive definite. *)
Definition SetBodyInertia (inertia : Matrix3x3 Real) : M RigidBody unit :=
  fun b =>
    if is_positive_definite inertia
    then (Ok tt, mkRigidBody (mass b) inertia (position b) (orientation b)
                   (linearMomentum b) (angularMomentum b) (force b) (torque b))
    else (Err (FatalError "Body inertia must be positive definite."), b).

(** Modelled from the spec: RigidBody::SetPosition and RigidBody::GetPosition
    are not among the sources; the setter stores the position, the observer
    reads it. *)
Definition SetPosition (p : Vector3 Real) : M RigidBody unit :=
  fun b =>
    (Ok tt, mkRigidBody (mass b) (bodyInertia b) p (orientation b)
              (linearMomentum b) (angularMomentum b) (force b) (torque b)).

Definition GetPosition : M RigidBody (Vector3 Real) := fun b => (Ok (position b), b).
Definition GetMass : M RigidBody Real := fun b => (Ok (mass b), b).

End RigidBodyModel.

Arguments RigidBody Real : clear implicits.

(** ** Rigidsphere.h and RigidSphere.cpp *)

Section RigidSphereCode.

Context {Real : Type} `{RealOps Real}.

(** [class RigidSphere : public RigidBody<double>] with the private member
    [mWorldSphere]. *)
Record RigidSphere : Type := mkRigidSphere {
  sphere_body : RigidBody Real;
  mWorldSphere : Sphere3 Real
}.

(** A member inherited from RigidBody, called on a RigidSphere: it works on
    the RigidBody part and cannot reach [mWorldSphere], which is private to
    RigidSphere. *)
Definition sphere_inherited {A : Type} (m : M (RigidBody Real) A) : M RigidSphere A :=
  fun s => let (r, b) := m (sphere_body s) in (r, mkRigidSphere b (mWorldSphere s)).

Definition GetWorldSphere : M RigidSphere (Sphere3 Real) :=
  fun s => (Ok (mWorldSphere s), s).

Definition GetRadius : M RigidSphere Real :=
  fun s => (Ok (radius (mWorldSphere s)), s).

(** [RigidSphere::UpdateWorldQuantities]: [mWorldSphere.center = GetPosition()]. *)
Definition UpdateWorldQuantities : M RigidSphere unit :=
  p <- sphere_inherited GetPosition ;;
  fun s => (Ok tt, mkRigidSphere (sphere_body s) (mkSphere3 p (radius (mWorldSphere s)))).

(** The mass that the constructor computes from its two arguments. *)
Definition sphere_mass (r massDensity : Real) : Real :=
  let rCubed := (r * r * r)%gte in
  let volume := (r_lit 4 * r_pi * rCubed / r_lit 3)%gte in
  (massDensity * volume)%gte.


(** [RigidSphere::RigidSphere(sphere, massDensity)].  [fresh] is the base
    object that [RigidBody<double>{}] has built when the member initialisers
    have run; an error raised in the body leaves no object. *)
Definition RigidSphere_new (fresh : RigidBody Real) (sphere : Sphere3 Real)
    (massDensity : Real) : result RigidSphere :=
  let this := mkRigidSphere fresh (Hypersphere (mkVector3 r0 r0 r0) (radius sphere)) in
  let rCubed := (radius sphere * radius sphere * radius sphere)%gte in
  let volume := (r_lit 4 * r_pi * rCubed / r_lit 3)%gte in
  let mass := (massDensity * volume)%gte in
  let bodyInertia := scale_matrix massDensity Identity in
  let body :=
    sphere_inherited (SetMass mass) ;;;
    sphere_inherited (SetBodyInertia bodyInertia) ;;;
    sphere_inherited (SetPosition (center sphere)) ;;;
    UpdateWorldQuantities in
  match body this with
  | (Ok _, s) => Ok s
  | (Err e, _) => Err e
  end.

(** The operations on a RigidSphere after its construction: its own three,
    and whatever it inherits from RigidBody ([SetPosition] among them). *)
Inductive RigidSphereOp : Type :=
| SphereGetWorldSphere
| SphereGetRadius
| SphereUpdateWorldQuantities
| SphereInherited (f : M (RigidBody Real) unit).

Definition RigidSphere_step (op : RigidSphereOp) : M RigidSphere unit :=
  match op with
  | SphereGetWorldSphere => GetWorldSphere ;;; ret tt
  | SphereGetRadius => GetRadius ;;; ret tt
  | SphereUpdateWorldQuantities => UpdateWorldQuantities
  | SphereInherited f => sphere_inherited f
  end.

(** A sequence of operations.  An operation that raises an error leaves the
    object as it is at that point, and the caller goes on. *)
Fixpoint RigidSphere_run (ops : list RigidSphereOp) (s : RigidSphere) : RigidSphere :=
  match ops with
  | [] => s
  | op :: rest => RigidSphere_run rest (snd (RigidSphere_step op s))
  end.

End RigidSphereCode.

Arguments RigidSphere Real : clear implicits.
Arguments RigidSphereOp Real : clear implicits.

(** ** RigidPlane.h *)

Section RigidPlaneCode.

Context {Real : Type} `{RealOps Real}.

(** [class RigidPlane : public RigidBody<double>] with the private member
    [mPlane]. *)
Record RigidPlane : Type := mkRigidPlane {
  plane_body : RigidBody Real;
  mPlane : Plane3 Real
}.

Definition plane_inherited {A : Type} (m : M (RigidBody Real) A) : M RigidPlane A :=
  fun p => let (r, b) := m (plane_body p) in (r, mkRigidPlane b (mPlane p)).

Definition GetPlane : M RigidPlane (Plane3 Real) :=
  fun p => (Ok (mPlane p), p).

Definition GetSignedDistance (point : Vector3 Real) : M RigidPlane Real :=
  fun p => (Ok (Dot3 (normal (mPlane p)) point - constant (mPlane p))%gte, p).

(** The operations on a RigidPlane after its construction: the two const
    members that RigidPlane.h declares, and whatever it inherits from
    RigidBody.  A simulation step reaches a plane through these only. *)
Inductive RigidPlaneOp : Type :=
| PlaneGetPlane
| PlaneGetSignedDistance (point : Vector3 Real)
| PlaneInherited (f : M (RigidBody Real) unit).

Definition RigidPlane_step (op : RigidPlaneOp) : M RigidPlane unit :=
  match op with
  | PlaneGetPlane => GetPlane ;;; ret tt
  | PlaneGetSignedDistance point => GetSignedDistance point ;;; ret tt
  | PlaneInherited f => plane_inherited f
  end.

Fixpoint RigidPlane_run (ops : list RigidPlaneOp) (p : RigidPlane) : RigidPlane :=
  match ops with
  | [] => p
  | op :: rest => RigidPlane_run rest (snd (RigidPlane_step op p))
  end.

End RigidPlaneCode.

Arguments RigidPlane Real : clear implicits.
Arguments RigidPlaneOp Real : clear implicits.

(** ** Mathematics/GVector.h: the other operators, and the lifts and projections *)

(** Unary minus on the scalar, for [operator-(v)]. *)
Class RealNeg (Real : Type) : Type := {
  r_neg : Real -> Real
}.

#[export] Instance binary64_neg : RealNeg float := {| r_neg := PrimFloat.opp |}.
#[export] Instance ideal_neg : RealNeg R := {| r_neg := Ropp |}.

Section GVectorOperators.

Context {Real : Type} `{RealOps Real}.

(** A function that builds a local GVector, starting from [init], and returns
    it by value; an error raised on the way leaves nothing to return. *)
Definition returning (init : GVector Real) (body : M (GVector Real) unit)
    : result (GVector Real) :=
  match body init with
  | (Ok _, built) => Ok built
  | (Err e, _) => Err e
  end.

(** [operator-=(v0, v1)]. *)
Definition op_sub_assign (v1 : GVector Real) : M (GVector Real) unit :=
  v0 <- get ;;
  if GetSize v0 =? GetSize v1 then
    for_loop 0 (GetSize v0)
      (fun i _ => a <- load i ;; b <- lift (elem v1 i) ;; store i (a - b)%gte) tt
  else raise (LogError "Mismatched sizes.").

(** [operator*=(v, scalar)]. *)
Definition op_mul_assign (scalar : Real) : M (GVector Real) unit :=
  v <- get ;;
  for_loop 0 (GetSize v) (fun i _ => a <- load i ;; store i (a * scalar)%gte) tt.

(** The binary operators: [result = v0; return result op= v1]. *)
Definition op_add (v0 v1 : GVector Real) : result (GVector Real) :=
  returning v0 (op_add_assign v1).

Definition op_sub (v0 v1 : GVector Real) : result (GVector Real) :=
  returning v0 (op_sub_assign v1).

Definition op_mul (v : GVector Real) (scalar : Real) : result (GVector Real) :=
  returning v (op_mul_assign scalar).

Definition op_quot (v : GVector Real) (scalar : Real) : result (GVector Real) :=
  returning v (op_div_assign scalar).

(** [operator-(v)]: a vector of the size of [v], filled with [-v[i]]. *)
Definition op_neg `{RealNeg Real} (v : GVector Real) : result (GVector Real) :=
  returning GVector_default
    (SetSize (GetSize v) ;;;
     for_loop 0 (GetSize v) (fun i _ => x <- lift (elem v i) ;; store i (r_neg x)) tt).

(** [int32_t] addition, with the wrap-around of the machine. *)
Definition int32_add (a b : Z) : Z := cast_int32 (a + b).

(** The loop [for (i = lo; i < hi; ++i) result[i] = v[i]]. *)
Definition copy_components (v : GVector Real) (lo hi : Z) : M (GVector Real) unit :=
  for_loop lo hi (fun i _ => x <- lift (elem v i) ;; store i x) tt.

(** [HLift(v, last)]. *)
Definition HLift (v : GVector Real) (last : Real) : result (GVector Real) :=
  let size := GetSize v in
  returning GVector_default
    (SetSize (int32_add size 1) ;;;
     copy_components v 0 size ;;;
     store size last).

(** [HProject(v)]. *)
Definition HProject (v : GVector Real) : result (GVector Real) :=
  let size := GetSize v in
  if size >? 1 then
    returning GVector_default
      (SetSize (size - 1) ;;; copy_components v 0 (size - 1))
  else Ok GVector_default.

(** [Lift(v, inject, value)].  When the first loop ends, [i] is [inject], or
    0 if [inject] is negative; in the second loop [j] is [i + 1] throughout. *)
Definition Lift (v : GVector Real) (inject : Z) (value : Real) : result (GVector Real) :=
  let size := GetSize v in
  returning GVector_default
    (SetSize (int32_add size 1) ;;;
     copy_components v 0 inject ;;;
     let i := Z.max 0 inject in
     store i value ;;;
     for_loop i size (fun i _ => x <- lift (elem v i) ;; store (i + 1) x) tt).

(** [Project(v, reject)]; the loop carries [j] beside its counter [i]. *)
Definition Project (v : GVector Real) (reject : Z) : result (GVector Real) :=
  let size := GetSize v in
  if size >? 1 then
    returning GVector_default
      (SetSize (size - 1) ;;;
       for_loop 0 (size - 1)
         (fun i j =>
            let j' := if j =? reject then j + 1 else j in
            x <- lift (elem v j') ;;
            store i x ;;;
            ret (j' + 1))
         0 ;;;
       ret tt)
  else Ok GVector_default.

End GVectorOperators.

(** ** HyperSphere.h: the comparisons

    The comparisons of [Hypersphere] are written with the comparisons of
    [Vector<T, N>] on the centers; Vector.h is not among the sources, so
    [operator==], [operator<] and [operator>] of the centers are taken as
    parameters. *)

Section HypersphereComparisons.

Context {Real : Type} `{RealOps Real}.

Variable vec_eq : Vector3 Real -> Vector3 Real -> bool.
Variable vec_lt : Vector3 Real -> Vector3 Real -> bool.
Variable vec_gt : Vector3 Real -> Vector3 Real -> bool.

(** [operator==] and [operator!=]. *)
Definition Hypersphere_eq (hypersphere0 hypersphere1 : Sphere3 Real) : bool :=
  vec_eq (center hypersphere0) (center hypersphere1)
  && r_eq (radius hypersphere0) (radius hypersphere1).

Definition Hypersphere_ne (hypersphere0 hypersphere1 : Sphere3 Real) : bool :=
  negb (Hypersphere_eq hypersphere0 hypersphere1).

(** [operator<]. *)
Definition Hypersphere_lt (hypersphere0 hypersphere1 : Sphere3 Real) : bool :=
  if vec_lt (center hypersphere0) (center hypersphere1) then true
  else if vec_gt (center hypersphere0) (center hypersphere1) then false
  else r_lt (radius hypersphere0) (radius hypersphere1).

(** [operator<=], [operator>] and [operator>=], each through [operator<]. *)
Definition Hypersphere_le (hypersphere0 hypersphere1 : Sphere3 Real) : bool :=
  negb (Hypersphere_lt hypersphere1 hypersphere0).

Definition Hypersphere_gt (hypersphere0 hypersphere1 : Sphere3 Real) : bool :=
  Hypersphere_lt hypersphere1 hypersphere0.

Definition Hypersphere_ge (hypersphere0 hypersphere1 : Sphere3 Real) : bool :=
  negb (Hypersphere_lt hypersphere0 hypersphere1).

End HypersphereComparisons.

(** The lexicographic order on the 3-vectors of reals: one order on the
    centers that is a strict total order. *)
Definition lex3_lt (a b : Vector3 R) : bool :=
  Rltb (x0 a) (x0 b)
  || (Reqb (x0 a) (x0 b)
      && (Rltb (x1 a) (x1 b) || (Reqb (x1 a) (x1 b) && Rltb (x2 a) (x2 b)))).

Definition lex3_eq (a b : Vector3 R) : bool :=
  Reqb (x0 a) (x0 b) && Reqb (x1 a) (x1 b) && Reqb (x2 a) (x2 b).

(** ** Mathematics/GVector.h: ComputeExtremes *)

Section ComputeExtremesCode.

Context {Real : Type} `{RealOps Real}.

(** [v[i]] of the array of GVectors that the pointer [v] points to. *)
Definition array_elem (v : list (GVector Real)) (i : Z) : result (GVector Real) :=
  if i <? 0 then Err (OutOfRange i)
  else match nth_error v (Z.to_nat i) with
       | Some x => Ok x
       | None => Err (OutOfRange i)
       end.

(** The two outputs [vmin] and [vmax] are the mutated objects. *)
Definition on_vmin {A : Type} (m : M (GVector Real) A)
    : M (GVector Real * GVector Real) A :=
  fun s => let (r, vmin) := m (fst s) in (r, (vmin, snd s)).

Definition on_vmax {A : Type} (m : M (GVector Real) A)
    : M (GVector Real * GVector Real) A :=
  fun s => let (r, vmax) := m (snd s) in (r, (fst s, vmax)).

(** [ComputeExtremes(numVectors, v, vmin, vmax)]; [v] is [None] for the null
    pointer. *)
Definition ComputeExtremes (numVectors : Z) (v : option (list (GVector Real)))
    : M (GVector Real * GVector Real) bool :=
  match v with
  | Some arr =>
      if numVectors >? 0 then
        for_loop 1 numVectors
          (fun i _ =>
             first <- lift (array_elem arr 0) ;;
             vi <- lift (array_elem arr i) ;;
             if negb (GetSize first =? GetSize vi)
             then raise (LogError "Mismatched sizes.")
             else ret tt) tt ;;;
        first <- lift (array_elem arr 0) ;;
        let size := GetSize first in
        on_vmin (put first) ;;;
        vmin <- on_vmin get ;;
        on_vmax (put vmin) ;;;
        for_loop 1 numVectors
          (fun j _ =>
             vec <- lift (array_elem arr j) ;;
             for_loop 0 size
               (fun i _ =>
                  x <- lift (elem vec i) ;;
                  lo <- on_vmin (load i) ;;
                  if r_lt x lo then on_vmin (store i x)
                  else
                    hi <- on_vmax (load i) ;;
                    if r_gt x hi then on_vmax (store i x) else ret tt) tt) tt ;;;
        ret true
      else raise (LogError "Invalid input.")
  | None => raise (LogError "Invalid input.")
  end.

End ComputeExtremesCode.

(** ** Mathematics/GVector.h: Orthonormalize *)

Section OrthonormalizeCode.

Context {Real : Type} `{RealOps Real}.

Fixpoint array_update (v : list (GVector Real)) (n : nat) (x : GVector Real)
    : list (GVector Real) :=
  match v, n with
  | [], _ => []
  | _ :: t, O => x :: t
  | h :: t, S n' => h :: array_update t n' x
  end.

(** An operation on [v[i]], the other vectors of the array being left alone. *)
Definition at_index {A : Type} (i : Z) (m : M (GVector Real) A)
    : M (list (GVector Real)) A :=
  fun arr =>
    match array_elem arr i with
    | Ok vi => let (r, vi') := m vi in (r, array_update arr (Z.to_nat i) vi')
    | Err e => (Err e, arr)
    end.

(** Through the pointer [v], which is [None] when it is null. *)
Definition deref {A : Type} (m : M (list (GVector Real)) A)
    : M (option (list (GVector Real))) A :=
  fun p =>
    match p with
    | Some arr => let (r, arr') := m arr in (r, Some arr')
    | None => (Err (OutOfRange 0), None)
    end.

(** The part of [Orthonormalize] after the test of its arguments. *)
Definition Orthonormalize_body (numInputs : Z) (robust : bool)
    : M (list (GVector Real)) Real :=
  arr <- get ;;
  for_loop 1 numInputs
    (fun i _ =>
       first <- lift (array_elem arr 0) ;;
       vi <- lift (array_elem arr i) ;;
       if negb (GetSize first =? GetSize vi)
       then raise (LogError "Mismatched sizes.")
       else ret tt) tt ;;;
  minLength <- at_index 0 (Normalize robust) ;;
  for_loop 1 numInputs
    (fun i minLength =>
       for_loop 0 i
         (fun j _ =>
            arr <- get ;;
            vi <- lift (array_elem arr i) ;;
            vj <- lift (array_elem arr j) ;;
            dot <- Dot vi vj ;;
            scaled <- lift (op_mul vj dot) ;;
            at_index i (op_sub_assign scaled)) tt ;;;
       length <- at_index i (Normalize robust) ;;
       ret (if r_lt length minLength then length else minLength))
    minLength.

(** [Orthonormalize(numInputs, v, robust)]; the array behind [v] is the
    mutated object. *)
Definition Orthonormalize (numInputs : Z) (robust : bool)
    : M (option (list (GVector Real))) Real :=
  p <- get ;;
  match p with
  | Some arr =>
      if 1 <=? numInputs then
        first <- lift (array_elem arr 0) ;;
        if numInputs <=? GetSize first
        then deref (Orthonormalize_body numInputs robust)
        else raise (LogError "Invalid input.")
      else raise (LogError "Invalid input.")
  | None => raise (LogError "Invalid input.")
  end.

End OrthonormalizeCode.

(** ** Specification functions

    What the loops of GVector.h compute, as functions on lists. *)

Section GVectorSpec.

Context {Real : Type} `{RealOps Real}.

(** The components from position [k] on, each replaced by [g] of its index
    and of its old value. *)
Fixpoint mapi (g : nat -> Real -> Real) (k : nat) (l : list Real) : list Real :=
  match l with
  | [] => []
  | x :: t => g k x :: mapi g (S k) t
  end.

(** The componentwise sum of two tuples. *)
Definition sum_tuples (l0 l1 : list Real) : list Real :=
  map (fun ab => (fst ab + snd ab)%gte) (combine l0 l1).

(** The value of [dot] when the loop of [Dot(v, v)] ends. *)
Definition sum_squares (l : list Real) : Real :=
  fold_left (fun dot x => (dot + x * x)%gte) l r0.

(** The value of [maxAbsComp] when the scan of a tuple [x :: t] ends. *)
Definition max_abs (x : Real) (t : list Real) : Real :=
  fold_left (fun maxAbsComp y =>
               if r_gt (r_fabs y) maxAbsComp then r_fabs y else maxAbsComp)
            t (r_fabs x).

(** The tuple with every component zero, and the tuple divided by a scalar
    the way [operator/=] does it. *)
Definition zero_tuple (l : list Real) : list Real := map (fun _ => r0) l.

Definition scaled_tuple (scalar : Real) (l : list Real) : list Real :=
  map (fun a => (a * (r1 / scalar))%gte) l.

(** The tuple of size [n] with component [d] one and the others zero; the
    zero tuple when [d] is not an index. *)
Definition unit_tuple (n : nat) (d : Z) : list Real :=
  map (fun i => if Z.of_nat i =? d then r1 else r0) (seq 0 n).

(** Every component is [(Real)0]. *)
Definition all_zero (l : list Real) : Prop := Forall (fun a => a = r0) l.

End GVectorSpec.

(** ** Specification functions, continued *)

Section GVectorSpecMore.

Context {Real : Type} `{RealOps Real}.

(** Two tuples combined component by component. *)
Definition zip_tuples (f : Real -> Real -> Real) (l0 l1 : list Real) : list Real :=
  map (fun ab => f (fst ab) (snd ab)) (combine l0 l1).

(** The value of [dot] when the loop of [Dot(v0, v1)] ends. *)
Definition dot_tuples (l0 l1 : list Real) : Real :=
  fold_left (fun dot ab => (dot + fst ab * snd ab)%gte) (combine l0 l1) r0.

(** What one vector [vec] makes of the bounds [(lmin, lmax)] in the inner
    loop of ComputeExtremes. *)
Fixpoint extend_bounds (vec lmin lmax : list Real) : list Real * list Real :=
  match vec, lmin, lmax with
  | x :: vec', lo :: lmin', hi :: lmax' =>
      let (rmin, rmax) := extend_bounds vec' lmin' lmax' in
      if r_lt x lo then (x :: rmin, hi :: rmax)
      else if r_gt x hi then (lo :: rmin, x :: rmax)
      else (lo :: rmin, hi :: rmax)
  | _, _, _ => (lmin, lmax)
  end.

(** The bounds after the vectors [vs] have been looked at, starting from the
    first vector as both bounds. *)
Definition bounds_of (first : list Real) (vs : list (GVector Real)) : list Real * list Real :=
  fold_left (fun b vec => extend_bounds (mTuple vec) (fst b) (snd b)) vs (first, first).

End GVectorSpecMore.

(** ** Concrete bodies

    A freshly built RigidBody, in the reals and in binary64, on which the
    constructor of RigidSphere can be run. *)

Definition ideal_origin : Vector3 R := mkVector3 0%R 0%R 0%R.


Definition binary64_origin : Vector3 float := mkVector3 0%float 0%float 0%float.

Definition binary64_fresh : RigidBody float :=
  mkRigidBody 0%float Identity binary64_origin (mkQuaternion 0%float 0%float 0%float 1%float)
    binary64_origin binary64_origin binary64_origin binary64_origin.

(** The matrix with [a] on the diagonal and zero elsewhere. *)
Definition diagonal (a : R) : Matrix3x3 R :=
  mkMatrix3x3 (mkVector3 a 0%R 0%R) (mkVector3 0%R a 0%R) (mkVector3 0%R 0%R a).

(** * Properties *)

(** ** The scalar laws hold for binary64 and for the reals *)

Lemma binary64_gt_zero_ne_zero (x : float) :
  PrimFloat.ltb 0%float x = true -> PrimFloat.eqb x 0%float = false.
Proof.
  rewrite FloatAxioms.ltb_spec, FloatAxioms.eqb_spec.
  change (Prim2SF 0) with (S754_zero false).
  destruct (Prim2SF x) as [s | s | | s m e]; try destruct s; cbn; congruence.
Qed.

#[export] Instance binary64_laws : RealLaws float.
Proof.
  split; try reflexivity.
  intros x Hx. unfold r_ne, r_gt in *. cbn in *.
  change (@r0 float binary64_ops) with 0%float in *.
  now rewrite (binary64_gt_zero_ne_zero x Hx).
Qed.

Lemma Rltb_true (a b : R) : Rltb a b = true <-> (a < b)%R.
Proof. unfold Rltb. destruct (Rlt_dec a b); split; intros; easy. Qed.

Lemma Rltb_false (a b : R) : Rltb a b = false <-> (b <= a)%R.
Proof.
  unfold Rltb. destruct (Rlt_dec a b); split; intros; try easy; lra.
Qed.

Lemma Reqb_true (a b : R) : Reqb a b = true <-> a = b.
Proof. unfold Reqb. destruct (Req_dec_T a b); split; intros; easy. Qed.

Lemma Reqb_false (a b : R) : Reqb a b = false <-> a <> b.
Proof. unfold Reqb. destruct (Req_dec_T a b); split; intros; easy. Qed.

#[export] Instance ideal_laws : RealLaws R.
Proof.
  split; unfold r_gt, r_ne, r0; cbn.
  - intros x Hx. apply Rltb_true in Hx.
    apply negb_true_iff, Reqb_false. lra.
  - apply Rltb_false. lra.
  - ring.
  - apply sqrt_0.
  - apply Rabs_R0.
Qed.

(** ** Sizes and element access *)

Lemma cast_int32_fits (z : Z) : 0 <= z <= INT32_MAX -> cast_int32 z = z.
Proof.
  unfold cast_int32, INT32_MAX. intros Hz.
  rewrite Z.mod_small by lia. lia.
Qed.

Lemma cast_int32_le (z : Z) : 0 <= z -> cast_int32 z <= z.
Proof.
  unfold cast_int32. intros Hz.
  pose proof (Z.mod_le (z + 2147483648) 4294967296). lia.
Qed.

Section GVectorFacts.

Context {Real : Type} `{RealOps Real}.

Lemma GetSize_valid (v : GVector Real) :
  GVector_valid v -> GetSize v = Z.of_nat (length (mTuple v)).
Proof.
  intros Hv. unfold GetSize. apply cast_int32_fits.
  unfold GVector_valid in Hv. lia.
Qed.

Lemma GetSize_le_length (v : GVector Real) :
  GetSize v <= Z.of_nat (length (mTuple v)).
Proof. unfold GetSize. apply cast_int32_le. lia. Qed.

Lemma elem_middle (pre post : list Real) (x : Real) :
  elem (mkGVector (pre ++ x :: post)) (Z.of_nat (length pre)) = Ok x.
Proof.
  unfold elem. cbn [mTuple].
  destruct (Z.ltb_spec (Z.of_nat (length pre)) 0); [lia|].
  rewrite Nat2Z.id, nth_error_app2 by lia.
  now rewrite Nat.sub_diag.
Qed.

Lemma list_update_middle (pre post : list Real) (x y : Real) :
  list_update (pre ++ x :: post) (length pre) y = Some (pre ++ y :: post).
Proof.
  induction pre as [|a pre IH]; cbn; [reflexivity|].
  now rewrite IH.
Qed.

Lemma store_middle (pre post : list Real) (x y : Real) :
  store (Z.of_nat (length pre)) y (mkGVector (pre ++ x :: post))
  = (Ok tt, mkGVector (pre ++ y :: post)).
Proof.
  unfold store. cbn [mTuple].
  destruct (Z.ltb_spec (Z.of_nat (length pre)) 0); [lia|].
  now rewrite Nat2Z.id, list_update_middle.
Qed.

Lemma split_at (l : list Real) (n : nat) :
  (n < length l)%nat ->
  exists pre x post, l = pre ++ x :: post /\ length pre = n.
Proof.
  intros Hn.
  destruct (nth_error l n) as [x|] eqn:E.
  - apply nth_error_split in E as (pre & post & -> & Hlen). now exists pre, x, post.
  - apply nth_error_None in E. lia.
Qed.

(** *** Loops *)

Lemma mapi_length (g : nat -> Real -> Real) (l : list Real) (k : nat) :
  length (mapi g k l) = length l.
Proof. revert k. induction l; intros; cbn; auto. Qed.

Lemma mapi_const (g : nat -> Real -> Real) (f : Real -> Real) (l : list Real) (k : nat) :
  (forall i x, g i x = f x) -> mapi g k l = map f l.
Proof.
  intros Hg. revert k. induction l as [|a l IH]; intros k; cbn; [reflexivity|].
  now rewrite Hg, IH.
Qed.

(** A loop whose body rewrites the component at its index. *)
Lemma for_iter_pointwise (body : Z -> unit -> M (GVector Real) unit)
    (g : nat -> Real -> Real) (seg pre : list Real) :
  (forall pre' x post,
      (length pre <= length pre' < length pre + length seg)%nat ->
      body (Z.of_nat (length pre')) tt (mkGVector (pre' ++ x :: post))
      = (Ok tt, mkGVector (pre' ++ g (length pre') x :: post))) ->
  for_iter (length seg) (Z.of_nat (length pre)) body tt (mkGVector (pre ++ seg))
  = (Ok tt, mkGVector (pre ++ mapi g (length pre) seg)).
Proof.
  revert pre. induction seg as [|x seg IH]; intros pre Hbody.
  - reflexivity.
  - cbn [length for_iter mapi]. unfold bind at 1.
    rewrite Hbody by (cbn; lia).
    replace (pre ++ g (length pre) x :: seg) with ((pre ++ [g (length pre) x]) ++ seg)
      by (now rewrite <- app_assoc).
    replace (Z.of_nat (length pre) + 1) with (Z.of_nat (length (pre ++ [g (length pre) x])))
      by (rewrite length_app; cbn; lia).
    rewrite IH.
    + rewrite <- app_assoc. cbn. rewrite length_app. cbn.
      now rewrite Nat.add_1_r.
    + intros pre' y post Hlen. apply Hbody.
      rewrite length_app in Hlen. cbn in *. lia.
Qed.

(** A loop whose body only updates a local variable. *)
Lemma for_iter_fold {St A : Type} (body : Z -> A -> M St A) (f : A -> nat -> A)
    (n lo : nat) (a : A) (s : St) :
  (forall k a', (lo <= k < lo + n)%nat -> body (Z.of_nat k) a' s = (Ok (f a' k), s)) ->
  for_iter n (Z.of_nat lo) body a s = (Ok (fold_left f (seq lo n) a), s).
Proof.
  revert lo a. induction n as [|n IH]; intros lo a Hbody.
  - reflexivity.
  - cbn [for_iter seq fold_left]. unfold bind at 1.
    rewrite Hbody by lia.
    replace (Z.of_nat lo + 1) with (Z.of_nat (S lo)) by lia.
    apply IH. intros k a' Hk. apply Hbody. lia.
Qed.

End GVectorFacts.

(** ** MakeUnit *)

Section MakeUnitFacts.

Context {Real : Type} `{RealOps Real}.

Lemma unit_tuple_from (d : Z) (n lo : nat) :
  map (fun i => if Z.of_nat i =? d then r1 else r0) (seq lo n)
  = if (Z.of_nat lo <=? d) && (d <? Z.of_nat (lo + n))
    then repeat r0 (Z.to_nat d - lo) ++ r1 :: repeat r0 (lo + n - S (Z.to_nat d))
    else repeat (r0 : Real) n.
Proof.
  revert lo. induction n as [|n IH]; intros lo.
  - cbn. destruct (Z.leb_spec (Z.of_nat lo) d), (Z.ltb_spec d (Z.of_nat (lo + 0)));
      cbn; try reflexivity; lia.
  - cbn [seq map]. rewrite IH.
    destruct (Z.eqb_spec (Z.of_nat lo) d) as [<-|Hne].
    + rewrite Nat2Z.id, Nat.sub_diag.
      destruct (Z.leb_spec (Z.of_nat lo) (Z.of_nat lo)); [|lia].
      destruct (Z.ltb_spec (Z.of_nat lo) (Z.of_nat (lo + S n))); [|lia].
      destruct (Z.leb_spec (Z.of_nat (S lo)) (Z.of_nat lo)); [lia|].
      cbn. do 2 f_equal. lia.
    + destruct (Z.leb_spec (Z.of_nat (S lo)) d), (Z.ltb_spec d (Z.of_nat (S lo + n)));
        destruct (Z.leb_spec (Z.of_nat lo) d), (Z.ltb_spec d (Z.of_nat (lo + S n)));
        cbn [andb]; try lia; try reflexivity.
      replace (Z.to_nat d - lo)%nat with (S (Z.to_nat d - S lo)) by lia.
      cbn. do 4 f_equal. lia.
Qed.

Lemma unit_tuple_inside (n : nat) (d : Z) :
  0 <= d < Z.of_nat n ->
  unit_tuple n d = repeat r0 (Z.to_nat d) ++ r1 :: repeat (r0 : Real) (n - S (Z.to_nat d)).
Proof.
  intros Hd. unfold unit_tuple. rewrite unit_tuple_from.
  destruct (Z.leb_spec (Z.of_nat 0) d), (Z.ltb_spec d (Z.of_nat (0 + n))); cbn in *; try lia.
  now rewrite Nat.sub_0_r.
Qed.

Lemma unit_tuple_outside (n : nat) (d : Z) :
  ~ (0 <= d < Z.of_nat n) -> unit_tuple n d = repeat (r0 : Real) n.
Proof.
  intros Hd. unfold unit_tuple. rewrite unit_tuple_from.
  destruct (Z.leb_spec (Z.of_nat 0) d), (Z.ltb_spec d (Z.of_nat (0 + n))); cbn in *;
    try reflexivity; lia.
Qed.

Lemma zero_tuple_repeat (l : list Real) : zero_tuple l = repeat r0 (length l).
Proof. apply map_const. Qed.

(** MakeUnit raises no error and leaves the unit tuple. *)
Lemma MakeUnit_spec (v : GVector Real) (d : Z) :
  GVector_valid v ->
  MakeUnit d v = (Ok tt, mkGVector (unit_tuple (length (mTuple v)) d)).
Proof.
  intros Hv. destruct v as [l]. unfold GVector_valid in Hv. cbn [mTuple] in *.
  unfold MakeUnit, bind, std_fill, get. cbn [mTuple].
  rewrite length_map, cast_int32_fits by lia.
  destruct (Z.leb_spec 0 d) as [Hd0|Hd0]; cbn [andb].
  - destruct (Z.ltb_spec d (Z.of_nat (length l))) as [Hdn|Hdn].
    + rewrite unit_tuple_inside by lia.
      change (map (fun _ => r0) l) with (zero_tuple l).
      rewrite zero_tuple_repeat.
      replace (length l) with (Z.to_nat d + S (length l - S (Z.to_nat d)))%nat at 1 by lia.
      rewrite repeat_app. cbn [repeat].
      replace d with (Z.of_nat (length (repeat (r0 : Real) (Z.to_nat d)))) at 1
        by (rewrite repeat_length; lia).
      apply store_middle.
    + rewrite unit_tuple_outside by lia.
      unfold ret. now rewrite <- zero_tuple_repeat.
  - rewrite unit_tuple_outside by lia.
    unfold ret. now rewrite <- zero_tuple_repeat.
Qed.

(** C9.  MakeUnit is total for every index: on a GVector of size n (a size
    that fits int32_t, as SetSize makes it) and for every d, it raises no
    error, in particular no component outside the tuple is touched; the
    result has component d equal to 1 and every other component 0 when
    0 <= d < n, and it is the zero vector for every other d. *)
Theorem MakeUnit_total (v : GVector Real) (d : Z) :
  GVector_valid v ->
  MakeUnit d v = (Ok tt, mkGVector (unit_tuple (length (mTuple v)) d))
  /\ (0 <= d < Z.of_nat (length (mTuple v)) ->
      nth_error (unit_tuple (length (mTuple v)) d) (Z.to_nat d) = Some r1)
  /\ (~ (0 <= d < Z.of_nat (length (mTuple v))) ->
      MakeUnit d v = (Ok tt, mkGVector (zero_tuple (mTuple v)))).
Proof.
  intros Hv. pose proof (MakeUnit_spec v d Hv) as Hrun.
  destruct v as [l]. unfold GVector_valid in Hv. cbn [mTuple] in *.
  split; [exact Hrun|split].
  - intros Hd. rewrite unit_tuple_inside by lia.
    rewrite nth_error_app2 by (rewrite repeat_length; lia).
    now rewrite repeat_length, Nat.sub_diag.
  - intros Hd. rewrite Hrun, unit_tuple_outside by lia.
    now rewrite zero_tuple_repeat.
Qed.

End MakeUnitFacts.

(** MakeUnit on three binary64 components, at an index inside the tuple. *)
Lemma MakeUnit_total_witness :
  GVector_valid (mkGVector [5; 6; 7]%float)
  /\ MakeUnit 1 (mkGVector [5; 6; 7]%float) = (Ok tt, mkGVector [0; 1; 0]%float).
Proof.
  assert (Hv : GVector_valid (mkGVector [5; 6; 7]%float))
    by (unfold GVector_valid, INT32_MAX; cbn; lia).
  split; [exact Hv|].
  exact (proj1 (MakeUnit_total (mkGVector [5; 6; 7]%float) 1 Hv)).
Defined.

(** ** operator+= *)

Section AddAssignFacts.

Context {Real : Type} `{RealOps Real}.

Lemma elem_nth (l : list Real) (i : nat) :
  (i < length l)%nat -> elem (mkGVector l) (Z.of_nat i) = Ok (nth i l r0).
Proof.
  intros Hi. destruct (split_at l i Hi) as (pre & x & post & -> & <-).
  rewrite elem_middle. now rewrite app_nth2, Nat.sub_diag by lia.
Qed.

Lemma mapi_sum_tuples (l0 l1 pre1 : list Real) :
  length l0 = length l1 ->
  mapi (fun k x => (x + nth k (pre1 ++ l1) r0)%gte) (length pre1) l0 = sum_tuples l0 l1.
Proof.
  revert l1 pre1. induction l0 as [|a l0 IH]; intros [|b l1] pre1 Hlen;
    try discriminate; [reflexivity|].
  unfold sum_tuples. cbn [mapi combine map fst snd].
  rewrite app_nth2, Nat.sub_diag by lia. cbn [nth]. f_equal.
  specialize (IH l1 (pre1 ++ [b])).
  rewrite length_app, <- app_assoc in IH. cbn in IH.
  rewrite Nat.add_1_r in IH. apply IH. now injection Hlen.
Qed.

(** C10.  operator+= is atomic on error: on two GVectors (of sizes that fit
    int32_t) of equal size it returns with v0 holding the componentwise sum;
    on two of different sizes it raises the error "Mismatched sizes." and v0
    is as it was, no component having been written. *)
Theorem op_add_assign_atomic (v0 v1 : GVector Real) :
  GVector_valid v0 -> GVector_valid v1 ->
  (length (mTuple v0) = length (mTuple v1) ->
   op_add_assign v1 v0 = (Ok tt, mkGVector (sum_tuples (mTuple v0) (mTuple v1))))
  /\ (length (mTuple v0) <> length (mTuple v1) ->
      op_add_assign v1 v0 = (Err (LogError "Mismatched sizes."), v0)).
Proof.
  intros Hv0 Hv1. unfold op_add_assign, bind, get.
  rewrite (GetSize_valid v0 Hv0), (GetSize_valid v1 Hv1).
  destruct v0 as [l0], v1 as [l1]. cbn [mTuple].
  split; intros Hlen.
  - rewrite Hlen, Z.eqb_refl, <- Hlen.
    unfold for_loop. rewrite Z.sub_0_r, Nat2Z.id.
    rewrite (for_iter_pointwise _ (fun k x => (x + nth k l1 r0)%gte) l0 []).
    + cbn [app length]. now rewrite <- (mapi_sum_tuples l0 l1 [] Hlen).
    + intros pre x post Hpre. cbn [length] in Hpre.
      unfold bind, load, lift. rewrite elem_middle, elem_nth by lia.
      apply store_middle.
  - destruct (Z.eqb_spec (Z.of_nat (length l0)) (Z.of_nat (length l1))); [lia|].
    reflexivity.
Qed.

End AddAssignFacts.

(** operator+= on binary64 tuples of equal size. *)
Lemma op_add_assign_atomic_witness :
  op_add_assign (mkGVector [1; 2]%float) (mkGVector [5; 6]%float)
  = (Ok tt, mkGVector [6; 8]%float).
Proof.
  refine (proj1 (op_add_assign_atomic (mkGVector [5; 6]%float) (mkGVector [1; 2]%float) _ _) _).
  - unfold GVector_valid, INT32_MAX; cbn; lia.
  - unfold GVector_valid, INT32_MAX; cbn; lia.
  - reflexivity.
Defined.

(** An example of the other branch: tuples of different sizes. *)
Example op_add_assign_mismatch :
  op_add_assign (mkGVector [1; 2]%float) (mkGVector [5; 6; 7]%float)
  = (Err (LogError "Mismatched sizes."), mkGVector [5; 6; 7]%float).
Proof. reflexivity. Qed.

(** ** Dot, operator/= and Normalize *)

Section NormalizeFacts.

Context {Real : Type} `{RealOps Real}.

Lemma fold_seq_nth {A : Type} (h : A -> Real -> A) (l pre : list Real) (a : A) :
  fold_left (fun acc k => h acc (nth k (pre ++ l) r0)) (seq (length pre) (length l)) a
  = fold_left h l a.
Proof.
  revert pre a. induction l as [|x l IH]; intros pre a; [reflexivity|].
  cbn [length seq fold_left].
  rewrite app_nth2, Nat.sub_diag by lia. cbn [nth].
  specialize (IH (pre ++ [x]) (h a x)).
  rewrite length_app, <- app_assoc in IH. cbn in IH.
  now rewrite Nat.add_1_r in IH.
Qed.

Lemma Dot_self {St : Type} (v : GVector Real) (s : St) :
  GVector_valid v -> Dot v v s = (Ok (sum_squares (mTuple v)), s).
Proof.
  intros Hv. unfold Dot. rewrite Z.eqb_refl, (GetSize_valid v Hv).
  destruct v as [l]. cbn [mTuple].
  unfold for_loop. rewrite Z.sub_0_r, Nat2Z.id.
  rewrite (for_iter_fold _ (fun dot k => (dot + nth k l r0 * nth k l r0)%gte) (length l) 0).
  - unfold sum_squares.
    now rewrite <- (fold_seq_nth (fun dot x => (dot + x * x)%gte) l []).
  - intros k a Hk. unfold bind, lift, ret. now rewrite elem_nth by lia.
Qed.

Lemma maxAbsComp_scan_cons {St : Type} (x : Real) (t : list Real) (s : St) :
  GVector_valid (mkGVector (x :: t)) ->
  maxAbsComp_scan (mkGVector (x :: t)) s = (Ok (max_abs x t), s).
Proof.
  intros Hv. unfold maxAbsComp_scan, bind, lift.
  rewrite (GetSize_valid _ Hv). cbn [mTuple elem Z.ltb Z.compare Z.to_nat nth_error].
  unfold for_loop.
  replace (Z.to_nat (Z.of_nat (length (x :: t)) - 1)) with (length t) by (cbn [length]; lia).
  rewrite (for_iter_fold _
             (fun m k => if r_gt (r_fabs (nth k (x :: t) r0)) m
                         then r_fabs (nth k (x :: t) r0) else m) (length t) 1).
  - unfold max_abs.
    now rewrite <- (fold_seq_nth (fun m y => if r_gt (r_fabs y) m then r_fabs y else m) t [x]).
  - intros k a Hk. unfold bind, lift, ret. now rewrite elem_nth by (cbn [length]; lia).
Qed.

Lemma maxAbsComp_scan_nil {St : Type} (s : St) :
  maxAbsComp_scan (mkGVector (@nil Real)) s = (Err (OutOfRange 0), s).
Proof. reflexivity. Qed.

Lemma op_div_assign_nonzero (scalar : Real) (v : GVector Real) :
  GVector_valid v -> r_ne scalar r0 = true ->
  op_div_assign scalar v = (Ok tt, mkGVector (scaled_tuple scalar (mTuple v))).
Proof.
  intros Hv Hne. unfold op_div_assign. rewrite Hne. unfold bind, get.
  rewrite (GetSize_valid v Hv). destruct v as [l]. cbn [mTuple].
  unfold for_loop. rewrite Z.sub_0_r, Nat2Z.id.
  rewrite (for_iter_pointwise _ (fun _ a => (a * (r1 / scalar))%gte) l []).
  - cbn [app length]. unfold scaled_tuple. now rewrite (mapi_const _ (fun a => (a * (r1 / scalar))%gte)).
  - intros pre x post _. unfold bind, load. rewrite elem_middle. apply store_middle.
Qed.

Lemma op_div_assign_zero (scalar : Real) (v : GVector Real) :
  r_ne scalar r0 = false ->
  op_div_assign scalar v = (Err (LogError "Division by zero."), v).
Proof. intros Hne. unfold op_div_assign. now rewrite Hne. Qed.

Lemma zero_components_spec (v : GVector Real) :
  GVector_valid v ->
  zero_components v = (Ok tt, mkGVector (zero_tuple (mTuple v))).
Proof.
  intros Hv. unfold zero_components, bind, get.
  rewrite (GetSize_valid v Hv). destruct v as [l]. cbn [mTuple].
  unfold for_loop. rewrite Z.sub_0_r, Nat2Z.id.
  rewrite (for_iter_pointwise _ (fun _ _ => r0) l []).
  - cbn [app length]. unfold zero_tuple. now rewrite (mapi_const _ (fun _ => r0)).
  - intros pre x post _. apply store_middle.
Qed.

Lemma scaled_tuple_valid (scalar : Real) (v : GVector Real) :
  GVector_valid v -> GVector_valid (mkGVector (scaled_tuple scalar (mTuple v))).
Proof.
  unfold GVector_valid, scaled_tuple. cbn [mTuple]. now rewrite length_map.
Qed.

Lemma op_div_nonzero {St : Type} (v : GVector Real) (scalar : Real) (s : St) :
  GVector_valid v -> r_ne scalar r0 = true ->
  op_div v scalar s = (Ok (mkGVector (scaled_tuple scalar (mTuple v))), s).
Proof.
  intros Hv Hne. unfold op_div. now rewrite (op_div_assign_nonzero scalar v Hv Hne).
Qed.

(** [Length] returns the length that [Normalize] computes in the same mode. *)
Lemma Length_standard {St : Type} (v : GVector Real) (s : St) :
  GVector_valid v ->
  Length v false s = (Ok (r_sqrt (sum_squares (mTuple v))), s).
Proof. intros Hv. unfold Length, bind. now rewrite (Dot_self v s Hv). Qed.

Lemma Length_robust `{!RealLaws Real} {St : Type} (x : Real) (t : list Real) (s : St) :
  GVector_valid (mkGVector (x :: t)) ->
  let maxAbsComp := max_abs x t in
  Length (mkGVector (x :: t)) true s
  = (Ok (if r_gt maxAbsComp r0
         then (maxAbsComp * r_sqrt (sum_squares (scaled_tuple maxAbsComp (x :: t))))%gte
         else r0), s).
Proof.
  intros Hv maxAbsComp. unfold Length, bind.
  rewrite (maxAbsComp_scan_cons x t s Hv). fold maxAbsComp.
  destruct (r_gt maxAbsComp r0) eqn:Hgt; [|reflexivity].
  rewrite (op_div_nonzero _ maxAbsComp s Hv (gt_zero_ne_zero maxAbsComp Hgt)).
  pose proof (scaled_tuple_valid maxAbsComp _ Hv) as Hv'.
  cbn [mTuple] in *. now rewrite (Dot_self _ s Hv').
Qed.

(** The non-robust branch, in full: it never raises an error, and it divides
    only by a length that is greater than zero. *)
Lemma Normalize_standard `{!RealLaws Real} (v : GVector Real) :
  GVector_valid v ->
  let length := r_sqrt (sum_squares (mTuple v)) in
  Normalize false v
  = (Ok length,
     mkGVector (if r_gt length r0 then scaled_tuple length (mTuple v)
                else zero_tuple (mTuple v))).
Proof.
  intros Hv length. unfold Normalize, bind, get.
  rewrite (Dot_self v v Hv). fold length.
  destruct (r_gt length r0) eqn:Hgt.
  - now rewrite (op_div_assign_nonzero length v Hv (gt_zero_ne_zero length Hgt)).
  - now rewrite (zero_components_spec v Hv).
Qed.

(** The robust branch on a tuple that has a first component, in full. *)
Lemma Normalize_robust `{!RealLaws Real} (x : Real) (t : list Real) :
  GVector_valid (mkGVector (x :: t)) ->
  let maxAbsComp := max_abs x t in
  let scaled := scaled_tuple maxAbsComp (x :: t) in
  let length := r_sqrt (sum_squares scaled) in
  Normalize true (mkGVector (x :: t))
  = if r_gt maxAbsComp r0 then
      if r_ne length r0
      then (Ok (length * maxAbsComp)%gte, mkGVector (scaled_tuple length scaled))
      else (Err (LogError "Division by zero."), mkGVector scaled)
    else (Ok r0, mkGVector (zero_tuple (x :: t))).
Proof.
  intros Hv maxAbsComp scaled length. unfold Normalize, bind, get.
  rewrite (maxAbsComp_scan_cons x t _ Hv). fold maxAbsComp.
  destruct (r_gt maxAbsComp r0) eqn:Hgt.
  - rewrite (op_div_assign_nonzero maxAbsComp _ Hv (gt_zero_ne_zero maxAbsComp Hgt)).
    cbn [mTuple]. fold scaled.
    pose proof (scaled_tuple_valid maxAbsComp _ Hv) as Hv'. cbn [mTuple] in Hv'. fold scaled in Hv'.
    rewrite (Dot_self _ _ Hv'). cbn [mTuple]. fold length.
    destruct (r_ne length r0) eqn:Hne.
    + now rewrite (op_div_assign_nonzero length _ Hv' Hne).
    + now rewrite (op_div_assign_zero length _ Hne).
  - now rewrite (zero_components_spec _ Hv).
Qed.

End NormalizeFacts.

Section NormalizeZeroLength.

Context {Real : Type} `{RealOps Real} `{!RealLaws Real}.

Lemma sum_squares_all_zero (l : list Real) : all_zero l -> sum_squares l = r0.
Proof.
  unfold sum_squares. induction 1 as [|a l -> _ IH]; [reflexivity|].
  cbn [fold_left]. now rewrite add_zero_sq_zero.
Qed.

Lemma max_abs_all_zero (t : list Real) : all_zero t -> max_abs r0 t = r0.
Proof.
  unfold max_abs. rewrite fabs_zero.
  induction 1 as [|a l -> _ IH]; [reflexivity|].
  cbn [fold_left]. now rewrite fabs_zero, zero_not_gt_zero.
Qed.

Lemma zero_tuple_all_zero (l : list Real) : all_zero l -> zero_tuple l = l.
Proof.
  unfold zero_tuple. induction 1 as [|a l -> _ IH]; [reflexivity|].
  cbn [map]. now rewrite IH.
Qed.

(** C8, as the code has it.  On a GVector of a size that fits int32_t,
    Normalize guards its divisions:
    - in the non-robust mode it raises no error for any vector; it returns the
      length it computed, divides by it only when it is greater than zero,
      and otherwise sets every component to zero, so that a vector for
      which Length returns 0 comes back as the zero vector with length 0;
    - in the robust mode, on a vector that has a first component, it divides
      by the largest absolute component only when that is greater than zero,
      and otherwise returns 0 and sets every component to zero;
    - on the all-zero vector with at least one component both modes return 0
      and leave every component zero. *)
Theorem Normalize_guarded (v : GVector Real) :
  GVector_valid v ->
  let l := mTuple v in
  let length := r_sqrt (sum_squares l) in
  Normalize false v
  = (Ok length, mkGVector (if r_gt length r0 then scaled_tuple length l else zero_tuple l))
  /\ (fst (Length v false tt) = Ok r0 ->
      Normalize false v = (Ok r0, mkGVector (zero_tuple l)))
  /\ (forall x t, l = x :: t ->
      let maxAbsComp := max_abs x t in
      let scaled := scaled_tuple maxAbsComp l in
      let length' := r_sqrt (sum_squares scaled) in
      (r_gt maxAbsComp r0 = false ->
       Normalize true v = (Ok r0, mkGVector (zero_tuple l)))
      /\ (r_gt maxAbsComp r0 = true ->
          Normalize true v
          = if r_ne length' r0
            then (Ok (length' * maxAbsComp)%gte, mkGVector (scaled_tuple length' scaled))
            else (Err (LogError "Division by zero."), mkGVector scaled)))
  /\ (all_zero l -> l <> [] ->
      Normalize true v = (Ok r0, v) /\ Normalize false v = (Ok r0, v)).
Proof.
  intros Hv l length.
  pose proof (Normalize_standard v Hv) as Hstd. cbn zeta in Hstd. fold l length in Hstd.
  assert (Hrob : forall x t, l = x :: t ->
            Normalize true v
            = if r_gt (max_abs x t) r0 then
                if r_ne (r_sqrt (sum_squares (scaled_tuple (max_abs x t) l))) r0
                then (Ok (r_sqrt (sum_squares (scaled_tuple (max_abs x t) l)) * max_abs x t)%gte,
                      mkGVector (scaled_tuple
                                   (r_sqrt (sum_squares (scaled_tuple (max_abs x t) l)))
                                   (scaled_tuple (max_abs x t) l)))
                else (Err (LogError "Division by zero."),
                      mkGVector (scaled_tuple (max_abs x t) l))
              else (Ok r0, mkGVector (zero_tuple l))).
  { intros x t Hl. destruct v as [l']. cbn [mTuple] in l. subst l. subst l'.
    apply (Normalize_robust x t Hv). }
  split; [exact Hstd|split; [|split]].
  - rewrite (Length_standard v tt Hv). cbn [fst]. fold l length.
    intros [= Hzero]. rewrite Hstd, Hzero. now rewrite zero_not_gt_zero.
  - intros x t Hl maxAbsComp scaled length'. specialize (Hrob x t Hl).
    fold maxAbsComp scaled length' in Hrob.
    split; intros Hgt; now rewrite Hgt in Hrob.
  - intros Hzero Hne.
    assert (Hv_eq : mkGVector (zero_tuple l) = v).
    { rewrite (zero_tuple_all_zero l Hzero). now destruct v. }
    split.
    + destruct l as [|x t] eqn:Hl; [congruence|].
      rewrite (Hrob x t eq_refl).
      inversion Hzero as [|? ? Hx Ht]; subst x.
      rewrite (max_abs_all_zero t Ht), zero_not_gt_zero. now rewrite Hv_eq.
    + rewrite Hstd. unfold length.
      rewrite (sum_squares_all_zero l Hzero), sqrt_zero, zero_not_gt_zero.
      now rewrite Hv_eq.
Qed.

End NormalizeZeroLength.

(** Both modes of Normalize on the all-zero binary64 vector of size 2. *)
Lemma Normalize_guarded_witness :
  Normalize true (mkGVector [0; 0]%float) = (Ok 0%float, mkGVector [0; 0]%float)
  /\ Normalize false (mkGVector [0; 0]%float) = (Ok 0%float, mkGVector [0; 0]%float).
Proof.
  refine (proj2 (proj2 (proj2 (Normalize_guarded (mkGVector [0; 0]%float) _))) _ _).
  - unfold GVector_valid, INT32_MAX; cbn; lia.
  - repeat constructor.
  - discriminate.
Defined.

(** The robust mode reads [v[0]] before it looks at the size: on the GVector
    of size 0, whose length is zero, it does not return length 0 but reads
    outside the tuple.  The non-robust mode returns 0 there. *)
Lemma Normalize_robust_empty :
  GVector_valid (mkGVector (@nil float))
  /\ r_sqrt (sum_squares (@nil float)) = r0
  /\ Normalize false (mkGVector (@nil float)) = (Ok r0, mkGVector [])
  /\ Normalize true (mkGVector (@nil float)) = (Err (OutOfRange 0), mkGVector [])
  /\ Normalize true (mkGVector (@nil float)) <> (Ok r0, mkGVector []).
Proof.
  repeat split; try reflexivity.
  - unfold GVector_valid, INT32_MAX; cbn; lia.
  - discriminate.
Qed.

(** ** RigidBody: position *)

Section RigidBodyFacts.

Context {Real : Type} `{RealOps Real}.

(** C7.  Setting a body's position and reading it back returns the very
    value that was set, for a plain body and for the body of a sphere and of
    a plane alike. *)
Theorem SetPosition_GetPosition (p : Vector3 Real) :
  (forall b : RigidBody Real,
      (SetPosition p ;;; GetPosition) b = (Ok p, snd (SetPosition p b)))
  /\ (forall s : RigidSphere Real,
         fst ((sphere_inherited (SetPosition p) ;;; sphere_inherited GetPosition) s) = Ok p)
  /\ (forall q : RigidPlane Real,
         fst ((plane_inherited (SetPosition p) ;;; plane_inherited GetPosition) q) = Ok p).
Proof.
  split; [|split].
  - intros b. reflexivity.
  - intros s. reflexivity.
  - intros q. reflexivity.
Qed.

End RigidBodyFacts.

(** ** RigidPlane *)

Section RigidPlaneFacts.

Context {Real : Type} `{RealOps Real}.

Lemma plane_inherited_mPlane {A : Type} (m : M (RigidBody Real) A) (p : RigidPlane Real) :
  mPlane (snd (plane_inherited m p)) = mPlane p.
Proof. unfold plane_inherited. now destruct (m (plane_body p)). Qed.

Lemma RigidPlane_step_mPlane (op : RigidPlaneOp Real) (p : RigidPlane Real) :
  mPlane (snd (RigidPlane_step op p)) = mPlane p.
Proof.
  destruct op as [| point | f]; cbn [RigidPlane_step].
  - reflexivity.
  - reflexivity.
  - apply plane_inherited_mPlane.
Qed.

(** C3.  The plane that a RigidPlane carries never changes after the
    construction: after any sequence of operations on the RigidPlane (its
    own and the inherited ones, failing or not) GetPlane returns the normal
    and the constant it returned before. *)
Theorem RigidPlane_plane_immutable (ops : list (RigidPlaneOp Real)) (p : RigidPlane Real) :
  GetPlane (RigidPlane_run ops p) = (Ok (mPlane p), RigidPlane_run ops p)
  /\ normal (mPlane (RigidPlane_run ops p)) = normal (mPlane p)
  /\ constant (mPlane (RigidPlane_run ops p)) = constant (mPlane p).
Proof.
  assert (Hrun : mPlane (RigidPlane_run ops p) = mPlane p).
  { revert p. induction ops as [|op ops IH]; intros p; cbn [RigidPlane_run].
    - reflexivity.
    - rewrite IH. apply RigidPlane_step_mPlane. }
  unfold GetPlane. now rewrite Hrun.
Qed.

(** C5.  GetSignedDistance(p) returns the dot product of the plane normal
    with the point minus the plane constant, and leaves the RigidPlane as
    it was. *)
Theorem GetSignedDistance_spec (q : RigidPlane Real) (point : Vector3 Real) :
  let n := normal (mPlane q) in
  let d := constant (mPlane q) in
  fst (GetSignedDistance point q) = Ok (Dot3 n point - d)%gte
  /\ Dot3 n point = (x0 n * x0 point + x1 n * x1 point + x2 n * x2 point)%gte
  /\ snd (GetSignedDistance point q) = q
  /\ RigidPlane_run [PlaneGetSignedDistance point] q = q.
Proof. repeat split. Qed.

End RigidPlaneFacts.

(** In the reals, the signed distance is zero exactly on the plane
    [n . p = d]. *)
Lemma GetSignedDistance_on_plane (q : RigidPlane R) (point : Vector3 R) :
  fst (GetSignedDistance point q) = Ok 0%R
  <-> Dot3 (normal (mPlane q)) point = constant (mPlane q).
Proof.
  cbn. split.
  - intros Hd. injection Hd as Hd. unfold Dot3 in *. cbn in *. lra.
  - intros Hd. f_equal. unfold Dot3 in *. cbn in *. lra.
Qed.

(** ** RigidSphere *)

Section RigidSphereFacts.

Context {Real : Type} `{RealOps Real}.

(** The constructor, branch by branch. *)
Lemma RigidSphere_new_spec (fresh : RigidBody Real) (sphere : Sphere3 Real) (massDensity : Real) :
  RigidSphere_new fresh sphere massDensity
  = if r_le (sphere_mass (radius sphere) massDensity) r0
    then Err (FatalError "Mass must be positive.")
    else if is_positive_definite (scale_matrix massDensity Identity)
    then Ok (mkRigidSphere
               (mkRigidBody (sphere_mass (radius sphere) massDensity)
                  (scale_matrix massDensity Identity) (center sphere)
                  (orientation fresh) (linearMomentum fresh) (angularMomentum fresh)
                  (force fresh) (torque fresh))
               (mkSphere3 (center sphere) (radius sphere)))
    else Err (FatalError "Body inertia must be positive definite.").
Proof.
  unfold RigidSphere_new, sphere_mass, bind, sphere_inherited, SetMass,
    SetBodyInertia, SetPosition, UpdateWorldQuantities, GetPosition, Hypersphere.
  cbn.
  destruct (r_le _ r0); [reflexivity|]. cbn.
  destruct (is_positive_definite _); reflexivity.
Qed.

Lemma RigidSphere_new_Ok (fresh : RigidBody Real) (sphere : Sphere3 Real)
    (massDensity : Real) (s : RigidSphere Real) :
  RigidSphere_new fresh sphere massDensity = Ok s ->
  mass (sphere_body s) = sphere_mass (radius sphere) massDensity
  /\ bodyInertia (sphere_body s) = scale_matrix massDensity Identity
  /\ position (sphere_body s) = center sphere
  /\ mWorldSphere s = mkSphere3 (center sphere) (radius sphere).
Proof.
  rewrite RigidSphere_new_spec.
  destruct (r_le _ r0); [discriminate|].
  destruct (is_positive_definite _); [|discriminate].
  intros [= <-]. cbn. repeat split.
Qed.

(** C6.  A RigidSphere whose inputs give a mass m <= 0 is not constructed:
    the constructor fails with a fatal error. *)
Theorem RigidSphere_new_nonpositive_mass (fresh : RigidBody Real) (sphere : Sphere3 Real)
    (massDensity : Real) :
  r_le (sphere_mass (radius sphere) massDensity) r0 = true ->
  RigidSphere_new fresh sphere massDensity = Err (FatalError "Mass must be positive.")
  /\ (forall s, RigidSphere_new fresh sphere massDensity <> Ok s).
Proof.
  intros Hm. rewrite RigidSphere_new_spec, Hm. split; [reflexivity|discriminate].
Qed.

Lemma sphere_inherited_mWorldSphere {A : Type} (m : M (RigidBody Real) A) (s : RigidSphere Real) :
  mWorldSphere (snd (sphere_inherited m s)) = mWorldSphere s.
Proof. unfold sphere_inherited. now destruct (m (sphere_body s)). Qed.

Lemma RigidSphere_step_radius (op : RigidSphereOp Real) (s : RigidSphere Real) :
  radius (mWorldSphere (snd (RigidSphere_step op s))) = radius (mWorldSphere s).
Proof.
  destruct op as [| | | f]; cbn [RigidSphere_step]; try reflexivity.
  now rewrite sphere_inherited_mWorldSphere.
Qed.

Lemma RigidSphere_run_radius (ops : list (RigidSphereOp Real)) (s : RigidSphere Real) :
  radius (mWorldSphere (RigidSphere_run ops s)) = radius (mWorldSphere s).
Proof.
  revert s. induction ops as [|op ops IH]; intros s; cbn [RigidSphere_run].
  - reflexivity.
  - rewrite IH. apply RigidSphere_step_radius.
Qed.

(** C4.  Whatever has been done to a RigidSphere since its construction, a
    call of UpdateWorldQuantities leaves the world sphere's center equal to
    the body's position, and the world sphere's radius is the radius given
    to the constructor; SetPosition does not change the radius either. *)
Theorem UpdateWorldQuantities_tracks_position (fresh : RigidBody Real)
    (sphere : Sphere3 Real) (massDensity : Real) (s0 : RigidSphere Real)
    (ops : list (RigidSphereOp Real)) :
  RigidSphere_new fresh sphere massDensity = Ok s0 ->
  let s := RigidSphere_run ops s0 in
  let s' := snd (UpdateWorldQuantities s) in
  fst (UpdateWorldQuantities s) = Ok tt
  /\ fst (sphere_inherited GetPosition s') = Ok (center (mWorldSphere s'))
  /\ fst (GetRadius s') = Ok (radius sphere)
  /\ fst (GetRadius s) = Ok (radius sphere)
  /\ (forall p, fst (GetRadius (snd (sphere_inherited (SetPosition p) s))) = Ok (radius sphere)).
Proof.
  intros Hnew s s'.
  apply RigidSphere_new_Ok in Hnew as (_ & _ & _ & Hworld).
  assert (Hr : radius (mWorldSphere s) = radius sphere).
  { unfold s. rewrite RigidSphere_run_radius, Hworld. reflexivity. }
  repeat split.
  - unfold GetRadius. cbn. now rewrite Hr.
  - unfold GetRadius. cbn. now rewrite Hr.
  - intros p. unfold GetRadius. cbn. now rewrite Hr.
Qed.

End RigidSphereFacts.

(** *** In the reals: the mass and the body inertia of a constructed sphere *)

Lemma ideal_sphere_mass (r massDensity : R) :
  sphere_mass r massDensity = (massDensity * (4 / 3) * PI * r ^ 3)%R.
Proof. unfold sphere_mass. cbn. field. Qed.

Lemma ideal_scale_identity (a : R) : scale_matrix a Identity = diagonal a.
Proof.
  unfold scale_matrix, scale_row, Identity, diagonal, r0, r1. cbn.
  now rewrite Rmult_1_r, Rmult_0_r.
Qed.

Lemma ideal_le_zero (a : R) : r_le a r0 = true <-> (a <= 0)%R.
Proof.
  unfold r_le, r0. cbn. rewrite orb_true_iff, Rltb_true, Reqb_true. lra.
Qed.

Lemma ideal_le_zero_false (a : R) : r_le a r0 = false <-> (0 < a)%R.
Proof.
  unfold r_le, r0. cbn. rewrite orb_false_iff, Rltb_false, Reqb_false. lra.
Qed.

Lemma ideal_diagonal_positive_definite (a : R) :
  is_positive_definite (diagonal a) = true <-> (0 < a)%R.
Proof.
  unfold is_positive_definite, is_symmetric, minor2, determinant, diagonal, r_gt, r0.
  cbn. rewrite !andb_true_iff, !Reqb_true, !Rltb_true. split.
  - intros H. tauto.
  - intros Ha. assert (0 < a * a)%R by nra.
    assert (0 < a * (a * a))%R by nra.
    repeat split; nra.
Qed.

Lemma ideal_mass_positive (r massDensity : R) :
  (0 < r)%R -> (0 < massDensity)%R -> (0 < sphere_mass r massDensity)%R.
Proof.
  intros Hr Hd. rewrite ideal_sphere_mass.
  pose proof PI_RGT_0 as Hpi.
  assert (0 < r ^ 3)%R by (apply pow_lt; exact Hr).
  assert (0 < massDensity * (4 / 3) * PI)%R by nra.
  nra.
Qed.

(** With a positive radius and a positive density the constructor returns a
    sphere. *)
Lemma RigidSphere_new_ideal_succeeds (fresh : RigidBody R) (sphere : Sphere3 R) (massDensity : R) :
  (0 < radius sphere)%R -> (0 < massDensity)%R ->
  exists s, RigidSphere_new fresh sphere massDensity = Ok s.
Proof.
  intros Hr Hd. rewrite RigidSphere_new_spec.
  rewrite (proj2 (ideal_le_zero_false _) (ideal_mass_positive _ _ Hr Hd)).
  rewrite ideal_scale_identity, (proj2 (ideal_diagonal_positive_definite _) Hd).
  eexists. reflexivity.
Qed.

(** A density or a radius that is not positive makes the constructor fail:
    on the mass, or on the body inertia when both are negative. *)
Lemma RigidSphere_new_ideal_fails (fresh : RigidBody R) (sphere : Sphere3 R) (massDensity : R) :
  (massDensity <= 0 \/ radius sphere <= 0)%R ->
  exists e, RigidSphere_new fresh sphere massDensity = Err e.
Proof.
  intros Hbad. rewrite RigidSphere_new_spec.
  destruct (r_le (sphere_mass (radius sphere) massDensity) r0) eqn:Hm; [eexists; reflexivity|].
  apply ideal_le_zero_false in Hm.
  destruct (is_positive_definite (scale_matrix massDensity Identity)) eqn:Hpd;
    [|eexists; reflexivity].
  rewrite ideal_scale_identity in Hpd. apply ideal_diagonal_positive_definite in Hpd.
  rewrite ideal_sphere_mass in Hm. pose proof PI_RGT_0 as Hpi.
  assert (Hr : (radius sphere <= 0)%R) by lra.
  assert (Hr3 : (radius sphere ^ 3 <= 0)%R).
  { replace (radius sphere ^ 3)%R with (- ((- radius sphere) ^ 3))%R by ring.
    assert (0 <= (- radius sphere) ^ 3)%R by (apply pow_le; lra). lra. }
  assert (0 < massDensity * (4 / 3) * PI)%R by nra.
  nra.
Qed.

(** In the idealised arithmetic of the reals the mass is rho (4/3) pi r^3,
    and a sphere is constructed whenever r and rho are positive.  The
    constructor itself works in double, where neither holds for every
    input. *)
Lemma RigidSphere_mass_ideal (fresh : RigidBody R) (sphere : Sphere3 R) (massDensity : R) :
  (forall s, RigidSphere_new fresh sphere massDensity = Ok s ->
             fst (GetMass (sphere_body s))
             = Ok (massDensity * (4 / 3) * PI * radius sphere ^ 3)%R)
  /\ ((0 < radius sphere)%R -> (0 < massDensity)%R ->
      exists s, RigidSphere_new fresh sphere massDensity = Ok s).
Proof.
  split.
  - intros s Hs. apply RigidSphere_new_Ok in Hs as (Hm & _).
    cbn. now rewrite Hm, ideal_sphere_mass.
  - apply RigidSphere_new_ideal_succeeds.
Qed.







(** C6 and C4 on binary64 inputs. *)
Lemma RigidSphere_new_nonpositive_mass_witness :
  RigidSphere_new binary64_fresh (mkSphere3 binary64_origin 1%float) (-1)%float
  = Err (FatalError "Mass must be positive.").
Proof.
  refine (proj1 (RigidSphere_new_nonpositive_mass binary64_fresh
                   (mkSphere3 binary64_origin 1%float) (-1)%float _)).
  reflexivity.
Defined.

Lemma UpdateWorldQuantities_tracks_position_witness :
  let s0 := mkRigidSphere
              (mkRigidBody (sphere_mass 2%float 1%float) (scale_matrix 1%float Identity)
                 (mkVector3 1 2 3)%float (mkQuaternion 0 0 0 1)%float
                 binary64_origin binary64_origin binary64_origin binary64_origin)
              (mkSphere3 (mkVector3 1 2 3)%float 2%float) in
  let s := RigidSphere_run
             [SphereInherited (SetPosition (mkVector3 4 5 6)%float); SphereGetRadius] s0 in
  fst (sphere_inherited GetPosition (snd (UpdateWorldQuantities s)))
  = Ok (mkVector3 4 5 6)%float
  /\ fst (GetRadius (snd (UpdateWorldQuantities s))) = Ok 2%float.
Proof.
  intros s0 s.
  pose proof (UpdateWorldQuantities_tracks_position binary64_fresh
                (mkSphere3 (mkVector3 1 2 3)%float 2%float) 1%float s0
                [SphereInherited (SetPosition (mkVector3 4 5 6)%float); SphereGetRadius]
                eq_refl) as Hw.
  cbn zeta in Hw. fold s0 s in Hw.
  split; [exact (proj1 (proj2 Hw))|exact (proj1 (proj2 (proj2 Hw)))].
Defined.

(** ** Normalize in the reals and in binary64 *)

Lemma ideal_sum_squares_ge (l : list R) (a : R) :
  (a <= fold_left (fun dot x => dot + x * x) l a)%R
  /\ (forall y, In y l -> (a + y * y <= fold_left (fun dot x => dot + x * x) l a)%R).
Proof.
  revert a. induction l as [|x l IH]; intros a; cbn [fold_left].
  - split; [lra|intros y []].
  - destruct (IH (a + x * x)%R) as [Hge Hin]. split.
    + pose proof (Rle_0_sqr x) as Hx. unfold Rsqr in Hx. lra.
    + intros y [<-|Hy]; [exact Hge|].
      specialize (Hin y Hy). pose proof (Rle_0_sqr x) as Hx. unfold Rsqr in Hx. lra.
Qed.

Lemma ideal_max_abs_attained (t : list R) (m : R) :
  let g := fun maxAbsComp y => if Rltb maxAbsComp (Rabs y) then Rabs y else maxAbsComp in
  fold_left g t m = m \/ exists y, In y t /\ fold_left g t m = Rabs y.
Proof.
  intros g. revert m. induction t as [|y t IH]; intros m; cbn [fold_left].
  - now left.
  - destruct (IH (g m y)) as [Hsame | [z [Hz Hmax]]].
    + rewrite Hsame. unfold g. destruct (Rltb m (Rabs y)).
      * right. exists y. split; [now left|reflexivity].
      * now left.
    + right. exists z. split; [now right|exact Hmax].
Qed.

(** In the reals, once the vector is divided by its largest absolute
    component it has a component of absolute value 1, so its length is at
    least 1. *)
Lemma ideal_scaled_length_ge_1 (x : R) (t : list R) :
  (0 < max_abs x t)%R ->
  (1 <= r_sqrt (sum_squares (scaled_tuple (max_abs x t) (x :: t))))%R.
Proof.
  set (m := max_abs x t). intros Hm.
  assert (Hy : exists y, In y (x :: t) /\ m = Rabs y).
  { unfold m, max_abs. cbn [r_fabs r_gt r_lt ideal_ops].
    destruct (ideal_max_abs_attained t (Rabs x)) as [-> | [y [Hy ->]]].
    - exists x. split; [now left|reflexivity].
    - exists y. split; [now right|reflexivity]. }
  destruct Hy as [y [Hy Hmy]].
  assert (Hone : (1 <= sum_squares (scaled_tuple m (x :: t)))%R).
  { unfold sum_squares, r0. cbn [r_add r_mul r_lit ideal_ops].
    destruct (ideal_sum_squares_ge (scaled_tuple m (x :: t)) 0%R) as [_ Hin].
    specialize (Hin (y * (1 / m))%R).
    assert (Hsq : (y * (1 / m) * (y * (1 / m)) = 1)%R).
    { replace (y * (1 / m) * (y * (1 / m)))%R with ((y * y) / (m * m))%R by (field; lra).
      assert (Hyy : (y * y = m * m)%R).
      { rewrite Hmy. unfold Rabs. destruct (Rcase_abs y); ring. }
      rewrite Hyy. field. lra. }
    rewrite Hsq, Rplus_0_l in Hin. apply Hin.
    unfold scaled_tuple. cbn [r_mul r_div r1 r_lit ideal_ops].
    apply (in_map (fun a => (a * (1 / m))%R)) in Hy. exact Hy. }
  cbn [r_sqrt ideal_ops]. rewrite <- sqrt_1 at 1. now apply sqrt_le_1_alt.
Qed.

(** In the reals the robust mode raises no error on a vector that has a
    first component: the second division is by a length of at least 1. *)
Lemma Normalize_robust_ideal_total (x : R) (t : list R) :
  GVector_valid (mkGVector (x :: t)) ->
  exists length v', Normalize true (mkGVector (x :: t)) = (Ok length, v').
Proof.
  intros Hv. rewrite (Normalize_robust x t Hv).
  destruct (r_gt (max_abs x t) r0) eqn:Hgt; [|now eexists; eexists].
  assert (Hm : (0 < max_abs x t)%R) by (apply Rltb_true; exact Hgt).
  pose proof (ideal_scaled_length_ge_1 x t Hm) as Hlen.
  assert (Hne : r_ne (r_sqrt (sum_squares (scaled_tuple (max_abs x t) (x :: t)))) r0 = true).
  { unfold r_ne, r0. cbn [r_eq r_lit ideal_ops]. apply negb_true_iff, Reqb_false. lra. }
  rewrite Hne. now eexists; eexists.
Qed.

(** In the reals, a vector with a first component for which the robust
    Length returns 0 comes back from the robust Normalize as the zero vector
    with length 0. *)
Lemma Normalize_robust_ideal_zero_length (x : R) (t : list R) :
  GVector_valid (mkGVector (x :: t)) ->
  fst (Length (mkGVector (x :: t)) true tt) = Ok 0%R ->
  Normalize true (mkGVector (x :: t)) = (Ok 0%R, mkGVector (zero_tuple (x :: t))).
Proof.
  intros Hv. rewrite (Length_robust x t tt Hv), (Normalize_robust x t Hv). cbn [fst].
  destruct (r_gt (max_abs x t) r0) eqn:Hgt; [|reflexivity].
  assert (Hm : (0 < max_abs x t)%R) by (apply Rltb_true; exact Hgt).
  pose proof (ideal_scaled_length_ge_1 x t Hm) as Hlen.
  set (L := r_sqrt (sum_squares (scaled_tuple (max_abs x t) (x :: t)))) in *.
  intros Hzero. exfalso.
  assert (Hprod : (max_abs x t * L = 0)%R) by (now injection Hzero).
  nra.
Qed.

(** In binary64 the zero that a zero-length vector is set to is a finite
    number, neither a NaN nor an infinity. *)
Lemma binary64_zero_finite :
  PrimFloat.is_nan (r0 : float) = false /\ PrimFloat.is_infinity (r0 : float) = false.
Proof. split; reflexivity. Qed.

(** Binary64 examples: a 3-4-5 vector in the non-robust mode, and the
    smallest subnormal in the robust mode, where [1 / maxAbsComp] overflows. *)
Example Normalize_standard_3_4 :
  fst (Normalize false (mkGVector [3; 4]%float)) = Ok 5%float.
Proof. reflexivity. Qed.

Example Normalize_robust_subnormal :
  Normalize true (mkGVector [0x1p-1074; 0]%float) = (Ok nan, mkGVector [nan; nan]).
Proof. reflexivity. Qed.

(** ** The constructors establish the size invariant *)

Section ConstructorFacts.

Context {Real : Type} `{RealOps Real}.

Lemma std_resize_length (size : nat) (l : list Real) : length (std_resize size l) = size.
Proof.
  unfold std_resize. rewrite length_app, length_firstn, repeat_length. lia.
Qed.

Lemma GVector_sized_valid (size : Z) :
  0 <= size <= INT32_MAX ->
  exists v, GVector_sized size = Ok v
            /\ length (mTuple v) = Z.to_nat size /\ GVector_valid v.
Proof.
  intros Hs. unfold GVector_sized, construct, SetSize.
  destruct (Z.geb_spec size 0); [|lia].
  eexists. split; [reflexivity|]. cbn [mTuple GVector_default].
  unfold GVector_valid. cbn [mTuple]. rewrite std_resize_length. split; lia.
Qed.

(** [Unit(size, d)] is the unit vector of MakeUnit on a tuple of the size
    asked for. *)
Lemma Unit_spec (size d : Z) :
  0 <= size <= INT32_MAX ->
  Unit size d = Ok (mkGVector (unit_tuple (Z.to_nat size) d)).
Proof.
  intros Hs. unfold Unit, construct, bind at 1, SetSize.
  destruct (Z.geb_spec size 0); [|lia].
  unfold bind at 1, get, put. cbn [mTuple GVector_default].
  set (v := mkGVector (std_resize (Z.to_nat size) [])).
  assert (Hv : GVector_valid v).
  { unfold GVector_valid, v. cbn [mTuple]. rewrite std_resize_length. lia. }
  rewrite (MakeUnit_spec v d Hv). unfold v. cbn [mTuple]. now rewrite std_resize_length.
Qed.

End ConstructorFacts.

(** ** The constructor of RigidSphere in binary64 *)

(** The unit sphere of density 1 at (1, 2, 3): the mass is the double nearest
    to the product the constructor forms, the body inertia is the identity,
    and the world sphere is at the position. *)
Example RigidSphere_new_binary64 :
  exists s,
    RigidSphere_new binary64_fresh (mkSphere3 (mkVector3 1 2 3)%float 1%float) 1%float = Ok s
    /\ mass (sphere_body s) = 0x1.0c152382d7365p+2%float
    /\ bodyInertia (sphere_body s) = Identity
    /\ mWorldSphere s = mkSphere3 (mkVector3 1 2 3)%float 1%float.
Proof. eexists. split; [reflexivity|]. cbn. repeat split. Qed.

(** * Further properties of Mathematics/GVector.h *)

(** ** Loops that fill a vector *)

Section WriteLoops.

Context {Real : Type} `{RealOps Real}.

(** A loop of [length seg] rounds whose [k]-th round writes [val k] over the
    [k]-th component of [seg] and takes the local variables from [acc k] to
    [acc (S k)]. *)
Lemma for_iter_write {A : Type} (body : Z -> A -> M (GVector Real) A)
    (seg : list Real) :
  forall (val : nat -> Real) (acc : nat -> A) (pre post : list Real) (lo : Z),
  (forall k pre' x post',
      (k < length seg)%nat -> length pre' = (length pre + k)%nat ->
      body (lo + Z.of_nat k) (acc k) (mkGVector (pre' ++ x :: post'))
      = (Ok (acc (S k)), mkGVector (pre' ++ val k :: post'))) ->
  for_iter (length seg) lo body (acc 0%nat) (mkGVector (pre ++ seg ++ post))
  = (Ok (acc (length seg)), mkGVector (pre ++ map val (seq 0 (length seg)) ++ post)).
Proof.
  induction seg as [|x seg IH]; intros val acc pre post lo Hbody.
  - reflexivity.
  - cbn [length for_iter]. unfold bind at 1.
    pose proof (Hbody 0%nat pre x (seg ++ post)) as H0.
    cbn [Z.of_nat] in H0. rewrite Z.add_0_r, Nat.add_0_r in H0.
    cbn [app]. rewrite H0 by (cbn [length]; lia || reflexivity).
    replace (pre ++ val 0%nat :: seg ++ post) with ((pre ++ [val 0%nat]) ++ seg ++ post)
      by (now rewrite <- app_assoc).
    rewrite (IH (fun k => val (S k)) (fun k => acc (S k))).
    + f_equal. f_equal. rewrite <- app_assoc. cbn [app seq map]. do 2 f_equal.
      now rewrite <- seq_shift, map_map.
    + intros k pre' y post' Hk Hlen.
      replace (lo + 1 + Z.of_nat k) with (lo + Z.of_nat (S k)) by lia.
      apply Hbody; [cbn [length]; lia|].
      rewrite Hlen, length_app. cbn [length]. lia.
Qed.

(** A loop runs its first rounds, then the others. *)
Lemma for_iter_split {St A : Type} (body : Z -> A -> M St A) (a b : nat) :
  forall (lo : Z) (x : A) (s : St),
  for_iter (a + b) lo body x s
  = bind (for_iter a lo body x) (fun x' => for_iter b (lo + Z.of_nat a) body x') s.
Proof.
  induction a as [|a IH]; intros lo x s.
  - cbn. now rewrite Z.add_0_r.
  - cbn [Nat.add for_iter]. unfold bind at 1.
    replace (lo + Z.of_nat (S a)) with (lo + 1 + Z.of_nat a) by lia.
    unfold bind.
    destruct (body lo x s) as [[x'|e] s']; [|reflexivity].
    now rewrite IH.
Qed.

Lemma map_nth_seq (l : list Real) (d : Real) (cnt : nat) :
  (cnt <= length l)%nat ->
  map (fun k => nth k l d) (seq 0 cnt) = firstn cnt l.
Proof.
  revert cnt. induction l as [|a l IH]; intros [|cnt] Hcnt; cbn in Hcnt; try reflexivity; [lia|].
  cbn [seq map nth firstn]. f_equal.
  rewrite <- seq_shift, map_map. cbn [nth]. apply IH. lia.
Qed.

Lemma map_nth_seq_from (l : list Real) (d : Real) (lo cnt : nat) :
  (lo + cnt <= length l)%nat ->
  map (fun k => nth (lo + k) l d) (seq 0 cnt) = firstn cnt (skipn lo l).
Proof.
  intros Hlen. rewrite <- (map_nth_seq (skipn lo l) d) by (rewrite length_skipn; lia).
  apply map_ext. intros k. now rewrite nth_skipn.
Qed.

Lemma copy_components_run (v : GVector Real) (lo cnt : nat) (pre seg post : list Real) :
  length pre = lo -> length seg = cnt -> (lo + cnt <= length (mTuple v))%nat ->
  copy_components v (Z.of_nat lo) (Z.of_nat (lo + cnt)) (mkGVector (pre ++ seg ++ post))
  = (Ok tt, mkGVector (pre ++ firstn cnt (skipn lo (mTuple v)) ++ post)).
Proof.
  intros Hpre Hseg Hlen. unfold copy_components, for_loop.
  replace (Z.to_nat (Z.of_nat (lo + cnt) - Z.of_nat lo)) with (length seg) by lia.
  rewrite (for_iter_write _ seg (fun k => nth (lo + k) (mTuple v) r0) (fun _ => tt)).
  - now rewrite Hseg, map_nth_seq_from.
  - intros k pre' x post' Hk Hlen'. unfold bind, lift.
    replace (Z.of_nat lo + Z.of_nat k) with (Z.of_nat (lo + k)) by lia.
    destruct v as [l]. cbn [mTuple] in *. rewrite elem_nth by lia.
    replace (Z.of_nat (lo + k)) with (Z.of_nat (length pre')) by lia.
    apply store_middle.
Qed.

Lemma split_at_list {A : Type} (l : list A) (n : nat) :
  (n < length l)%nat ->
  exists pre x post, l = pre ++ x :: post /\ length pre = n.
Proof.
  intros Hn.
  destruct (nth_error l n) as [x|] eqn:E.
  - apply nth_error_split in E as (pre & post & -> & Hlen). now exists pre, x, post.
  - apply nth_error_None in E. lia.
Qed.

Lemma firstn_succ_nth {A : Type} (l : list A) (k : nat) (d : A) :
  (k < length l)%nat -> firstn (S k) l = firstn k l ++ [nth k l d].
Proof.
  revert k. induction l as [|a l IH]; intros [|k] Hk; cbn [length] in Hk; try lia.
  - reflexivity.
  - cbn [firstn nth app]. f_equal. apply IH. lia.
Qed.

Lemma SetSize_default (size : nat) :
  Z.of_nat size <= INT32_MAX ->
  SetSize (Z.of_nat size) GVector_default = (Ok tt, mkGVector (repeat (r0 : Real) size)).
Proof.
  intros _. unfold SetSize. destruct (Z.geb_spec (Z.of_nat size) 0); [|lia].
  unfold bind, get, put, GVector_default, std_resize. cbn [mTuple length].
  now rewrite Nat2Z.id, firstn_nil, Nat.sub_0_r.
Qed.

End WriteLoops.

(** ** HLift, HProject, Lift and Project *)

Section LiftProject.

Context {Real : Type} `{RealOps Real}.

Lemma elem_beyond (v : GVector Real) (i : nat) :
  (length (mTuple v) <= i)%nat -> elem v (Z.of_nat i) = Err (OutOfRange (Z.of_nat i)).
Proof.
  intros Hi. unfold elem. destruct (Z.ltb_spec (Z.of_nat i) 0); [lia|].
  rewrite Nat2Z.id. now rewrite (proj2 (nth_error_None _ _) Hi).
Qed.

Lemma int32_add_one (n : nat) :
  Z.of_nat n < INT32_MAX -> int32_add (Z.of_nat n) 1 = Z.of_nat (S n).
Proof.
  intros Hn. unfold int32_add. rewrite cast_int32_fits; unfold INT32_MAX in *; lia.
Qed.

Lemma HLift_run (v : GVector Real) (last : Real) :
  Z.of_nat (length (mTuple v)) < INT32_MAX ->
  HLift v last = Ok (mkGVector (mTuple v ++ [last])).
Proof.
  intros Hn. assert (Hv : GVector_valid v) by (unfold GVector_valid; lia).
  unfold HLift. rewrite (GetSize_valid v Hv), (int32_add_one _ Hn).
  set (n := length (mTuple v)) in *.
  unfold returning, bind. rewrite SetSize_default by lia.
  replace (repeat (r0 : Real) (S n)) with ([] ++ repeat (r0 : Real) n ++ [r0])
    by (cbn [app]; now rewrite <- repeat_cons).
  rewrite (copy_components_run v 0 n [] (repeat r0 n) [r0]);
    [|reflexivity|apply repeat_length|unfold n; lia].
  cbn [app skipn]. unfold n. rewrite firstn_all.
  now rewrite store_middle.
Qed.

Lemma HProject_run (v : GVector Real) :
  GVector_valid v ->
  HProject v = Ok (mkGVector (firstn (length (mTuple v) - 1) (mTuple v))).
Proof.
  intros Hv. unfold HProject. rewrite (GetSize_valid v Hv).
  set (n := length (mTuple v)) in *.
  destruct (Z.gtb_spec (Z.of_nat n) 1) as [Hn|Hn].
  - unfold returning, bind. unfold GVector_valid in Hv. fold n in Hv.
    replace (Z.of_nat n - 1) with (Z.of_nat (n - 1)) by lia.
    rewrite SetSize_default by lia.
    replace (repeat (r0 : Real) (n - 1)) with ([] ++ repeat (r0 : Real) (n - 1) ++ [])
      by (cbn [app]; now rewrite app_nil_r).
    rewrite (copy_components_run v 0 (n - 1) [] (repeat r0 (n - 1)) []);
      [|reflexivity|apply repeat_length|unfold n; lia].
    cbn [app skipn]. now rewrite app_nil_r.
  - destruct (mTuple v) as [|a [|b l]] eqn:Hl; cbn [length] in n; subst n; cbn in Hn; try lia.
    + reflexivity.
    + reflexivity.
Qed.

Lemma Lift_run (v : GVector Real) (inject : Z) (value : Real) :
  Z.of_nat (length (mTuple v)) < INT32_MAX ->
  inject <= Z.of_nat (length (mTuple v)) ->
  Lift v inject value
  = Ok (mkGVector (firstn (Z.to_nat inject) (mTuple v) ++ value
                     :: skipn (Z.to_nat inject) (mTuple v))).
Proof.
  intros Hn Hinj. assert (Hv : GVector_valid v) by (unfold GVector_valid; lia).
  unfold Lift. rewrite (GetSize_valid v Hv), (int32_add_one _ Hn).
  set (n := length (mTuple v)) in *. set (k := Z.to_nat inject).
  assert (Hk : (k <= n)%nat) by lia.
  unfold returning, bind. rewrite SetSize_default by lia.
  replace (repeat (r0 : Real) (S n))
    with ([] ++ repeat (r0 : Real) k ++ r0 :: repeat r0 (n - k)).
  2:{ cbn [app]. replace (S n) with (k + S (n - k))%nat by lia. now rewrite repeat_app. }
  assert (Hcopy : copy_components v 0 inject = copy_components v (Z.of_nat 0) (Z.of_nat (0 + k))).
  { unfold copy_components, for_loop. f_equal. lia. }
  rewrite Hcopy.
  rewrite (copy_components_run v 0 k [] (repeat r0 k) (r0 :: repeat r0 (n - k)));
    [|reflexivity|apply repeat_length|unfold n in Hk; lia].
  cbn [app skipn].
  assert (Hpre : length (firstn k (mTuple v)) = k) by (rewrite length_firstn; unfold n in Hk; lia).
  replace (Z.max 0 inject) with (Z.of_nat (length (firstn k (mTuple v)))) by lia.
  rewrite store_middle. rewrite Hpre.
  unfold for_loop.
  replace (Z.to_nat (Z.of_nat n - Z.of_nat k)) with (length (repeat (r0 : Real) (n - k)))
    by (rewrite repeat_length; lia).
  replace (firstn k (mTuple v) ++ value :: repeat r0 (n - k))
    with ((firstn k (mTuple v) ++ [value]) ++ repeat (r0 : Real) (n - k) ++ [])
    by (now rewrite <- app_assoc, app_nil_r).
  rewrite (for_iter_write _ (repeat r0 (n - k))
             (fun j => nth (k + j) (mTuple v) r0) (fun _ => tt)).
  - rewrite repeat_length, map_nth_seq_from by (unfold n; lia).
    rewrite app_nil_r, <- app_assoc. cbn [app]. do 3 f_equal.
    replace (n - k)%nat with (length (skipn k (mTuple v))) by (rewrite length_skipn; reflexivity).
    f_equal. apply firstn_all.
  - intros j pre' x post' Hj Hlen. rewrite repeat_length in Hj.
    rewrite length_app, Hpre in Hlen. cbn [length] in Hlen.
    unfold bind, lift.
    replace (Z.of_nat k + Z.of_nat j) with (Z.of_nat (k + j)) by lia.
    destruct v as [l]. cbn [mTuple] in *. rewrite elem_nth by (unfold n in *; lia).
    replace (Z.of_nat (k + j) + 1) with (Z.of_nat (length pre')) by lia.
    apply store_middle.
Qed.

Lemma Lift_overrun (v : GVector Real) (inject : Z) (value : Real) :
  Z.of_nat (length (mTuple v)) < INT32_MAX ->
  Z.of_nat (length (mTuple v)) < inject ->
  Lift v inject value = Err (OutOfRange (Z.of_nat (length (mTuple v)))).
Proof.
  intros Hn Hinj. assert (Hv : GVector_valid v) by (unfold GVector_valid; lia).
  unfold Lift. rewrite (GetSize_valid v Hv), (int32_add_one _ Hn).
  set (n := length (mTuple v)) in *.
  unfold returning, bind at 1. rewrite SetSize_default by lia.
  unfold bind at 1. unfold copy_components, for_loop.
  replace (Z.to_nat (inject - 0)) with (n + S (Z.to_nat inject - S n))%nat by lia.
  rewrite for_iter_split. unfold bind at 1.
  replace (repeat (r0 : Real) (S n)) with ([] ++ repeat (r0 : Real) n ++ [r0])
    by (cbn [app]; now rewrite <- repeat_cons).
  pose proof (copy_components_run v 0 n [] (repeat r0 n) [r0] eq_refl
                (repeat_length _ _) (Nat.le_refl _)) as Hcopy.
  unfold copy_components, for_loop in Hcopy.
  replace (Z.to_nat (Z.of_nat (0 + n) - Z.of_nat 0)) with n in Hcopy by lia.
  cbn [Z.of_nat] in Hcopy. rewrite Hcopy.
  cbn [for_iter]. unfold bind, lift. cbn [Z.add].
  now rewrite (elem_beyond v n (Nat.le_refl _)).
Qed.

Lemma project_map (d : Real) (l : list Real) :
  forall r : nat, (r < length l)%nat ->
  map (fun k => nth (if (r <=? k)%nat then S k else k) l d) (seq 0 (length l - 1))
  = firstn r l ++ skipn (S r) l.
Proof.
  induction l as [|a l IH]; intros r Hr; cbn [length] in *; [lia|].
  rewrite Nat.sub_succ, Nat.sub_0_r.
  destruct r as [|r].
  - cbn [firstn skipn app Nat.leb nth].
    rewrite (map_nth_seq l d (length l) (Nat.le_refl _)). now rewrite firstn_all.
  - rewrite firstn_cons, skipn_cons. cbn [app].
    rewrite <- (IH r) by lia.
    replace (length l) with (S (length l - 1)) at 1 by lia.
    cbn [seq map Nat.leb nth]. f_equal.
    rewrite <- seq_shift, map_map.
    apply map_ext. intros k. cbn [Nat.leb]. now destruct (r <=? k)%nat.
Qed.

Lemma Project_run (v : GVector Real) (reject : Z) :
  GVector_valid v -> (2 <= length (mTuple v))%nat ->
  Project v reject
  = Ok (mkGVector
          (if (0 <=? reject) && (reject <? Z.of_nat (length (mTuple v)))
           then firstn (Z.to_nat reject) (mTuple v) ++ skipn (S (Z.to_nat reject)) (mTuple v)
           else firstn (length (mTuple v) - 1) (mTuple v))).
Proof.
  intros Hv Hn. unfold Project. rewrite (GetSize_valid v Hv).
  set (n := length (mTuple v)) in *. unfold GVector_valid in Hv. fold n in Hv.
  destruct (Z.gtb_spec (Z.of_nat n) 1) as [_|Hn']; [|lia].
  unfold returning, bind at 1.
  replace (Z.of_nat n - 1) with (Z.of_nat (n - 1)) by lia.
  rewrite SetSize_default by lia.
  unfold bind at 1. unfold for_loop.
  replace (Z.to_nat (Z.of_nat (n - 1) - 0)) with (length (repeat (r0 : Real) (n - 1)))
    by (rewrite repeat_length; lia).
  replace (repeat (r0 : Real) (n - 1)) with ([] ++ repeat (r0 : Real) (n - 1) ++ []) at 2
    by (cbn [app]; now rewrite app_nil_r).
  set (skips := fun k : nat => (0 <=? reject) && (reject <=? Z.of_nat k)).
  set (next := fun k : nat =>
                 Z.of_nat k + (if (0 <=? reject) && (reject <? Z.of_nat k) then 1 else 0)).
  assert (Hnext0 : next 0%nat = 0).
  { unfold next. cbn [Z.of_nat].
    destruct (Z.leb_spec 0 reject), (Z.ltb_spec reject 0); cbn [andb]; lia. }
  match goal with
  | |- context [for_iter ?cnt 0 ?b 0 ?st] =>
      replace (for_iter cnt 0 b 0 st) with (for_iter cnt 0 b (next 0%nat) st)
        by (now rewrite Hnext0)
  end.
  rewrite (for_iter_write _ (repeat r0 (n - 1))
             (fun k => nth (if skips k then S k else k) (mTuple v) r0) next).
  - unfold ret. cbn [app]. rewrite app_nil_r, repeat_length. do 2 f_equal.
    destruct (Z.leb_spec 0 reject) as [H0|H0]; cbn [andb].
    + destruct (Z.ltb_spec reject (Z.of_nat n)) as [Hr|Hr].
      * rewrite <- (project_map r0 (mTuple v) (Z.to_nat reject)) by (fold n; lia).
        fold n. apply map_ext. intros k. unfold skips.
        destruct (Z.leb_spec 0 reject); [|lia]. cbn [andb].
        destruct (Z.leb_spec reject (Z.of_nat k)), (Nat.leb_spec (Z.to_nat reject) k);
          try reflexivity; lia.
      * rewrite <- (map_nth_seq (mTuple v) r0 (n - 1)) by (fold n; lia).
        apply map_ext_in. intros k Hk. apply in_seq in Hk. unfold skips.
        destruct (Z.leb_spec 0 reject); [|lia]. cbn [andb].
        destruct (Z.leb_spec reject (Z.of_nat k)); [lia|reflexivity].
    + rewrite <- (map_nth_seq (mTuple v) r0 (n - 1)) by (fold n; lia).
      apply map_ext. intros k. unfold skips.
      destruct (Z.leb_spec 0 reject); [lia|reflexivity].
  - intros k pre' x post' Hk Hlen. rewrite repeat_length in Hk. cbn [length] in Hlen.
    cbn [Z.add]. unfold bind, lift, ret.
    set (j := next k).
    assert (Hj : (if j =? reject then j + 1 else j)
                 = Z.of_nat (if skips k then S k else k)).
    { unfold j, next, skips.
      destruct (Z.leb_spec 0 reject); cbn [andb];
        [destruct (Z.ltb_spec reject (Z.of_nat k)), (Z.leb_spec reject (Z.of_nat k))|];
        match goal with |- context [?a =? ?b] => destruct (Z.eqb_spec a b) end; lia. }
    rewrite Hj.
    assert (Hidx : ((if skips k then S k else k) < n)%nat) by (destruct (skips k); lia).
    destruct v as [l]. cbn [mTuple] in *. rewrite elem_nth by (fold n; exact Hidx).
    replace (Z.of_nat k) with (Z.of_nat (length pre')) at 1 by lia.
    rewrite store_middle. do 2 f_equal.
    unfold next, skips.
    destruct (Z.leb_spec 0 reject); cbn [andb];
      [destruct (Z.ltb_spec reject (Z.of_nat (S k))), (Z.leb_spec reject (Z.of_nat k))|]; lia.
Qed.

End LiftProject.

Section LiftProjectProperties.

Context {Real : Type} `{RealOps Real}.

(** X1.  HProject undoes HLift: lifting a vector by a last component and
    projecting the result gives the vector back, the empty vector included. *)
Theorem HProject_HLift (v : GVector Real) (last : Real) :
  Z.of_nat (length (mTuple v)) < INT32_MAX ->
  exists w, HLift v last = Ok w
            /\ length (mTuple w) = S (length (mTuple v))
            /\ HProject w = Ok v.
Proof.
  intros Hn. exists (mkGVector (mTuple v ++ [last])).
  split; [now apply HLift_run|]. cbn [mTuple]. rewrite length_app. cbn [length].
  split; [lia|].
  rewrite HProject_run by (unfold GVector_valid; cbn [mTuple]; rewrite length_app; cbn [length]; lia).
  cbn [mTuple]. rewrite length_app. cbn [length].
  replace (length (mTuple v) + 1 - 1)%nat with (length (mTuple v) + 0)%nat by lia.
  rewrite firstn_app_2. cbn [firstn]. rewrite app_nil_r. now destruct v.
Qed.

(** X2.  Project undoes Lift: injecting a value at an index from 0 to the
    size and rejecting the component at that index gives the vector back. *)
Theorem Project_Lift (v : GVector Real) (inject : Z) (value : Real) :
  Z.of_nat (length (mTuple v)) < INT32_MAX ->
  0 <= inject <= Z.of_nat (length (mTuple v)) ->
  exists w, Lift v inject value = Ok w
            /\ nth_error (mTuple w) (Z.to_nat inject) = Some value
            /\ Project w inject = Ok v.
Proof.
  intros Hn Hinj. set (k := Z.to_nat inject).
  exists (mkGVector (firstn k (mTuple v) ++ value :: skipn k (mTuple v))).
  assert (Hpre : length (firstn k (mTuple v)) = k) by (rewrite length_firstn; lia).
  split; [apply Lift_run; lia|]. cbn [mTuple]. split.
  { rewrite nth_error_app2 by lia. now rewrite Hpre, Nat.sub_diag. }
  set (w := firstn k (mTuple v) ++ value :: skipn k (mTuple v)).
  assert (Hw : length w = S (length (mTuple v))).
  { unfold w. rewrite length_app. cbn [length]. rewrite Hpre, length_skipn. lia. }
  destruct (mTuple v) as [|a l] eqn:Hl.
  - (* the lifted vector has one component: Project returns the empty vector *)
    destruct v as [l0]. cbn [mTuple] in Hl. subst l0. unfold w.
    rewrite firstn_nil, skipn_nil. reflexivity.
  - rewrite Project_run; cbn [mTuple];
      [|unfold GVector_valid; cbn [mTuple]; lia|rewrite Hw; cbn [length]; lia].
    rewrite Hw.
    destruct (Z.leb_spec 0 inject); [|lia].
    destruct (Z.ltb_spec inject (Z.of_nat (S (length (a :: l))))); [|lia].
    cbn [andb]. fold k. unfold w.
    rewrite <- Hpre at 1.
    replace (firstn (length (firstn k (a :: l)))
               (firstn k (a :: l) ++ value :: skipn k (a :: l)))
      with (firstn k (a :: l)).
    2:{ rewrite firstn_app, Nat.sub_diag, firstn_all. cbn [firstn]. now rewrite app_nil_r. }
    replace (skipn (S k) (firstn k (a :: l) ++ value :: skipn k (a :: l)))
      with (skipn k (a :: l)).
    2:{ rewrite skipn_app, Hpre.
        rewrite (skipn_all2 (firstn k (a :: l))) by lia.
        replace (S k - k)%nat with 1%nat by lia. reflexivity. }
    rewrite firstn_skipn. destruct v as [l0]. cbn [mTuple] in Hl. now subst l0.
Qed.

(** X3.  Lift(v, inject, value) returns the components of v before the index,
    then the value, then the others; a negative index acts as 0; the index
    equal to the size is HLift; an index above the size makes Lift read
    v[size], outside the tuple. *)
Theorem Lift_inserts (v : GVector Real) (inject : Z) (value : Real) :
  Z.of_nat (length (mTuple v)) < INT32_MAX ->
  let n := length (mTuple v) in
  (inject <= Z.of_nat n ->
   Lift v inject value
   = Ok (mkGVector (firstn (Z.to_nat inject) (mTuple v) ++ value
                      :: skipn (Z.to_nat inject) (mTuple v))))
  /\ (inject <= 0 -> Lift v inject value = Ok (mkGVector (value :: mTuple v)))
  /\ Lift v (Z.of_nat n) value = HLift v value
  /\ (Z.of_nat n < inject -> Lift v inject value = Err (OutOfRange (Z.of_nat n))).
Proof.
  intros Hn n. repeat split.
  - intros Hinj. now apply Lift_run.
  - intros Hinj. rewrite Lift_run by lia.
    replace (Z.to_nat inject) with 0%nat by lia. reflexivity.
  - rewrite Lift_run, HLift_run by (fold n; lia).
    rewrite Nat2Z.id. unfold n. now rewrite firstn_all, skipn_all.
  - intros Hinj. now apply Lift_overrun.
Qed.

(** X4.  On a vector of size n >= 2, Project(v, reject) returns v without
    the component at the index reject; for a reject that is no index of v
    it returns v without its last component, which is what HProject returns.
    On a vector of size 0 or 1 it returns the empty vector. *)
Theorem Project_rejects (v : GVector Real) (reject : Z) :
  GVector_valid v ->
  let n := length (mTuple v) in
  ((2 <= n)%nat -> 0 <= reject < Z.of_nat n ->
   Project v reject
   = Ok (mkGVector (firstn (Z.to_nat reject) (mTuple v)
                      ++ skipn (S (Z.to_nat reject)) (mTuple v))))
  /\ (~ (0 <= reject < Z.of_nat n) -> Project v reject = HProject v)
  /\ ((n <= 1)%nat -> Project v reject = Ok (mkGVector [])).
Proof.
  intros Hv n. repeat split.
  - intros Hn Hr. rewrite Project_run by assumption. fold n.
    destruct (Z.leb_spec 0 reject), (Z.ltb_spec reject (Z.of_nat n)); cbn [andb]; try lia.
    reflexivity.
  - intros Hr. destruct (Nat.le_gt_cases 2 n) as [Hn|Hn].
    + rewrite Project_run, HProject_run by assumption. fold n.
      destruct (Z.leb_spec 0 reject), (Z.ltb_spec reject (Z.of_nat n)); cbn [andb];
        try reflexivity; lia.
    + unfold Project, HProject. rewrite (GetSize_valid v Hv). fold n.
      destruct (Z.gtb_spec (Z.of_nat n) 1); [lia|reflexivity].
  - intros Hn. unfold Project. rewrite (GetSize_valid v Hv). fold n.
    destruct (Z.gtb_spec (Z.of_nat n) 1); [lia|reflexivity].
Qed.

End LiftProjectProperties.

Lemma HProject_HLift_witness :
  exists w, HLift (mkGVector [3; 4]%float) 9%float = Ok w
            /\ length (mTuple w) = 3%nat
            /\ HProject w = Ok (mkGVector [3; 4]%float).
Proof.
  apply (HProject_HLift (mkGVector [3; 4]%float) 9%float).
  unfold INT32_MAX; cbn; lia.
Defined.

Lemma Project_Lift_witness :
  exists w, Lift (mkGVector [3; 4; 5]%float) 1 9%float = Ok w
            /\ nth_error (mTuple w) 1 = Some 9%float
            /\ Project w 1 = Ok (mkGVector [3; 4; 5]%float).
Proof.
  apply (Project_Lift (mkGVector [3; 4; 5]%float) 1 9%float).
  - unfold INT32_MAX; cbn; lia.
  - cbn; lia.
Defined.

Lemma Lift_inserts_witness :
  Lift (mkGVector [3; 4; 5]%float) 4 9%float = Err (OutOfRange 3).
Proof.
  refine (proj2 (proj2 (proj2 (Lift_inserts (mkGVector [3; 4; 5]%float) 4 9%float _))) _).
  - unfold INT32_MAX; cbn; lia.
  - cbn; lia.
Defined.

Lemma Project_rejects_witness :
  Project (mkGVector [3; 4; 5]%float) 7 = HProject (mkGVector [3; 4; 5]%float).
Proof.
  refine (proj1 (proj2 (Project_rejects (mkGVector [3; 4; 5]%float) 7 _)) _).
  - unfold GVector_valid, INT32_MAX; cbn; lia.
  - cbn; lia.
Defined.

(** ** The arithmetic operators *)

Section OperatorFacts.

Context {Real : Type} `{RealOps Real}.

Lemma zip_tuples_length (f : Real -> Real -> Real) (l0 l1 : list Real) :
  length l0 = length l1 -> length (zip_tuples f l0 l1) = length l0.
Proof.
  intros Hlen. unfold zip_tuples. rewrite length_map, length_combine. lia.
Qed.

Lemma mapi_zip_tuples (f : Real -> Real -> Real) (l0 : list Real) :
  forall l1 pre1 : list Real,
  length l0 = length l1 ->
  mapi (fun k x => f x (nth k (pre1 ++ l1) r0)) (length pre1) l0 = zip_tuples f l0 l1.
Proof.
  induction l0 as [|a l0 IH]; intros [|b l1] pre1 Hlen; try discriminate; [reflexivity|].
  unfold zip_tuples. cbn [mapi combine map fst snd].
  rewrite app_nth2, Nat.sub_diag by lia. cbn [nth]. f_equal.
  specialize (IH l1 (pre1 ++ [b])).
  rewrite length_app, <- app_assoc in IH. cbn in IH.
  rewrite Nat.add_1_r in IH. apply IH. now injection Hlen.
Qed.

(** The loop of [operator+=] and of [operator-=]. *)
Lemma zip_loop (f : Real -> Real -> Real) (l0 l1 : list Real) :
  length l0 = length l1 ->
  for_loop 0 (Z.of_nat (length l0))
    (fun i _ => a <- load i ;; b <- lift (elem (mkGVector l1) i) ;; store i (f a b)) tt
    (mkGVector l0)
  = (Ok tt, mkGVector (zip_tuples f l0 l1)).
Proof.
  intros Hlen. unfold for_loop. rewrite Z.sub_0_r, Nat2Z.id.
  rewrite (for_iter_pointwise _ (fun k x => f x (nth k l1 r0)) l0 []).
  - cbn [app length]. now rewrite <- (mapi_zip_tuples f l0 l1 [] Hlen).
  - intros pre x post Hpre. cbn [length] in Hpre.
    unfold bind, load, lift. rewrite elem_middle, elem_nth by lia.
    apply store_middle.
Qed.

Lemma op_add_assign_run (v0 v1 : GVector Real) :
  GVector_valid v0 -> GVector_valid v1 -> length (mTuple v0) = length (mTuple v1) ->
  op_add_assign v1 v0 = (Ok tt, mkGVector (zip_tuples r_add (mTuple v0) (mTuple v1))).
Proof.
  intros Hv0 Hv1 Hlen. unfold op_add_assign, bind, get.
  rewrite (GetSize_valid v0 Hv0), (GetSize_valid v1 Hv1), Hlen, Z.eqb_refl, <- Hlen.
  destruct v0 as [l0], v1 as [l1]. cbn [mTuple] in *. now apply zip_loop.
Qed.

Lemma op_sub_assign_run (v0 v1 : GVector Real) :
  GVector_valid v0 -> GVector_valid v1 -> length (mTuple v0) = length (mTuple v1) ->
  op_sub_assign v1 v0 = (Ok tt, mkGVector (zip_tuples r_sub (mTuple v0) (mTuple v1))).
Proof.
  intros Hv0 Hv1 Hlen. unfold op_sub_assign, bind, get.
  rewrite (GetSize_valid v0 Hv0), (GetSize_valid v1 Hv1), Hlen, Z.eqb_refl, <- Hlen.
  destruct v0 as [l0], v1 as [l1]. cbn [mTuple] in *. now apply zip_loop.
Qed.

Lemma op_mul_assign_run (scalar : Real) (v : GVector Real) :
  GVector_valid v ->
  op_mul_assign scalar v
  = (Ok tt, mkGVector (map (fun a => (a * scalar)%gte) (mTuple v))).
Proof.
  intros Hv. unfold op_mul_assign, bind, get.
  rewrite (GetSize_valid v Hv). destruct v as [l]. cbn [mTuple].
  unfold for_loop. rewrite Z.sub_0_r, Nat2Z.id.
  rewrite (for_iter_pointwise _ (fun _ a => (a * scalar)%gte) l []).
  - cbn [app length]. now rewrite (mapi_const _ (fun a => (a * scalar)%gte)).
  - intros pre x post _. unfold bind, load. rewrite elem_middle. apply store_middle.
Qed.

(** X5.  operator-= is atomic on error, as operator+= is: on two GVectors of
    equal size v0 becomes the componentwise difference; on two of different
    sizes the error "Mismatched sizes." is raised and v0 is as it was. *)
Theorem op_sub_assign_atomic (v0 v1 : GVector Real) :
  GVector_valid v0 -> GVector_valid v1 ->
  (length (mTuple v0) = length (mTuple v1) ->
   op_sub_assign v1 v0 = (Ok tt, mkGVector (zip_tuples r_sub (mTuple v0) (mTuple v1))))
  /\ (length (mTuple v0) <> length (mTuple v1) ->
      op_sub_assign v1 v0 = (Err (LogError "Mismatched sizes."), v0)).
Proof.
  intros Hv0 Hv1. split; intros Hlen.
  - now apply op_sub_assign_run.
  - unfold op_sub_assign, bind, get.
    rewrite (GetSize_valid v0 Hv0), (GetSize_valid v1 Hv1).
    destruct (Z.eqb_spec (Z.of_nat (length (mTuple v0))) (Z.of_nat (length (mTuple v1))));
      [lia|reflexivity].
Qed.

(** X6.  operator/= refuses a scalar that compares equal to zero with the
    error "Division by zero." and leaves v as it was; for any other scalar
    it multiplies every component by the reciprocal 1/scalar (it does not
    divide the components), and operator* multiplies every component. *)
Theorem op_div_assign_guarded (scalar : Real) (v : GVector Real) :
  GVector_valid v ->
  (r_ne scalar r0 = false ->
   op_div_assign scalar v = (Err (LogError "Division by zero."), v)
   /\ op_quot v scalar = Err (LogError "Division by zero."))
  /\ (r_ne scalar r0 = true ->
      op_div_assign scalar v
      = (Ok tt, mkGVector (map (fun a => (a * (r1 / scalar))%gte) (mTuple v)))
      /\ op_quot v scalar
         = Ok (mkGVector (map (fun a => (a * (r1 / scalar))%gte) (mTuple v))))
  /\ op_mul v scalar = Ok (mkGVector (map (fun a => (a * scalar)%gte) (mTuple v))).
Proof.
  intros Hv. split; [|split].
  - intros Hz. unfold op_quot, returning. now rewrite op_div_assign_zero.
  - intros Hnz. unfold op_quot, returning.
    now rewrite op_div_assign_nonzero.
  - unfold op_mul, returning. now rewrite op_mul_assign_run.
Qed.

End OperatorFacts.

Lemma op_sub_assign_atomic_witness :
  op_sub_assign (mkGVector [1; 2]%float) (mkGVector [5; 6]%float)
  = (Ok tt, mkGVector [4; 4]%float).
Proof.
  refine (proj1 (op_sub_assign_atomic (mkGVector [5; 6]%float) (mkGVector [1; 2]%float) _ _) _).
  - unfold GVector_valid, INT32_MAX; cbn; lia.
  - unfold GVector_valid, INT32_MAX; cbn; lia.
  - reflexivity.
Defined.

Lemma op_div_assign_guarded_witness :
  op_div_assign (-0)%float (mkGVector [3; 4]%float)
  = (Err (LogError "Division by zero."), mkGVector [3; 4]%float)
  /\ op_quot (mkGVector [3; 4]%float) (-0)%float = Err (LogError "Division by zero.").
Proof.
  refine (proj1 (op_div_assign_guarded (-0)%float (mkGVector [3; 4]%float) _) _).
  - unfold GVector_valid, INT32_MAX; cbn; lia.
  - reflexivity.
Defined.

(** *** In the reals: sums, differences and multiples undo each other *)

Lemma ideal_zip_add_sub (l0 l1 : list R) :
  length l0 = length l1 ->
  zip_tuples r_sub (zip_tuples r_add l0 l1) l1 = l0.
Proof.
  revert l1. induction l0 as [|a l0 IH]; intros [|b l1] Hlen; try discriminate; [reflexivity|].
  unfold zip_tuples in *. cbn [combine map fst snd r_add r_sub ideal_ops].
  f_equal; [ring|]. apply IH. now injection Hlen.
Qed.

(** X7.  In real arithmetic, on GVectors of equal size, (v0 + v1) - v1 is
    v0; and for a scalar that is not zero (v * scalar) / scalar is v. *)
Theorem ideal_operators_undo (v0 v1 : GVector R) (scalar : R) :
  GVector_valid v0 -> GVector_valid v1 ->
  (length (mTuple v0) = length (mTuple v1) ->
   exists w, op_add v0 v1 = Ok w /\ op_sub w v1 = Ok v0)
  /\ (scalar <> 0%R ->
      exists w, op_mul v0 scalar = Ok w /\ op_quot w scalar = Ok v0).
Proof.
  intros Hv0 Hv1. split.
  - intros Hlen. exists (mkGVector (zip_tuples r_add (mTuple v0) (mTuple v1))).
    unfold op_add, op_sub, returning.
    rewrite op_add_assign_run by assumption. split; [reflexivity|].
    rewrite op_sub_assign_run; cbn [mTuple].
    + rewrite ideal_zip_add_sub by assumption. now destruct v0.
    + unfold GVector_valid. cbn [mTuple]. rewrite zip_tuples_length by assumption. exact Hv0.
    + exact Hv1.
    + now rewrite zip_tuples_length.
  - intros Hs. exists (mkGVector (map (fun a => (a * scalar)%R) (mTuple v0))).
    unfold op_mul, op_quot, returning.
    rewrite op_mul_assign_run by assumption. split; [reflexivity|].
    rewrite op_div_assign_nonzero.
    + cbn [mTuple]. unfold scaled_tuple. rewrite map_map.
      rewrite (map_ext _ (fun a => a)); [rewrite map_id; now destruct v0|].
      intros a. unfold r1. cbn [r_mul r_div r_lit ideal_ops]. field. exact Hs.
    + unfold GVector_valid. cbn [mTuple]. rewrite length_map. exact Hv0.
    + unfold r_ne, r0. cbn [r_eq r_lit ideal_ops]. now apply negb_true_iff, Reqb_false.
Qed.

Lemma ideal_operators_undo_witness :
  exists w, op_add (mkGVector [1; 2]%R) (mkGVector [3; 5]%R) = Ok w
            /\ op_sub w (mkGVector [3; 5]%R) = Ok (mkGVector [1; 2]%R).
Proof.
  refine (proj1 (ideal_operators_undo (mkGVector [1; 2]%R) (mkGVector [3; 5]%R) 1%R _ _) _).
  - unfold GVector_valid, INT32_MAX; cbn; lia.
  - unfold GVector_valid, INT32_MAX; cbn; lia.
  - reflexivity.
Defined.

(** ** Dot and Length *)

Lemma binary64_mul_comm (x y : float) : PrimFloat.mul x y = PrimFloat.mul y x.
Proof.
  apply Prim2SF_inj. rewrite !FloatAxioms.mul_spec. unfold SF64mul.
  destruct (Prim2SF x) as [sx|sx| |sx mx ex], (Prim2SF y) as [sy|sy| |sy my ey];
    cbn; try reflexivity; rewrite ?(xorb_comm sx sy); try reflexivity.
  now rewrite (Pos.mul_comm mx my), (Z.add_comm ex ey).
Qed.

Section DotFacts.

Context {Real : Type} `{RealOps Real}.

Lemma fold_seq_nth2 (l0 : list Real) :
  forall (l1 pre0 pre1 : list Real) (a : Real),
  length l0 = length l1 -> length pre0 = length pre1 ->
  fold_left (fun dot k => (dot + nth k (pre0 ++ l0) r0 * nth k (pre1 ++ l1) r0)%gte)
            (seq (length pre0) (length l0)) a
  = fold_left (fun dot ab => (dot + fst ab * snd ab)%gte) (combine l0 l1) a.
Proof.
  induction l0 as [|x l0 IH]; intros [|y l1] pre0 pre1 a Hlen Hpre; try discriminate;
    [reflexivity|].
  cbn [length seq fold_left combine fst snd].
  rewrite (app_nth2 pre0), (app_nth2 pre1), Hpre, !Nat.sub_diag by lia. cbn [nth].
  specialize (IH l1 (pre0 ++ [x]) (pre1 ++ [y]) (a + x * y)%gte).
  rewrite !length_app, <- !app_assoc in IH. cbn in IH.
  rewrite Nat.add_1_r in IH. rewrite <- Hpre. apply IH; [now injection Hlen|lia].
Qed.

Lemma Dot_run {St : Type} (v0 v1 : GVector Real) (s : St) :
  GVector_valid v0 -> GVector_valid v1 -> length (mTuple v0) = length (mTuple v1) ->
  Dot v0 v1 s = (Ok (dot_tuples (mTuple v0) (mTuple v1)), s).
Proof.
  intros Hv0 Hv1 Hlen. unfold Dot.
  rewrite (GetSize_valid v0 Hv0), (GetSize_valid v1 Hv1), Hlen, Z.eqb_refl, <- Hlen.
  destruct v0 as [l0], v1 as [l1]. cbn [mTuple] in *.
  unfold for_loop. rewrite Z.sub_0_r, Nat2Z.id.
  rewrite (for_iter_fold _ (fun dot k => (dot + nth k l0 r0 * nth k l1 r0)%gte) (length l0) 0).
  - unfold dot_tuples. now rewrite <- (fold_seq_nth2 l0 l1 [] [] r0 Hlen eq_refl).
  - intros k a Hk. unfold bind, lift, ret. now rewrite !elem_nth by lia.
Qed.

Lemma Dot_mismatch {St : Type} (v0 v1 : GVector Real) (s : St) :
  GVector_valid v0 -> GVector_valid v1 -> length (mTuple v0) <> length (mTuple v1) ->
  Dot v0 v1 s = (Err (LogError "Mismatched sizes."), s).
Proof.
  intros Hv0 Hv1 Hlen. unfold Dot.
  rewrite (GetSize_valid v0 Hv0), (GetSize_valid v1 Hv1).
  destruct (Z.eqb_spec (Z.of_nat (length (mTuple v0))) (Z.of_nat (length (mTuple v1))));
    [lia|reflexivity].
Qed.

Lemma dot_tuples_comm (l0 : list Real) :
  (forall a b : Real, (a * b)%gte = (b * a)%gte) ->
  forall (l1 : list Real) (a : Real),
  fold_left (fun dot ab => (dot + fst ab * snd ab)%gte) (combine l0 l1) a
  = fold_left (fun dot ab => (dot + fst ab * snd ab)%gte) (combine l1 l0) a.
Proof.
  intros Hcomm. induction l0 as [|x l0 IH]; intros [|y l1] a; try reflexivity.
  cbn [combine fold_left fst snd]. now rewrite (Hcomm x y), IH.
Qed.

(** X8.  Dot is symmetric when the scalar product is commutative: on two
    GVectors of equal size both orders return the same sum of products (the
    products added from the first component on), and on two of different
    sizes both raise "Mismatched sizes.". *)
Theorem Dot_symmetric {St : Type} (v0 v1 : GVector Real) (s : St) :
  (forall a b : Real, (a * b)%gte = (b * a)%gte) ->
  GVector_valid v0 -> GVector_valid v1 ->
  Dot v0 v1 s = Dot v1 v0 s
  /\ (length (mTuple v0) = length (mTuple v1) ->
      Dot v0 v1 s = (Ok (dot_tuples (mTuple v0) (mTuple v1)), s))
  /\ (length (mTuple v0) <> length (mTuple v1) ->
      Dot v0 v1 s = (Err (LogError "Mismatched sizes."), s)).
Proof.
  intros Hcomm Hv0 Hv1. split; [|split].
  - destruct (Nat.eq_dec (length (mTuple v0)) (length (mTuple v1))) as [Hlen|Hlen].
    + rewrite (Dot_run v0 v1 s Hv0 Hv1 Hlen), (Dot_run v1 v0 s Hv1 Hv0 (eq_sym Hlen)).
      unfold dot_tuples. now rewrite (dot_tuples_comm _ Hcomm).
    + rewrite (Dot_mismatch v0 v1 s Hv0 Hv1 Hlen).
      now rewrite (Dot_mismatch v1 v0 s Hv1 Hv0 (fun E => Hlen (eq_sym E))).
  - now apply Dot_run.
  - now apply Dot_mismatch.
Qed.

(** X9.  Normalize returns the length that Length returns: whenever
    Normalize(v, robust) returns a length, Length(v, robust) returns that
    same length, in both modes (the scalar product being commutative); and
    in the non-robust mode Normalize always returns. *)
Theorem Normalize_returns_Length `{!RealLaws Real} (v : GVector Real) (robust : bool)
    (length : Real) :
  (forall a b : Real, (a * b)%gte = (b * a)%gte) ->
  GVector_valid v ->
  (fst (Normalize robust v) = Ok length -> fst (Length v robust tt) = Ok length)
  /\ fst (Normalize false v) = fst (Length v false tt).
Proof.
  intros Hcomm Hv.
  assert (Hstd : fst (Normalize false v) = fst (Length v false tt)).
  { rewrite (Normalize_standard v Hv), (Length_standard v tt Hv). reflexivity. }
  split; [|exact Hstd].
  destruct robust; [|now rewrite Hstd].
  destruct v as [[|x t]].
  - cbn. discriminate.
  - rewrite (Normalize_robust x t Hv), (Length_robust x t tt Hv). cbn [fst].
    destruct (r_gt (max_abs x t) r0); [|trivial].
    destruct (r_ne _ r0); cbn [fst]; [|discriminate].
    intros [= <-]. now rewrite Hcomm.
Qed.

End DotFacts.

Lemma Dot_symmetric_witness :
  Dot (mkGVector [1; 2]%float) (mkGVector [3; 4]%float) tt
  = Dot (mkGVector [3; 4]%float) (mkGVector [1; 2]%float) tt.
Proof.
  refine (proj1 (Dot_symmetric (mkGVector [1; 2]%float) (mkGVector [3; 4]%float) tt _ _ _)).
  - exact binary64_mul_comm.
  - unfold GVector_valid, INT32_MAX; cbn; lia.
  - unfold GVector_valid, INT32_MAX; cbn; lia.
Defined.

Lemma Normalize_returns_Length_witness :
  fst (Length (mkGVector [3; 4]%float) true tt) = Ok 5%float.
Proof.
  refine (proj1 (Normalize_returns_Length (mkGVector [3; 4]%float) true 5%float _ _) _).
  - exact binary64_mul_comm.
  - unfold GVector_valid, INT32_MAX; cbn; lia.
  - reflexivity.
Defined.

(** ** Normalize in the reals: unit length, and the two modes agree *)

Lemma ideal_sum_squares_scaled (c : R) (l : list R) :
  forall a : R,
  fold_left (fun dot x => dot + x * x)%R (map (fun x => x * c)%R l) (c * c * a)%R
  = (c * c * fold_left (fun dot x => dot + x * x)%R l a)%R.
Proof.
  induction l as [|x l IH]; intros a; cbn [map fold_left]; [reflexivity|].
  rewrite <- IH. f_equal. ring.
Qed.

Lemma ideal_sum_squares_scaled_tuple (s : R) (l : list R) :
  sum_squares (scaled_tuple s l) = (1 / s * (1 / s) * sum_squares l)%R.
Proof.
  unfold sum_squares, scaled_tuple, r0, r1. cbn [r_add r_mul r_div r_lit ideal_ops].
  rewrite <- ideal_sum_squares_scaled. f_equal. ring.
Qed.

Lemma ideal_sum_squares_nonneg (l : list R) : (0 <= sum_squares l)%R.
Proof.
  unfold sum_squares, r0. cbn [r_add r_mul r_lit ideal_ops].
  apply (proj1 (ideal_sum_squares_ge l 0%R)).
Qed.

Lemma ideal_length_positive (l : list R) (x : R) :
  In x l -> x <> 0%R -> (0 < r_sqrt (sum_squares l))%R.
Proof.
  intros Hin Hx. cbn [r_sqrt ideal_ops]. apply sqrt_lt_R0.
  unfold sum_squares, r0. cbn [r_add r_mul r_lit ideal_ops].
  pose proof (proj2 (ideal_sum_squares_ge l 0%R) x Hin) as Hge.
  assert (0 < x * x)%R by nra. lra.
Qed.

(** X10.  In real arithmetic Normalize makes a vector with a nonzero
    component a unit vector: it returns the length of v, and the length of
    what it leaves in v is 1. *)
Theorem ideal_Normalize_unit_length (v : GVector R) (x : R) :
  GVector_valid v -> In x (mTuple v) -> x <> 0%R ->
  exists v',
    Normalize false v = (Ok (r_sqrt (sum_squares (mTuple v))), v')
    /\ (0 < r_sqrt (sum_squares (mTuple v)))%R
    /\ Length v' false tt = (Ok 1%R, tt).
Proof.
  intros Hv Hin Hx.
  pose proof (ideal_length_positive (mTuple v) x Hin Hx) as Hpos.
  set (L := r_sqrt (sum_squares (mTuple v))) in *.
  exists (mkGVector (scaled_tuple L (mTuple v))).
  rewrite (Normalize_standard v Hv). fold L.
  assert (Hgt : r_gt L r0 = true) by (apply Rltb_true; exact Hpos).
  rewrite Hgt. split; [reflexivity|split; [exact Hpos|]].
  rewrite (Length_standard _ tt (scaled_tuple_valid L v Hv)). cbn [mTuple].
  rewrite ideal_sum_squares_scaled_tuple. do 2 f_equal.
  assert (HLL : (L * L = sum_squares (mTuple v))%R)
    by (apply sqrt_sqrt, ideal_sum_squares_nonneg).
  rewrite <- HLL. cbn [r_sqrt ideal_ops].
  replace (1 / L * (1 / L) * (L * L))%R with 1%R by (field; lra).
  apply sqrt_1.
Qed.

Lemma ideal_Normalize_unit_length_witness :
  exists v',
    Normalize false (mkGVector [3; 4]%R)
    = (Ok (r_sqrt (sum_squares [3; 4]%R)), v')
    /\ (0 < r_sqrt (sum_squares [3; 4]%R))%R
    /\ Length v' false tt = (Ok 1%R, tt).
Proof.
  apply (ideal_Normalize_unit_length (mkGVector [3; 4]%R) 3%R).
  - unfold GVector_valid, INT32_MAX; cbn; lia.
  - now left.
  - lra.
Defined.

Lemma ideal_max_abs_ge (t : list R) :
  forall m : R,
  let g := fun maxAbsComp y => if Rltb maxAbsComp (Rabs y) then Rabs y else maxAbsComp in
  (m <= fold_left g t m)%R /\ (forall y, In y t -> (Rabs y <= fold_left g t m)%R).
Proof.
  intros m g. revert m. induction t as [|y t IH]; intros m; cbn [fold_left].
  - split; [lra|intros y []].
  - destruct (IH (g m y)) as [Hge Hin].
    assert (Hstep : (m <= g m y /\ Rabs y <= g m y)%R).
    { unfold g. destruct (Rltb m (Rabs y)) eqn:E.
      - apply Rltb_true in E. lra.
      - apply Rltb_false in E. lra. }
    split; [lra|]. intros z [<-|Hz]; [lra|now apply Hin].
Qed.

Lemma ideal_all_zero_of_max_abs (x : R) (t : list R) :
  (max_abs x t <= 0)%R -> all_zero (x :: t).
Proof.
  intros Hm. unfold max_abs in Hm. cbn [r_fabs r_gt r_lt ideal_ops] in Hm.
  destruct (ideal_max_abs_ge t (Rabs x)) as [Hge Hin].
  assert (Hzero : forall y, (Rabs y <= 0)%R -> y = r0).
  { intros y Hy. unfold r0. cbn [r_lit ideal_ops].
    pose proof (Rabs_pos y). destruct (Req_dec y 0) as [E|E]; [exact E|].
    apply Rabs_pos_lt in E. lra. }
  constructor.
  - apply Hzero. lra.
  - apply Forall_forall. intros y Hy. apply Hzero. specialize (Hin y Hy). lra.
Qed.

(** X11.  In real arithmetic the robust and the non-robust mode of Normalize
    agree on every vector that has a first component: the same length is
    returned and the same vector is left. *)
Theorem ideal_Normalize_modes_agree (x : R) (t : list R) :
  GVector_valid (mkGVector (x :: t)) ->
  Normalize true (mkGVector (x :: t)) = Normalize false (mkGVector (x :: t)).
Proof.
  intros Hv. rewrite (Normalize_robust x t Hv), (Normalize_standard _ Hv). cbn [mTuple].
  set (l := x :: t). set (m := max_abs x t).
  destruct (r_gt m r0) eqn:Hgt.
  - assert (Hm : (0 < m)%R) by (apply Rltb_true; exact Hgt).
    pose proof (ideal_scaled_length_ge_1 x t Hm) as Hlen. fold m l in Hlen.
    set (L' := r_sqrt (sum_squares (scaled_tuple m l))) in *.
    assert (Hne : r_ne L' r0 = true).
    { unfold r_ne, r0. cbn [r_eq r_lit ideal_ops]. apply negb_true_iff, Reqb_false. lra. }
    rewrite Hne.
    assert (HL : (L' * m = r_sqrt (sum_squares l))%R).
    { unfold L'. rewrite ideal_sum_squares_scaled_tuple. cbn [r_sqrt ideal_ops].
      rewrite sqrt_mult_alt by (apply Rle_0_sqr).
      replace (1 / m * (1 / m))%R with (Rsqr (1 / m)) by reflexivity.
      rewrite sqrt_Rsqr by (apply Rlt_le, Rdiv_lt_0_compat; lra).
      field. lra. }
    cbn [r_mul ideal_ops]. rewrite HL.
    set (L := r_sqrt (sum_squares l)) in *.
    assert (HLpos : (0 < L)%R) by nra.
    assert (HgtL : r_gt L r0 = true) by (apply Rltb_true; exact HLpos).
    rewrite HgtL. do 2 f_equal.
    unfold scaled_tuple. rewrite map_map. apply map_ext. intros a.
    unfold r1. cbn [r_mul r_div r_lit ideal_ops].
    replace L with (L' * m)%R by exact HL. field. lra.
  - assert (Hm : (m <= 0)%R) by (apply Rltb_false; exact Hgt).
    pose proof (ideal_all_zero_of_max_abs x t Hm) as Hzero. fold l in Hzero.
    rewrite (sum_squares_all_zero l Hzero).
    rewrite sqrt_zero, zero_not_gt_zero. reflexivity.
Qed.

Lemma ideal_Normalize_modes_agree_witness :
  Normalize true (mkGVector [3; 4]%R) = Normalize false (mkGVector [3; 4]%R).
Proof.
  apply (ideal_Normalize_modes_agree 3%R [4%R]).
  unfold GVector_valid, INT32_MAX; cbn; lia.
Defined.

(** ** The constructors Zero and Unit *)

Section ZeroUnitFacts.

Context {Real : Type} `{RealOps Real}.

Lemma SetSize_negative (size : Z) (v : GVector Real) :
  size < 0 -> SetSize size v = (Err (LogAssert "Invalid size."), v).
Proof.
  intros Hs. unfold SetSize. destruct (Z.geb_spec size 0); [lia|reflexivity].
Qed.

(** X12.  GVector(size), Zero(size) and Unit(size, d) refuse a negative size
    with the assertion "Invalid size."; for a size from 0 on, Zero returns
    that many zeros and Unit returns the vector with component d one and the
    others zero, which is the zero vector when d is no index. *)
Theorem Zero_Unit_sized (size d : Z) :
  size <= INT32_MAX ->
  (size < 0 ->
   GVector_sized size = Err (LogAssert "Invalid size.")
   /\ Zero size = Err (LogAssert "Invalid size.")
   /\ Unit size d = Err (LogAssert "Invalid size."))
  /\ (0 <= size ->
      Zero size = Ok (mkGVector (repeat r0 (Z.to_nat size)))
      /\ Unit size d = Ok (mkGVector (unit_tuple (Z.to_nat size) d))
      /\ (~ (0 <= d < size) -> Unit size d = Zero size)).
Proof.
  intros Hmax. split.
  - intros Hneg. unfold GVector_sized, Zero, Unit, construct, bind.
    rewrite (SetSize_negative size _ Hneg). repeat split.
  - intros Hpos.
    assert (Hzero : Zero size = Ok (mkGVector (repeat r0 (Z.to_nat size)))).
    { unfold Zero, construct, bind.
      rewrite <- (Z2Nat.id size Hpos) at 1. rewrite SetSize_default by lia.
      unfold MakeZero, std_fill. cbn [mTuple].
      now rewrite map_const, repeat_length. }
    split; [exact Hzero|]. split; [now apply Unit_spec|].
    intros Hd. rewrite Hzero, Unit_spec by lia.
    now rewrite unit_tuple_outside by lia.
Qed.

End ZeroUnitFacts.

Lemma Zero_Unit_sized_witness :
  Zero 2 = Ok (mkGVector [0; 0]%float)
  /\ Unit 2 1 = Ok (mkGVector [0; 1]%float)
  /\ (~ (0 <= 1 < 2) -> Unit 2 1 = Zero (Real := float) 2).
Proof.
  refine (proj2 (Zero_Unit_sized (Real := float) 2 1 _) _).
  - unfold INT32_MAX; lia.
  - lia.
Defined.

(** *** In the reals: the unit vectors are orthonormal *)

Lemma ideal_unit_dot_from (i j : Z) (n : nat) :
  forall (lo : nat) (a : R),
  fold_left (fun dot ab => dot + fst ab * snd ab)%R
    (combine (map (fun k => if Z.of_nat k =? i then 1 else 0)%R (seq lo n))
             (map (fun k => if Z.of_nat k =? j then 1 else 0)%R (seq lo n))) a
  = (a + (if (i =? j) && (Z.of_nat lo <=? i) && (i <? Z.of_nat (lo + n)) then 1 else 0))%R.
Proof.
  induction n as [|n IH]; intros lo a.
  - cbn [seq map combine fold_left].
    destruct (i =? j), (Z.leb_spec (Z.of_nat lo) i), (Z.ltb_spec i (Z.of_nat (lo + 0)));
      cbn [andb]; try lra; lia.
  - cbn [seq map combine fold_left fst snd]. rewrite IH.
    destruct (Z.eqb_spec (Z.of_nat lo) i) as [Hi|Hi], (Z.eqb_spec (Z.of_nat lo) j) as [Hj|Hj],
      (Z.eqb_spec i j) as [Hij|Hij]; try lia;
      destruct (Z.leb_spec (Z.of_nat (S lo)) i), (Z.ltb_spec i (Z.of_nat (S lo + n)));
      destruct (Z.leb_spec (Z.of_nat lo) i), (Z.ltb_spec i (Z.of_nat (lo + S n)));
      cbn [andb]; try lia; lra.
Qed.

(** X13.  In real arithmetic the vectors that Unit returns are orthonormal:
    the dot product of Unit(size, i) and Unit(size, j) is 1 when i = j is an
    index and 0 otherwise, and the length of Unit(size, i) is 1 when i is an
    index. *)
Theorem ideal_Unit_orthonormal (size i j : Z) :
  0 <= size <= INT32_MAX ->
  exists ei ej : GVector R,
    Unit size i = Ok ei /\ Unit size j = Ok ej
    /\ Dot ei ej tt
       = (Ok (if (i =? j) && (0 <=? i) && (i <? size) then 1 else 0)%R, tt)
    /\ (0 <= i < size -> Length ei false tt = (Ok 1%R, tt)).
Proof.
  intros Hs. set (n := Z.to_nat size).
  exists (mkGVector (unit_tuple n i)), (mkGVector (unit_tuple n j)).
  rewrite !Unit_spec by lia. fold n.
  assert (Hlen : forall d, length (unit_tuple (Real := R) n d) = n).
  { intros d. unfold unit_tuple. now rewrite length_map, length_seq. }
  assert (Hv : forall d, GVector_valid (mkGVector (unit_tuple (Real := R) n d))).
  { intros d. unfold GVector_valid. cbn [mTuple]. rewrite Hlen. lia. }
  assert (Hdot : forall d e,
    dot_tuples (unit_tuple (Real := R) n d) (unit_tuple n e)
    = (if (d =? e) && (0 <=? d) && (d <? size) then 1 else 0)%R).
  { intros d e. unfold dot_tuples, unit_tuple, r0, r1.
    cbn [r_add r_mul r_lit ideal_ops].
    rewrite (ideal_unit_dot_from d e n 0 0%R). rewrite Rplus_0_l.
    cbn [Z.of_nat Nat.add]. now replace (Z.of_nat n) with size by lia. }
  repeat split.
  - rewrite (Dot_run _ _ tt (Hv i) (Hv j)) by (cbn [mTuple]; now rewrite !Hlen).
    cbn [mTuple]. now rewrite Hdot.
  - intros Hi. rewrite (Length_standard _ tt (Hv i)). cbn [mTuple].
    assert (Hsq : sum_squares (unit_tuple (Real := R) n i) = 1%R).
    { pose proof (Dot_self (St := unit) _ tt (Hv i)) as Hself.
      rewrite (Dot_run _ _ tt (Hv i) (Hv i) eq_refl) in Hself. cbn [mTuple] in Hself.
      injection Hself as Hself. rewrite <- Hself, Hdot, Z.eqb_refl.
      destruct (Z.leb_spec 0 i), (Z.ltb_spec i size); cbn [andb]; try lia. reflexivity. }
    rewrite Hsq. cbn [r_sqrt ideal_ops]. now rewrite sqrt_1.
Qed.

Lemma ideal_Unit_orthonormal_witness :
  exists ei ej : GVector R,
    Unit 3 1 = Ok ei /\ Unit 3 2 = Ok ej
    /\ Dot ei ej tt
       = (Ok (if (1 =? 2) && (0 <=? 1) && (1 <? 3) then 1 else 0)%R, tt)
    /\ (0 <= 1 < 3 -> Length ei false tt = (Ok 1%R, tt)).
Proof.
  apply (ideal_Unit_orthonormal 3 1 2). unfold INT32_MAX; lia.
Defined.

(** ** Unary minus *)

Lemma binary64_opp_involutive (x : float) : PrimFloat.opp (PrimFloat.opp x) = x.
Proof.
  apply Prim2SF_inj. rewrite !FloatAxioms.opp_spec.
  destruct (Prim2SF x) as [s|s| |s m e]; cbn; try reflexivity; now rewrite negb_involutive.
Qed.

Section NegFacts.

Context {Real : Type} `{RealOps Real} `{RealNeg Real}.

Lemma op_neg_run (v : GVector Real) :
  GVector_valid v -> op_neg v = Ok (mkGVector (map r_neg (mTuple v))).
Proof.
  intros Hv. unfold op_neg. rewrite (GetSize_valid v Hv).
  unfold returning, bind. unfold GVector_valid in Hv.
  rewrite SetSize_default by exact Hv.
  unfold for_loop. rewrite Z.sub_0_r, Nat2Z.id.
  replace (repeat (r0 : Real) (length (mTuple v)))
    with ([] ++ repeat (r0 : Real) (length (mTuple v)) ++ []) by (cbn [app]; apply app_nil_r).
  rewrite <- (repeat_length (r0 : Real) (length (mTuple v))) at 1.
  rewrite (for_iter_write _ (repeat r0 (length (mTuple v)))
             (fun k => r_neg (nth k (mTuple v) r0)) (fun _ => tt)).
  - cbn [app]. rewrite app_nil_r, repeat_length. do 2 f_equal.
    rewrite <- (map_map (fun k => nth k (mTuple v) r0) r_neg).
    now rewrite (map_nth_seq (mTuple v) r0 _ (Nat.le_refl _)), firstn_all.
  - intros k pre' x post' Hk Hlen. rewrite repeat_length in Hk. cbn [length] in Hlen.
    cbn [Z.add]. unfold bind, lift.
    destruct v as [l]. cbn [mTuple] in *. rewrite elem_nth by lia.
    replace (Z.of_nat k) with (Z.of_nat (length pre')) by lia.
    apply store_middle.
Qed.

(** X14.  operator-(v) returns a vector of the size of v with every
    component negated and leaves v alone; when the negation of the scalar
    undoes itself, negating twice gives v back. *)
Theorem op_neg_involutive (v : GVector Real) :
  (forall a : Real, r_neg (r_neg a) = a) ->
  GVector_valid v ->
  exists w, op_neg v = Ok w
            /\ mTuple w = map r_neg (mTuple v)
            /\ length (mTuple w) = length (mTuple v)
            /\ op_neg w = Ok v.
Proof.
  intros Hinv Hv. exists (mkGVector (map r_neg (mTuple v))).
  split; [now apply op_neg_run|]. cbn [mTuple]. rewrite length_map.
  split; [reflexivity|split; [reflexivity|]].
  rewrite op_neg_run by (unfold GVector_valid; cbn [mTuple]; now rewrite length_map).
  cbn [mTuple]. rewrite map_map.
  rewrite (map_ext _ (fun a => a)) by exact Hinv.
  rewrite map_id. now destruct v.
Qed.

End NegFacts.

Lemma op_neg_involutive_witness :
  exists w, op_neg (mkGVector [3; -4; 0]%float) = Ok w
            /\ mTuple w = map r_neg [3; -4; 0]%float
            /\ length (mTuple w) = 3%nat
            /\ op_neg w = Ok (mkGVector [3; -4; 0]%float).
Proof.
  apply (op_neg_involutive (mkGVector [3; -4; 0]%float)).
  - exact binary64_opp_involutive.
  - unfold GVector_valid, INT32_MAX; cbn; lia.
Defined.

(** ** HyperSphere.h: the order of the comparisons *)

Section HypersphereOrder.

Context {Real : Type} `{RealOps Real}.

Variable vec_eq : Vector3 Real -> Vector3 Real -> bool.
Variable vec_lt : Vector3 Real -> Vector3 Real -> bool.
Variable vec_gt : Vector3 Real -> Vector3 Real -> bool.

Local Notation "a <<? b" := (Hypersphere_lt vec_lt vec_gt a b) (at level 70).
Local Notation "a ==? b" := (Hypersphere_eq vec_eq a b) (at level 70).

Hypothesis vec_eq_spec : forall a b, vec_eq a b = true <-> a = b.
Hypothesis vec_gt_lt : forall a b, vec_gt a b = vec_lt b a.
Hypothesis vec_lt_irrefl : forall a, vec_lt a a = false.
Hypothesis vec_lt_trans :
  forall a b c, vec_lt a b = true -> vec_lt b c = true -> vec_lt a c = true.
Hypothesis vec_lt_total : forall a b, vec_lt a b = false -> vec_lt b a = false -> a = b.
Hypothesis r_eq_spec : forall a b : Real, r_eq a b = true <-> a = b.
Hypothesis r_lt_irrefl : forall a : Real, r_lt a a = false.
Hypothesis r_lt_trans :
  forall a b c : Real, r_lt a b = true -> r_lt b c = true -> r_lt a c = true.
Hypothesis r_lt_total : forall a b : Real, r_lt a b = false -> r_lt b a = false -> a = b.

Lemma Hypersphere_lt_true (a b : Sphere3 Real) :
  (a <<? b) = true
  <-> vec_lt (center a) (center b) = true
      \/ (center a = center b /\ r_lt (radius a) (radius b) = true).
Proof.
  unfold Hypersphere_lt. rewrite vec_gt_lt.
  destruct (vec_lt (center a) (center b)) eqn:Hab.
  - split; [now left|reflexivity].
  - destruct (vec_lt (center b) (center a)) eqn:Hba.
    + split; [discriminate|]. intros [Habs|[Heq _]]; [discriminate|].
      rewrite Heq, vec_lt_irrefl in Hba. discriminate.
    + pose proof (vec_lt_total _ _ Hab Hba) as Heq. split.
      * intros Hr. right. now split.
      * intros [Habs|[_ Hr]]; [discriminate|exact Hr].
Qed.

Lemma Hypersphere_eq_true (a b : Sphere3 Real) : (a ==? b) = true <-> a = b.
Proof.
  unfold Hypersphere_eq. rewrite andb_true_iff, vec_eq_spec, r_eq_spec.
  destruct a, b. cbn. split; [intros [-> ->]; reflexivity|intros [= -> ->]; now split].
Qed.

(** X15.  When the comparisons of the centers and of the radii are strict
    total orders, so is operator< of Hypersphere (centers first, radii on
    equal centers), [==] is equality, and [<=], [>=] and [!=] are what they
    are in a total order. *)
Theorem Hypersphere_strict_total_order :
  (forall a, (a <<? a) = false)
  /\ (forall a b c, (a <<? b) = true -> (b <<? c) = true -> (a <<? c) = true)
  /\ (forall a b, (a <<? b) = false -> (b <<? a) = false -> a = b)
  /\ (forall a b, (a ==? b) = true <-> a = b)
  /\ (forall a b, Hypersphere_le vec_lt vec_gt a b = (a <<? b) || (a ==? b))
  /\ (forall a b,
         Hypersphere_ge vec_lt vec_gt a b = Hypersphere_gt vec_lt vec_gt a b || (a ==? b))
  /\ (forall a b,
         Hypersphere_ne vec_eq a b = (a <<? b) || Hypersphere_gt vec_lt vec_gt a b).
Proof.
  assert (Hirr : forall a, (a <<? a) = false).
  { intros a. destruct ((a <<? a)) eqn:E; [|reflexivity].
    apply Hypersphere_lt_true in E as [E|[_ E]].
    - now rewrite vec_lt_irrefl in E.
    - now rewrite r_lt_irrefl in E. }
  assert (Htrans : forall a b c, (a <<? b) = true -> (b <<? c) = true -> (a <<? c) = true).
  { intros a b c Hab Hbc. apply Hypersphere_lt_true.
    apply Hypersphere_lt_true in Hab as [Hab|[Hab Hab']];
      apply Hypersphere_lt_true in Hbc as [Hbc|[Hbc Hbc']].
    - left. eapply vec_lt_trans; eassumption.
    - left. now rewrite <- Hbc.
    - left. now rewrite Hab.
    - right. split; [congruence|eapply r_lt_trans; eassumption]. }
  assert (Htotal : forall a b, (a <<? b) = false -> (b <<? a) = false -> a = b).
  { intros a b Hab Hba.
    assert (Hc : center a = center b).
    { apply vec_lt_total.
      - destruct (vec_lt (center a) (center b)) eqn:E; [|reflexivity].
        rewrite (proj2 (Hypersphere_lt_true a b)) in Hab by (now left). discriminate.
      - destruct (vec_lt (center b) (center a)) eqn:E; [|reflexivity].
        rewrite (proj2 (Hypersphere_lt_true b a)) in Hba by (now left). discriminate. }
    assert (Hr : radius a = radius b).
    { apply r_lt_total.
      - destruct (r_lt (radius a) (radius b)) eqn:E; [|reflexivity].
        rewrite (proj2 (Hypersphere_lt_true a b)) in Hab by (right; now split). discriminate.
      - destruct (r_lt (radius b) (radius a)) eqn:E; [|reflexivity].
        rewrite (proj2 (Hypersphere_lt_true b a)) in Hba by (right; now split). discriminate. }
    destruct a, b. cbn in *. now subst. }
  assert (Hasym : forall a b, (a <<? b) = true -> (b <<? a) = false).
  { intros a b Hab. destruct ((b <<? a)) eqn:Hba; [|reflexivity].
    pose proof (Hirr a) as Ha. now rewrite (Htrans a b a Hab Hba) in Ha. }
  assert (Hle : forall a b, negb ((b <<? a)) = (a <<? b) || (a ==? b)).
  { intros a b. destruct ((b <<? a)) eqn:Hba; cbn [negb].
    - rewrite (Hasym b a Hba). cbn [orb]. symmetry.
      destruct ((a ==? b)) eqn:E; [|reflexivity].
      apply Hypersphere_eq_true in E. subst b. now rewrite Hirr in Hba.
    - destruct ((a <<? b)) eqn:Hab; [reflexivity|]. cbn [orb]. symmetry.
      apply Hypersphere_eq_true. now apply Htotal. }
  repeat split.
  - exact Hirr.
  - exact Htrans.
  - exact Htotal.
  - apply Hypersphere_eq_true.
  - apply Hypersphere_eq_true.
  - intros a b. apply Hle.
  - intros a b. unfold Hypersphere_ge, Hypersphere_gt. rewrite (Hle b a).
    f_equal. destruct ((b ==? a)) eqn:E, ((a ==? b)) eqn:E'; try reflexivity.
    + apply Hypersphere_eq_true in E. symmetry in E.
      apply Hypersphere_eq_true in E. congruence.
    + apply Hypersphere_eq_true in E'. symmetry in E'.
      apply Hypersphere_eq_true in E'. congruence.
  - intros a b. unfold Hypersphere_ne, Hypersphere_gt.
    destruct ((a ==? b)) eqn:E; cbn [negb].
    + apply Hypersphere_eq_true in E. subst b. now rewrite Hirr.
    + destruct ((a <<? b)) eqn:Hab; [reflexivity|].
      destruct ((b <<? a)) eqn:Hba; [reflexivity|].
      rewrite (proj2 (Hypersphere_eq_true a b) (Htotal a b Hab Hba)) in E. discriminate.
Qed.

End HypersphereOrder.

(** The assumptions of the order hold for spheres over the reals with the
    lexicographic order on the centers. *)
Lemma lex3_lt_true (a b : Vector3 R) :
  lex3_lt a b = true
  <-> (x0 a < x0 b
       \/ (x0 a = x0 b /\ (x1 a < x1 b \/ (x1 a = x1 b /\ x2 a < x2 b))))%R.
Proof.
  unfold lex3_lt.
  now rewrite !orb_true_iff, !andb_true_iff, !orb_true_iff, !andb_true_iff,
    !Rltb_true, !Reqb_true.
Qed.

Lemma lex3_eq_spec (a b : Vector3 R) : lex3_eq a b = true <-> a = b.
Proof.
  unfold lex3_eq. rewrite !andb_true_iff, !Reqb_true. destruct a, b. cbn.
  split; [intros [[-> ->] ->]; reflexivity|intros [= -> -> ->]; now repeat split].
Qed.

Lemma lex3_lt_irrefl (a : Vector3 R) : lex3_lt a a = false.
Proof.
  destruct (lex3_lt a a) eqn:E; [|reflexivity]. apply lex3_lt_true in E. lra.
Qed.

Lemma lex3_lt_trans (a b c : Vector3 R) :
  lex3_lt a b = true -> lex3_lt b c = true -> lex3_lt a c = true.
Proof.
  rewrite !lex3_lt_true. intros Hab Hbc.
  destruct Hab as [Hab|[Hab [Hab'|[Hab' Hab'']]]];
    destruct Hbc as [Hbc|[Hbc [Hbc'|[Hbc' Hbc'']]]];
    try (left; lra);
    try (right; split; [lra|]; left; lra).
  right. split; [lra|]. right. split; lra.
Qed.

Lemma lex3_lt_total (a b : Vector3 R) :
  lex3_lt a b = false -> lex3_lt b a = false -> a = b.
Proof.
  intros Hab Hba.
  assert (Hnab : ~ lex3_lt a b = true) by (rewrite Hab; discriminate).
  assert (Hnba : ~ lex3_lt b a = true) by (rewrite Hba; discriminate).
  rewrite lex3_lt_true in Hnab, Hnba.
  destruct a as [a0 a1 a2], b as [b0 b1 b2]. cbn in *.
  destruct (Rtotal_order a0 b0) as [H0|[H0|H0]]; try (exfalso; tauto). subst b0.
  destruct (Rtotal_order a1 b1) as [H1|[H1|H1]]; try (exfalso; tauto). subst b1.
  destruct (Rtotal_order a2 b2) as [H2|[H2|H2]]; try (exfalso; tauto). now subst b2.
Qed.

Lemma Rltb_irrefl (a : R) : Rltb a a = false.
Proof. apply Rltb_false. lra. Qed.

Lemma Rltb_trans (a b c : R) : Rltb a b = true -> Rltb b c = true -> Rltb a c = true.
Proof. rewrite !Rltb_true. lra. Qed.

Lemma Rltb_total (a b : R) : Rltb a b = false -> Rltb b a = false -> a = b.
Proof. rewrite !Rltb_false. lra. Qed.

Lemma Hypersphere_strict_total_order_witness :
  Hypersphere_lt lex3_lt (fun a b => lex3_lt b a)
    (mkSphere3 ideal_origin 1%R) (mkSphere3 ideal_origin 1%R) = false.
Proof.
  refine (proj1 (Hypersphere_strict_total_order (Real := R)
                   lex3_eq lex3_lt (fun a b => lex3_lt b a) _ _ _ _ _ _ _ _ _) _).
  - exact lex3_eq_spec.
  - reflexivity.
  - exact lex3_lt_irrefl.
  - exact lex3_lt_trans.
  - exact lex3_lt_total.
  - exact Reqb_true.
  - exact Rltb_irrefl.
  - exact Rltb_trans.
  - exact Rltb_total.
Defined.

(** ** ComputeExtremes *)

Section ComputeExtremesFacts.

Context {Real : Type} `{RealOps Real}.

Lemma array_elem_nth (arr : list (GVector Real)) (i : nat) (d : GVector Real) :
  (i < length arr)%nat -> array_elem arr (Z.of_nat i) = Ok (nth i arr d).
Proof.
  intros Hi. unfold array_elem. destruct (Z.ltb_spec (Z.of_nat i) 0); [lia|].
  rewrite Nat2Z.id. now rewrite (nth_error_nth' arr d Hi).
Qed.

(** The loop that compares the sizes with the size of [v[0]]: it leaves the
    state alone, and fails at the first size that differs. *)
Lemma size_check_loop {St : Type} (arr : list (GVector Real)) (first : GVector Real)
    (s : St) (n : nat) :
  forall lo : nat,
  (0 < length arr)%nat -> nth 0 arr first = first -> (lo + n <= length arr)%nat ->
  for_iter n (Z.of_nat lo)
    (fun i (_ : unit) =>
       first <- lift (array_elem arr 0) ;;
       vi <- lift (array_elem arr i) ;;
       if negb (GetSize first =? GetSize vi)
       then raise (LogError "Mismatched sizes.")
       else ret tt) tt s
  = (if forallb (fun vi => GetSize first =? GetSize vi) (firstn n (skipn lo arr))
     then Ok tt else Err (LogError "Mismatched sizes."), s).
Proof.
  match goal with |- forall lo, _ -> _ -> _ -> for_iter _ _ ?b _ _ = _ => set (body := b) end.
  induction n as [|n IH]; intros lo Hne H0 Hlen.
  - reflexivity.
  - cbn [for_iter]. unfold bind at 1. unfold body at 1.
    unfold bind at 1, lift at 1.
    rewrite (array_elem_nth arr 0 first Hne : array_elem arr 0 = _), H0.
    unfold bind at 1, lift at 1. rewrite (array_elem_nth arr lo first) by lia.
    assert (Hskip : skipn lo arr = nth lo arr first :: skipn (S lo) arr).
    { destruct (split_at_list arr lo) as (pre & x & post & -> & <-); [lia|].
      rewrite app_nth2, Nat.sub_diag by lia. cbn [nth].
      rewrite !skipn_app, skipn_all, Nat.sub_diag.
      rewrite (skipn_all2 pre) by lia.
      replace (S (length pre) - length pre)%nat with 1%nat by lia.
      reflexivity. }
    rewrite Hskip. cbn [firstn forallb].
    destruct (GetSize first =? GetSize (nth lo arr first)); cbn [negb andb].
    + unfold ret. replace (Z.of_nat lo + 1) with (Z.of_nat (S lo)) by lia.
      apply IH; [assumption|assumption|lia].
    + reflexivity.
Qed.

(** The inner loop of ComputeExtremes, from the component after the
    prefixes on. *)
Lemma extend_loop (sv : list Real) :
  forall (smin smax pv pmin pmax : list Real),
  length smin = length sv -> length smax = length sv ->
  length pmin = length pv -> length pmax = length pv ->
  for_iter (length sv) (Z.of_nat (length pv))
    (fun i (_ : unit) =>
       x <- lift (elem (mkGVector (pv ++ sv)) i) ;;
       lo <- on_vmin (load i) ;;
       if r_lt x lo then on_vmin (store i x)
       else
         hi <- on_vmax (load i) ;;
         if r_gt x hi then on_vmax (store i x) else ret tt) tt
    (mkGVector (pmin ++ smin), mkGVector (pmax ++ smax))
  = (Ok tt,
     (mkGVector (pmin ++ fst (extend_bounds sv smin smax)),
      mkGVector (pmax ++ snd (extend_bounds sv smin smax)))).
Proof.
  induction sv as [|x sv IH]; intros [|lo smin] [|hi smax] pv pmin pmax Hmin Hmax Hpmin Hpmax;
    try discriminate; [reflexivity|].
  cbn [length for_iter extend_bounds].
  match goal with |- context [for_iter _ _ ?b _] => set (body := b) end.
  unfold bind at 1. unfold body at 1.
  unfold bind at 1, lift at 1. rewrite elem_middle.
  unfold bind at 1, on_vmin at 1, load at 1. cbn [fst snd].
  rewrite <- Hpmin, elem_middle.
  specialize (IH smin smax (pv ++ [x])).
  replace (Z.of_nat (length pmin) + 1) with (Z.of_nat (length (pv ++ [x])))
    by (rewrite length_app; cbn [length]; lia).
  replace (pv ++ x :: sv) with ((pv ++ [x]) ++ sv) by (now rewrite <- app_assoc).
  destruct (extend_bounds sv smin smax) as [rmin rmax] eqn:Hext. cbn [fst snd] in IH.
  destruct (r_lt x lo) eqn:Hlt.
  - unfold on_vmin, store at 1. cbn [fst snd mTuple].
    destruct (Z.ltb_spec (Z.of_nat (length pmin)) 0); [lia|].
    rewrite Nat2Z.id, list_update_middle.
    specialize (IH (pmin ++ [x]) (pmax ++ [hi])).
    rewrite <- !app_assoc in IH. cbn [app] in IH. cbn [fst snd].
    rewrite <- !app_assoc. cbn [app].
    apply IH; try (rewrite !length_app; cbn [length]); try lia;
      [now injection Hmin|now injection Hmax].
  - unfold bind at 1, on_vmax at 1, load at 1. cbn [fst snd].
    rewrite Hpmin, <- Hpmax, elem_middle.
    destruct (r_gt x hi) eqn:Hgt.
    + unfold on_vmax, store at 1. cbn [fst snd mTuple].
      destruct (Z.ltb_spec (Z.of_nat (length pmax)) 0); [lia|].
      rewrite Nat2Z.id, list_update_middle.
      specialize (IH (pmin ++ [lo]) (pmax ++ [x])).
      rewrite <- !app_assoc in IH. cbn [app] in IH. cbn [fst snd].
      rewrite <- !app_assoc. cbn [app].
      apply IH; try (rewrite !length_app; cbn [length]); try lia;
        [now injection Hmin|now injection Hmax].
    + unfold ret.
      specialize (IH (pmin ++ [lo]) (pmax ++ [hi])).
      rewrite <- !app_assoc in IH. cbn [app] in IH. cbn [fst snd].
      rewrite <- !app_assoc. cbn [app].
      apply IH; try (rewrite !length_app; cbn [length]); try lia;
        [now injection Hmin|now injection Hmax].
Qed.

End ComputeExtremesFacts.

Section ComputeExtremesRun.

Context {Real : Type} `{RealOps Real}.

(** A loop whose [k]-th round takes the state from [st k] to [st (S k)]. *)
Lemma for_iter_states {St : Type} (body : Z -> unit -> M St unit) (n : nat) :
  forall (st : nat -> St) (lo : nat),
  (forall k, (k < n)%nat -> body (Z.of_nat (lo + k)) tt (st k) = (Ok tt, st (S k))) ->
  for_iter n (Z.of_nat lo) body tt (st 0%nat) = (Ok tt, st n).
Proof.
  induction n as [|n IH]; intros st lo Hbody.
  - reflexivity.
  - cbn [for_iter]. unfold bind at 1.
    pose proof (Hbody 0%nat ltac:(lia)) as H0. rewrite Nat.add_0_r in H0. rewrite H0.
    replace (Z.of_nat lo + 1) with (Z.of_nat (S lo)) by lia.
    apply (IH (fun k => st (S k)) (S lo)).
    intros k Hk. replace (S lo + k)%nat with (lo + S k)%nat by lia. apply Hbody. lia.
Qed.

Lemma extend_bounds_length (vec : list Real) :
  forall lmin lmax : list Real,
  length lmin = length vec -> length lmax = length vec ->
  length (fst (extend_bounds vec lmin lmax)) = length vec
  /\ length (snd (extend_bounds vec lmin lmax)) = length vec.
Proof.
  induction vec as [|x vec IH]; intros [|lo lmin] [|hi lmax] Hmin Hmax; try discriminate;
    [now split|].
  cbn [extend_bounds].
  destruct (IH lmin lmax) as [Hl Hr]; [now injection Hmin|now injection Hmax|].
  destruct (extend_bounds vec lmin lmax) as [rmin rmax]. cbn [fst snd] in *.
  destruct (r_lt x lo); [|destruct (r_gt x hi)]; cbn [fst snd length]; now rewrite Hl, Hr.
Qed.

Lemma bounds_of_length (first : list Real) (vs : list (GVector Real)) :
  (forall v, In v vs -> length (mTuple v) = length first) ->
  length (fst (bounds_of first vs)) = length first
  /\ length (snd (bounds_of first vs)) = length first.
Proof.
  unfold bounds_of. intros Hvs.
  assert (Hgen : forall b : list Real * list Real,
             length (fst b) = length first -> length (snd b) = length first ->
             length (fst (fold_left (fun b vec => extend_bounds (mTuple vec) (fst b) (snd b))
                            vs b)) = length first
             /\ length (snd (fold_left (fun b vec => extend_bounds (mTuple vec) (fst b) (snd b))
                               vs b)) = length first).
  { induction vs as [|v vs IH]; intros b Hb0 Hb1; [now split|].
    cbn [fold_left]. assert (Hv : length (mTuple v) = length first) by (apply Hvs; now left).
    destruct (extend_bounds_length (mTuple v) (fst b) (snd b)) as [Hl Hr]; try congruence.
    apply IH; [intros w Hw; apply Hvs; now right|congruence|congruence]. }
  now apply Hgen.
Qed.

Lemma ComputeExtremes_run (first : GVector Real) (rest : list (GVector Real))
    (s : GVector Real * GVector Real) :
  GVector_valid first ->
  Z.of_nat (length (first :: rest)) <= INT32_MAX ->
  (forall v, In v rest -> length (mTuple v) = length (mTuple first)) ->
  ComputeExtremes (Z.of_nat (length (first :: rest))) (Some (first :: rest)) s
  = (Ok true, (mkGVector (fst (bounds_of (mTuple first) rest)),
               mkGVector (snd (bounds_of (mTuple first) rest)))).
Proof.
  intros Hv Hnum Hsizes. set (arr := first :: rest). set (n := length (mTuple first)).
  assert (Hvalid : forall v, In v rest -> GVector_valid v).
  { intros v Hin. unfold GVector_valid. rewrite (Hsizes v Hin). exact Hv. }
  assert (Hnth : forall k, (k < length rest)%nat -> nth (1 + k) arr first = nth k rest first)
    by (intros k _; reflexivity).
  unfold ComputeExtremes.
  destruct (Z.gtb_spec (Z.of_nat (length arr)) 0) as [_|Hbad]; [|cbn [arr length] in Hbad; lia].
  unfold bind at 1. unfold for_loop at 1.
  replace (Z.to_nat (Z.of_nat (length arr) - 1)) with (length rest) by (cbn [arr length]; lia).
  change 1 with (Z.of_nat 1) at 1.
  rewrite (size_check_loop arr first s (length rest) 1);
    [|cbn [arr length]; lia|reflexivity|cbn [arr length]; lia].
  assert (Hall : forallb (fun vi => GetSize first =? GetSize vi)
                   (firstn (length rest) (skipn 1 arr)) = true).
  { cbn [arr skipn]. rewrite firstn_all. apply forallb_forall. intros v Hin.
    rewrite (GetSize_valid first Hv), (GetSize_valid v (Hvalid v Hin)), (Hsizes v Hin).
    apply Z.eqb_refl. }
  rewrite Hall.
  unfold bind at 1, lift at 1. cbn [arr array_elem Z.ltb Z.compare Z.to_nat nth_error].
  unfold bind at 1, on_vmin at 1, put at 1. cbn [fst snd].
  unfold bind at 1, on_vmin at 1, get at 1. cbn [fst snd].
  unfold bind at 1, on_vmax at 1, put at 1. cbn [fst snd].
  rewrite (GetSize_valid first Hv). fold n.
  unfold bind at 1. unfold for_loop at 1.
  replace (Z.to_nat (Z.of_nat (length arr) - 1)) with (length rest)
    by (cbn [arr length]; lia).
  set (st := fun k : nat =>
               (mkGVector (fst (bounds_of (mTuple first) (firstn k rest))),
                mkGVector (snd (bounds_of (mTuple first) (firstn k rest))))).
  change (first, first) with (mkGVector (mTuple first), mkGVector (mTuple first)) || idtac.
  assert (Hst0 : st 0%nat = (first, first)).
  { unfold st, bounds_of. cbn [firstn fold_left fst snd]. now destruct first. }
  rewrite <- Hst0.
  match goal with
  | |- context [for_iter (length rest) 1 ?b tt (st 0%nat)] =>
      assert (Hloop : for_iter (length rest) 1 b tt (st 0%nat) = (Ok tt, st (length rest)));
      [apply (for_iter_states b (length rest) st 1)|rewrite Hloop]
  end.
  2:{ unfold ret, st. now rewrite firstn_all. }
  intros k Hk. unfold bind at 1, lift at 1.
  fold arr. rewrite (array_elem_nth arr (1 + k) first) by (cbn [arr length]; lia).
  rewrite Hnth by exact Hk.
  set (vec := nth k rest first).
  assert (Hin : In vec rest) by (apply nth_In; exact Hk).
  assert (Hfirstn : forall v, In v (firstn k rest) -> length (mTuple v) = n).
  { intros v Hv'. apply Hsizes. rewrite <- (firstn_skipn k rest).
    apply in_or_app. now left. }
  destruct (bounds_of_length (mTuple first) (firstn k rest) Hfirstn) as [Hl Hr].
  unfold for_loop. rewrite Z.sub_0_r, Nat2Z.id.
  pose proof (extend_loop (mTuple vec) (fst (bounds_of (mTuple first) (firstn k rest)))
                (snd (bounds_of (mTuple first) (firstn k rest))) [] [] []) as Hloop.
  cbn [app length Z.of_nat] in Hloop. rewrite (Hsizes vec Hin) in Hloop. fold n in Hloop.
  replace (mkGVector (mTuple vec)) with vec in Hloop by (now destruct vec).
  unfold st at 1. rewrite Hloop by (fold n in Hl, Hr; congruence).
  unfold st. do 2 f_equal.
  + f_equal. unfold bounds_of.
    rewrite (firstn_succ_nth rest k first Hk), fold_left_app. reflexivity.
  + f_equal. unfold bounds_of.
    rewrite (firstn_succ_nth rest k first Hk), fold_left_app. reflexivity.
Qed.

End ComputeExtremesRun.

Section ComputeExtremesErrors.

Context {Real : Type} `{RealOps Real}.

(** X16.  ComputeExtremes checks its input before it writes: for a null
    pointer or a count that is not positive it raises "Invalid input.", and
    when one of the vectors has a size different from the first it raises
    "Mismatched sizes."; in both cases vmin and vmax are as they were. *)
Theorem ComputeExtremes_rejects (numVectors : Z) (first : GVector Real)
    (rest : list (GVector Real)) (s : GVector Real * GVector Real) :
  GVector_valid first -> (forall v, In v rest -> GVector_valid v) ->
  Z.of_nat (length (first :: rest)) <= INT32_MAX ->
  ComputeExtremes numVectors None s = (Err (LogError "Invalid input."), s)
  /\ (numVectors <= 0 ->
      ComputeExtremes numVectors (Some (first :: rest)) s
      = (Err (LogError "Invalid input."), s))
  /\ ((exists v, In v rest /\ length (mTuple v) <> length (mTuple first)) ->
      ComputeExtremes (Z.of_nat (length (first :: rest))) (Some (first :: rest)) s
      = (Err (LogError "Mismatched sizes."), s)).
Proof.
  intros Hv Hvalid Hnum. split; [reflexivity|split].
  - intros Hle. unfold ComputeExtremes.
    destruct (Z.gtb_spec numVectors 0); [lia|reflexivity].
  - intros [v [Hin Hsize]]. set (arr := first :: rest).
    unfold ComputeExtremes.
    destruct (Z.gtb_spec (Z.of_nat (length arr)) 0) as [_|Hbad];
      [|cbn [arr length] in Hbad; lia].
    unfold bind at 1. unfold for_loop at 1.
    replace (Z.to_nat (Z.of_nat (length arr) - 1)) with (length rest)
      by (cbn [arr length]; lia).
    pose proof (size_check_loop arr first s (length rest) 1) as Hcheck.
    cbn [Z.of_nat Pos.of_succ_nat] in Hcheck.
    rewrite Hcheck; [|cbn [arr length]; lia|reflexivity|cbn [arr length]; lia].
    cbn [arr skipn]. rewrite firstn_all.
    destruct (forallb (fun vi => GetSize first =? GetSize vi) rest) eqn:Hall; [|reflexivity].
    exfalso. rewrite forallb_forall in Hall. specialize (Hall v Hin).
    rewrite (GetSize_valid first Hv), (GetSize_valid v (Hvalid v Hin)) in Hall.
    apply Z.eqb_eq in Hall. lia.
Qed.

End ComputeExtremesErrors.

Lemma ComputeExtremes_rejects_witness :
  ComputeExtremes 3
    (Some [mkGVector [1; 5]; mkGVector [3; 2]; mkGVector [0]]%float)
    (mkGVector [7]%float, mkGVector [8]%float)
  = (Err (LogError "Mismatched sizes."), (mkGVector [7]%float, mkGVector [8]%float)).
Proof.
  refine (proj2 (proj2 (ComputeExtremes_rejects 3 (mkGVector [1; 5]%float)
                          [mkGVector [3; 2]; mkGVector [0]]%float
                          (mkGVector [7]%float, mkGVector [8]%float) _ _ _)) _).
  - unfold GVector_valid, INT32_MAX; cbn; lia.
  - intros v [<-|[<-|[]]]; unfold GVector_valid, INT32_MAX; cbn; lia.
  - unfold INT32_MAX; cbn; lia.
  - exists (mkGVector [0]%float). split; [right; now left|cbn; lia].
Defined.

(** *** In the reals: the extremes bound every vector *)

Lemma Forall2_Rle_refl (l : list R) : Forall2 Rle l l.
Proof. induction l; constructor; [lra|assumption]. Qed.

Lemma Forall2_Rle_trans (l0 l1 l2 : list R) :
  Forall2 Rle l0 l1 -> Forall2 Rle l1 l2 -> Forall2 Rle l0 l2.
Proof.
  intros H01. revert l2. induction H01 as [|a b l0 l1 Hab _ IH]; intros l2 H12.
  - inversion H12. constructor.
  - inversion H12 as [|b' c l1' l2' Hbc H12']; subst. constructor; [lra|now apply IH].
Qed.

Lemma ideal_extend_bounds (vec : list R) :
  forall lmin lmax : list R,
  Forall2 Rle lmin lmax -> length vec = length lmin ->
  Forall2 Rle (fst (extend_bounds vec lmin lmax)) lmin
  /\ Forall2 Rle lmax (snd (extend_bounds vec lmin lmax))
  /\ Forall2 Rle (fst (extend_bounds vec lmin lmax)) vec
  /\ Forall2 Rle vec (snd (extend_bounds vec lmin lmax))
  /\ Forall2 Rle (fst (extend_bounds vec lmin lmax)) (snd (extend_bounds vec lmin lmax)).
Proof.
  induction vec as [|x vec IH]; intros lmin lmax Hle Hlen.
  - destruct lmin; [|discriminate]. inversion Hle; subst. cbn. repeat split; constructor.
  - destruct Hle as [|lo hi lmin lmax Hlohi Hle]; [discriminate|].
    cbn [extend_bounds].
    destruct (IH lmin lmax Hle) as (H1 & H2 & H3 & H4 & H5); [now injection Hlen|].
    destruct (extend_bounds vec lmin lmax) as [rmin rmax]. cbn [fst snd] in *.
    unfold r_gt. cbn [r_lt ideal_ops].
    destruct (Rltb x lo) eqn:Hlt.
    + apply Rltb_true in Hlt. cbn [fst snd]. repeat split; constructor; (lra || assumption).
    + apply Rltb_false in Hlt. destruct (Rltb hi x) eqn:Hgt.
      * apply Rltb_true in Hgt. cbn [fst snd].
        repeat split; constructor; (lra || assumption).
      * apply Rltb_false in Hgt. cbn [fst snd].
        repeat split; constructor; (lra || assumption).
Qed.

Lemma ideal_bounds_fold (vs : list (GVector R)) :
  forall b : list R * list R,
  Forall2 Rle (fst b) (snd b) ->
  (forall v, In v vs -> length (mTuple v) = length (fst b)) ->
  let b' := fold_left (fun b vec => extend_bounds (mTuple vec) (fst b) (snd b)) vs b in
  Forall2 Rle (fst b') (fst b) /\ Forall2 Rle (snd b) (snd b')
  /\ Forall2 Rle (fst b') (snd b')
  /\ (forall v, In v vs ->
        Forall2 Rle (fst b') (mTuple v) /\ Forall2 Rle (mTuple v) (snd b')).
Proof.
  induction vs as [|w vs IH]; intros b Hb Hsizes; cbn [fold_left].
  - split; [apply Forall2_Rle_refl|split; [apply Forall2_Rle_refl|split; [assumption|]]].
    intros v [].
  - destruct (ideal_extend_bounds (mTuple w) (fst b) (snd b) Hb) as (H1 & H2 & H3 & H4 & H5);
      [apply Hsizes; now left|].
    set (b1 := extend_bounds (mTuple w) (fst b) (snd b)) in *.
    assert (Hlen1 : length (fst b1) = length (fst b))
      by (apply (Forall2_length H1)).
    destruct (IH b1 H5) as (I1 & I2 & I3 & I4).
    { intros v Hv. rewrite Hlen1. apply Hsizes. now right. }
    cbn zeta in *. split; [|split; [|split]].
    + exact (Forall2_Rle_trans _ _ _ I1 H1).
    + exact (Forall2_Rle_trans _ _ _ H2 I2).
    + exact I3.
    + intros v [<-|Hin]; [|now apply I4].
      split; [exact (Forall2_Rle_trans _ _ _ I1 H3)|exact (Forall2_Rle_trans _ _ _ H4 I2)].
Qed.

(** X17.  In real arithmetic, on a count of vectors of one size,
    ComputeExtremes returns true with vmin and vmax of that size, and every
    component of every vector lies between the components of vmin and of
    vmax. *)
Theorem ideal_ComputeExtremes_bounds (first : GVector R) (rest : list (GVector R))
    (s : GVector R * GVector R) :
  GVector_valid first ->
  Z.of_nat (length (first :: rest)) <= INT32_MAX ->
  (forall v, In v rest -> length (mTuple v) = length (mTuple first)) ->
  exists vmin vmax,
    ComputeExtremes (Z.of_nat (length (first :: rest))) (Some (first :: rest)) s
    = (Ok true, (vmin, vmax))
    /\ length (mTuple vmin) = length (mTuple first)
    /\ length (mTuple vmax) = length (mTuple first)
    /\ (forall v, In v (first :: rest) ->
          Forall2 Rle (mTuple vmin) (mTuple v) /\ Forall2 Rle (mTuple v) (mTuple vmax)).
Proof.
  intros Hv Hnum Hsizes.
  exists (mkGVector (fst (bounds_of (mTuple first) rest))),
         (mkGVector (snd (bounds_of (mTuple first) rest))).
  split; [now apply ComputeExtremes_run|]. cbn [mTuple].
  destruct (bounds_of_length (mTuple first) rest Hsizes) as [Hl Hr].
  split; [exact Hl|split; [exact Hr|]].
  destruct (ideal_bounds_fold rest (mTuple first, mTuple first) (Forall2_Rle_refl _) Hsizes)
    as (I1 & I2 & I3 & I4).
  cbn [fst snd] in *. intros v [<-|Hin].
  - split; assumption.
  - now apply I4.
Qed.

Lemma ideal_ComputeExtremes_bounds_witness :
  exists vmin vmax,
    ComputeExtremes 2 (Some [mkGVector [1; 5]; mkGVector [3; 2]]%R)
      (mkGVector [], mkGVector [])
    = (Ok true, (vmin, vmax))
    /\ length (mTuple vmin) = 2%nat
    /\ length (mTuple vmax) = 2%nat
    /\ (forall v, In v [mkGVector [1; 5]; mkGVector [3; 2]]%R ->
          Forall2 Rle (mTuple vmin) (mTuple v) /\ Forall2 Rle (mTuple v) (mTuple vmax)).
Proof.
  apply (ideal_ComputeExtremes_bounds (mkGVector [1; 5]%R) [mkGVector [3; 2]%R]).
  - unfold GVector_valid, INT32_MAX; cbn; lia.
  - unfold INT32_MAX; cbn; lia.
  - intros v [<-|[]]. reflexivity.
Defined.

(** ** Orthonormalize *)

Section OrthonormalizeFacts.

Context {Real : Type} `{RealOps Real}.

(** X18.  Orthonormalize tests its arguments before it changes a vector: a
    null pointer, a count below 1 or a count above the size of the first
    vector raises "Invalid input.", and a vector whose size differs from the
    first raises "Mismatched sizes."; the array is then as it was.  With the
    count 1 it normalizes the first vector, returns its length, and leaves
    the other vectors of the array alone. *)
Theorem Orthonormalize_checks (numInputs : Z) (robust : bool) (first : GVector Real)
    (rest : list (GVector Real)) :
  GVector_valid first -> (forall v, In v rest -> GVector_valid v) ->
  Z.of_nat (length (first :: rest)) <= INT32_MAX ->
  let arr := first :: rest in
  Orthonormalize numInputs robust None = (Err (LogError "Invalid input."), None)
  /\ (numInputs < 1 \/ Z.of_nat (length (mTuple first)) < numInputs ->
      Orthonormalize numInputs robust (Some arr)
      = (Err (LogError "Invalid input."), Some arr))
  /\ (Z.of_nat (length arr) <= Z.of_nat (length (mTuple first)) ->
      (exists v, In v rest /\ length (mTuple v) <> length (mTuple first)) ->
      Orthonormalize (Z.of_nat (length arr)) robust (Some arr)
      = (Err (LogError "Mismatched sizes."), Some arr))
  /\ ((1 <= length (mTuple first))%nat ->
      Orthonormalize 1 robust (Some arr)
      = (fst (Normalize robust first), Some (snd (Normalize robust first) :: rest))).
Proof.
  intros Hv Hvalid Hnum arr. split; [reflexivity|split; [|split]].
  - intros Hbad. unfold Orthonormalize, bind at 1, get at 1.
    destruct (Z.leb_spec 1 numInputs) as [H1|H1]; [|reflexivity].
    unfold bind at 1, lift at 1. cbn [arr array_elem Z.ltb Z.compare Z.to_nat nth_error].
    rewrite (GetSize_valid first Hv).
    destruct (Z.leb_spec numInputs (Z.of_nat (length (mTuple first)))); [lia|reflexivity].
  - intros Hle [v [Hin Hsize]].
    unfold Orthonormalize, bind at 1, get at 1.
    destruct (Z.leb_spec 1 (Z.of_nat (length arr))) as [_|H1]; [|cbn [arr length] in H1; lia].
    unfold bind at 1, lift at 1. cbn [array_elem Z.ltb Z.compare Z.to_nat nth_error arr].
    fold arr. rewrite (GetSize_valid first Hv).
    destruct (Z.leb_spec (Z.of_nat (length arr)) (Z.of_nat (length (mTuple first))));
      [|lia].
    unfold deref, Orthonormalize_body. unfold bind at 1, get at 1.
    unfold bind at 1. unfold for_loop at 1.
    replace (Z.to_nat (Z.of_nat (length arr) - 1)) with (length rest)
      by (cbn [arr length]; lia).
    pose proof (size_check_loop arr first arr (length rest) 1) as Hcheck.
    cbn [Z.of_nat Pos.of_succ_nat] in Hcheck.
    rewrite Hcheck; [|cbn [arr length]; lia|reflexivity|cbn [arr length]; lia].
    cbn [arr skipn]. rewrite firstn_all.
    destruct (forallb (fun vi => GetSize first =? GetSize vi) rest) eqn:Hall; [|reflexivity].
    exfalso. rewrite forallb_forall in Hall. specialize (Hall v Hin).
    rewrite (GetSize_valid first Hv), (GetSize_valid v (Hvalid v Hin)) in Hall.
    apply Z.eqb_eq in Hall. lia.
  - intros Hsize. unfold Orthonormalize, bind at 1, get at 1. cbn [Z.leb Z.compare].
    unfold bind at 1, lift at 1. cbn [arr array_elem Z.ltb Z.compare Z.to_nat nth_error].
    rewrite (GetSize_valid first Hv).
    destruct (Z.leb_spec 1 (Z.of_nat (length (mTuple first)))); [|lia].
    unfold deref, Orthonormalize_body, bind, get, for_loop, at_index, ret.
    cbn -[Normalize].
    now destruct (Normalize robust first) as [[len|e] first'].
Qed.

End OrthonormalizeFacts.

Lemma Orthonormalize_checks_witness :
  Orthonormalize 1 false (Some [mkGVector [3; 4]; mkGVector [1]]%float)
  = (Ok 5%float,
     Some [mkGVector [0x1.3333333333334p-1; 0x1.999999999999ap-1]; mkGVector [1]]%float).
Proof.
  refine (proj2 (proj2 (proj2 (Orthonormalize_checks 1 false (mkGVector [3; 4]%float)
                                 [mkGVector [1]%float] _ _ _))) _).
  - unfold GVector_valid, INT32_MAX; cbn; lia.
  - intros v [<-|[]]; unfold GVector_valid, INT32_MAX; cbn; lia.
  - unfold INT32_MAX; cbn; lia.
  - cbn; lia.
Defined.

(** ** Orthonormalize on two vectors: one step of Gram-Schmidt *)

Section OrthonormalizePair.

Context {Real : Type} `{RealOps Real} `{!RealLaws Real}.

Lemma normalized_length (l : list Real) (L : Real) :
  length (if r_gt L r0 then scaled_tuple L l else zero_tuple l) = length l.
Proof. destruct (r_gt L r0); unfold scaled_tuple, zero_tuple; apply length_map. Qed.

Lemma Orthonormalize_pair_run (v0 v1 : GVector Real) (rest : list (GVector Real)) :
  GVector_valid v0 -> length (mTuple v1) = length (mTuple v0) ->
  (2 <= length (mTuple v0))%nat ->
  let L0 := r_sqrt (sum_squares (mTuple v0)) in
  let u0 := if r_gt L0 r0 then scaled_tuple L0 (mTuple v0) else zero_tuple (mTuple v0) in
  let dot := dot_tuples (mTuple v1) u0 in
  let w := zip_tuples r_sub (mTuple v1) (map (fun a => (a * dot)%gte) u0) in
  let L1 := r_sqrt (sum_squares w) in
  let u1 := if r_gt L1 r0 then scaled_tuple L1 w else zero_tuple w in
  Orthonormalize 2 false (Some (v0 :: v1 :: rest))
  = (Ok (if r_lt L1 L0 then L1 else L0), Some (mkGVector u0 :: mkGVector u1 :: rest)).
Proof.
  intros Hv0 Hlen Hsize L0 u0 dot w L1 u1.
  assert (Hv1 : GVector_valid v1) by (unfold GVector_valid in *; lia).
  assert (Hu0 : GVector_valid (mkGVector u0)).
  { unfold GVector_valid in *. cbn [mTuple]. unfold u0. now rewrite normalized_length. }
  assert (Hlu0 : length u0 = length (mTuple v0)) by apply normalized_length.
  unfold Orthonormalize, bind at 1, get at 1. cbn [Z.leb Z.compare].
  unfold bind at 1, lift at 1. cbn [array_elem Z.ltb Z.compare Z.to_nat nth_error].
  rewrite (GetSize_valid v0 Hv0).
  destruct (Z.leb_spec 2 (Z.of_nat (length (mTuple v0)))); [|lia].
  unfold deref, Orthonormalize_body, bind, get, for_loop, at_index, ret, lift.
  cbn -[Normalize Dot op_mul op_sub_assign GetSize].
  do 3 (change (Pos.to_nat 1) with 1%nat; unfold bind, ret;
        cbn -[Normalize Dot op_mul op_sub_assign GetSize]).
  rewrite (GetSize_valid v0 Hv0), (GetSize_valid v1 Hv1), Hlen, Z.eqb_refl.
  cbn -[Normalize Dot op_mul op_sub_assign GetSize].
  rewrite (Normalize_standard v0 Hv0). fold L0. fold u0.
  do 3 (change (Pos.to_nat 1) with 1%nat; unfold bind, ret;
        cbn -[Normalize Dot op_mul op_sub_assign GetSize]).
  rewrite (Dot_run v1 (mkGVector u0) _ Hv1 Hu0) by (cbn [mTuple]; congruence).
  cbn [mTuple]. fold dot.
  unfold op_mul, returning. rewrite (op_mul_assign_run dot _ Hu0). cbn [mTuple].
  rewrite (op_sub_assign_run v1 _ Hv1).
  2:{ unfold GVector_valid in *. cbn [mTuple] in *. rewrite length_map. lia. }
  2:{ cbn [mTuple]. rewrite length_map. congruence. }
  cbn [mTuple array_update nth_error]. fold w.
  assert (Hw : GVector_valid (mkGVector w)).
  { unfold GVector_valid in *. cbn [mTuple] in *. unfold w.
    rewrite zip_tuples_length by (rewrite length_map; congruence). lia. }
  rewrite (Normalize_standard _ Hw). cbn [mTuple]. fold L1. fold u1. reflexivity.
Qed.
End OrthonormalizePair.

(** *** In the reals: the dot product is bilinear *)

Lemma ideal_dot_fold_acc (l : list (R * R)) (acc : R) :
  fold_left (fun dot ab => dot + fst ab * snd ab)%R l acc
  = (acc + fold_left (fun dot ab => dot + fst ab * snd ab)%R l 0)%R.
Proof.
  revert acc. induction l as [|ab l IH]; intros acc; cbn [fold_left]; [lra|].
  rewrite (IH (acc + _)%R), (IH (0 + _)%R). lra.
Qed.

Lemma ideal_dot_tuples_cons (a b : R) (l0 l1 : list R) :
  dot_tuples (a :: l0) (b :: l1) = (a * b + dot_tuples l0 l1)%R.
Proof.
  unfold dot_tuples, r0. cbn [combine fold_left fst snd r_add r_mul r_lit ideal_ops].
  rewrite ideal_dot_fold_acc. lra.
Qed.

Lemma ideal_dot_tuples_nil (l : list R) : dot_tuples l [] = 0%R /\ dot_tuples [] l = 0%R.
Proof. now destruct l. Qed.

Lemma ideal_sum_squares_dot (l : list R) : sum_squares l = dot_tuples l l.
Proof.
  unfold sum_squares, dot_tuples. generalize (r0 : R).
  induction l as [|x l IH]; intros a; cbn [combine fold_left fst snd]; [reflexivity|].
  apply IH.
Qed.

Lemma ideal_dot_sub_scaled (d : R) (l1 : list R) :
  forall u : list R,
  length l1 = length u ->
  dot_tuples (zip_tuples r_sub l1 (map (fun a => a * d)%R u)) u
  = (dot_tuples l1 u - d * dot_tuples u u)%R.
Proof.
  induction l1 as [|x l1 IH]; intros [|y u] Hlen; try discriminate.
  - unfold dot_tuples, r0. cbn. lra.
  - unfold zip_tuples in *. cbn [map combine fst snd r_sub ideal_ops] in *.
    rewrite !ideal_dot_tuples_cons, IH by (cbn [length] in Hlen; lia). lra.
Qed.

Lemma ideal_dot_scaled (k : R) (w : list R) :
  forall u : list R,
  dot_tuples (map (fun a => a * k)%R w) u = (k * dot_tuples w u)%R.
Proof.
  induction w as [|x w IH]; intros [|y u]; cbn [map];
    rewrite ?(proj1 (ideal_dot_tuples_nil _)), ?(proj2 (ideal_dot_tuples_nil _)); try lra.
  rewrite !ideal_dot_tuples_cons, IH. lra.
Qed.

Lemma ideal_dot_zero_l (w u : list R) : dot_tuples (zero_tuple w) u = 0%R.
Proof.
  revert u. induction w as [|x w IH]; intros [|y u]; unfold zero_tuple in *; cbn [map];
    rewrite ?(proj1 (ideal_dot_tuples_nil _)), ?(proj2 (ideal_dot_tuples_nil _)); try lra.
  rewrite ideal_dot_tuples_cons, IH. unfold r0. cbn [r_lit ideal_ops]. lra.
Qed.

Lemma ideal_dot_zero_r (w l : list R) : dot_tuples w (zero_tuple l) = 0%R.
Proof.
  revert l. induction w as [|x w IH]; intros [|y l]; unfold zero_tuple in *; cbn [map];
    rewrite ?(proj1 (ideal_dot_tuples_nil _)), ?(proj2 (ideal_dot_tuples_nil _)); try lra.
  rewrite ideal_dot_tuples_cons, IH. unfold r0. cbn [r_lit ideal_ops]. lra.
Qed.

Lemma ideal_scaled_unit (l : list R) :
  (0 < r_sqrt (sum_squares l))%R ->
  sum_squares (scaled_tuple (r_sqrt (sum_squares l)) l) = 1%R.
Proof.
  intros Hpos. set (L := r_sqrt (sum_squares l)) in *.
  rewrite ideal_sum_squares_scaled_tuple.
  assert (HLL : (L * L = sum_squares l)%R) by (apply sqrt_sqrt, ideal_sum_squares_nonneg).
  rewrite <- HLL. field. lra.
Qed.

Lemma ideal_sum_squares_zero (l : list R) :
  sum_squares l = 0%R -> l = zero_tuple l.
Proof.
  intros Hs. unfold zero_tuple. rewrite <- (map_id l) at 1. apply map_ext_in.
  intros x Hx. unfold r0. cbn [r_lit ideal_ops].
  pose proof (proj2 (ideal_sum_squares_ge l 0%R) x Hx) as Hge.
  unfold sum_squares, r0 in Hs. cbn [r_add r_mul r_lit ideal_ops] in Hs.
  rewrite Hs in Hge. nra.
Qed.

Lemma ideal_zip_sub_zero (l1 : list R) :
  forall m : list R,
  length l1 = length m ->
  zip_tuples r_sub l1 m = zero_tuple (zip_tuples r_sub l1 m) -> l1 = m.
Proof.
  induction l1 as [|x l1 IH]; intros [|y m] Hlen Hz; try discriminate; [reflexivity|].
  unfold zip_tuples, zero_tuple, r0 in *.
  cbn [combine map fst snd r_sub r_lit ideal_ops] in Hz.
  injection Hz as Hxy Hrest. f_equal; [lra|].
  apply IH; [cbn [length] in Hlen; lia|exact Hrest].
Qed.

Lemma zip_tuples_map {Real : Type} `{RealOps Real} (h : Real -> Real -> Real)
    (f g : Real -> Real) (l : list Real) :
  zip_tuples h (map f l) (map g l) = map (fun a => h (f a) (g a)) l.
Proof.
  unfold zip_tuples. induction l as [|x l IH]; [reflexivity|].
  cbn [map combine fst snd]. now rewrite <- IH.
Qed.

(** X19.  In real arithmetic Orthonormalize on two vectors of one size
    (at least 2) returns, and the two vectors it leaves are orthogonal: their
    dot product is 0.  When the first input has a nonzero component the
    first output has length 1; when moreover the second input is no multiple
    of the first, the second output has length 1 and the returned smallest
    length is positive; when it is a multiple, the second output is the zero
    vector and 0 is returned.  The other vectors of the array are left
    alone. *)
Theorem ideal_Orthonormalize_pair (v0 v1 : GVector R) (rest : list (GVector R)) :
  GVector_valid v0 -> length (mTuple v1) = length (mTuple v0) ->
  (2 <= length (mTuple v0))%nat ->
  exists (u0 u1 : GVector R) (minLength : R),
    Orthonormalize 2 false (Some (v0 :: v1 :: rest))
    = (Ok minLength, Some (u0 :: u1 :: rest))
    /\ Dot u1 u0 tt = (Ok 0%R, tt)
    /\ ((exists x, In x (mTuple v0) /\ x <> 0%R) ->
        Length u0 false tt = (Ok 1%R, tt)
        /\ ((forall c : R, mTuple v1 <> map (fun a => a * c)%R (mTuple v0)) ->
            Length u1 false tt = (Ok 1%R, tt) /\ (0 < minLength)%R)
        /\ ((exists c : R, mTuple v1 = map (fun a => a * c)%R (mTuple v0)) ->
            all_zero (mTuple u1) /\ minLength = 0%R)).
Proof.
  intros Hv0 Hlen Hsize.
  pose proof (Orthonormalize_pair_run v0 v1 rest Hv0 Hlen Hsize) as Hrun. cbv zeta in Hrun.
  set (l0 := mTuple v0) in *. set (l1 := mTuple v1) in *.
  set (L0 := r_sqrt (sum_squares l0)) in *.
  set (u0 := if r_gt L0 r0 then scaled_tuple L0 l0 else zero_tuple l0) in *.
  assert (Hu0 : u0 = if r_gt L0 r0 then scaled_tuple L0 l0 else zero_tuple l0) by reflexivity.
  assert (Hlu0 : length u0 = length l0) by apply normalized_length.
  clearbody u0.
  set (dot := dot_tuples l1 u0) in *.
  set (w := zip_tuples r_sub l1 (map (fun a => (a * dot)%gte) u0)) in *.
  assert (Hlw : length w = length l1).
  { unfold w. apply zip_tuples_length. rewrite length_map. congruence. }
  set (L1 := r_sqrt (sum_squares w)) in *.
  set (u1 := if r_gt L1 r0 then scaled_tuple L1 w else zero_tuple w) in *.
  assert (Hu1 : u1 = if r_gt L1 r0 then scaled_tuple L1 w else zero_tuple w) by reflexivity.
  assert (Hlu1 : length u1 = length w) by apply normalized_length.
  clearbody u1.
  exists (mkGVector u0), (mkGVector u1), (if r_lt L1 L0 then L1 else L0).
  split; [exact Hrun|].
  assert (Hvu0 : GVector_valid (mkGVector u0))
    by (unfold GVector_valid in *; cbn [mTuple]; fold l0 in Hv0; lia).
  assert (Hvu1 : GVector_valid (mkGVector u1))
    by (unfold GVector_valid in *; cbn [mTuple]; fold l0 in Hv0; lia).
  assert (Horth : dot_tuples w u0 = 0%R).
  { unfold w. cbn [r_mul ideal_ops].
    rewrite ideal_dot_sub_scaled by congruence. fold dot.
    rewrite <- ideal_sum_squares_dot.
    destruct (r_gt L0 r0) eqn:Hgt.
    - rewrite Hu0. unfold L0. rewrite ideal_scaled_unit by (apply Rltb_true; exact Hgt). lra.
    - unfold dot. rewrite Hu0, ideal_dot_zero_r. lra. }
  split.
  { rewrite (Dot_run _ _ tt Hvu1 Hvu0) by (cbn [mTuple]; congruence). cbn [mTuple].
    do 2 f_equal. rewrite Hu1. destruct (r_gt L1 r0).
    - unfold scaled_tuple. cbn [r_mul ideal_ops]. rewrite ideal_dot_scaled, Horth. lra.
    - apply ideal_dot_zero_l. }
  intros [x [Hx Hx0]].
  pose proof (ideal_length_positive l0 x Hx Hx0) as HL0. fold L0 in HL0.
  assert (Hgt0 : r_gt L0 r0 = true) by (apply Rltb_true; exact HL0).
  rewrite Hgt0 in Hu0.
  assert (Hunit0 : sum_squares u0 = 1%R) by (rewrite Hu0; apply ideal_scaled_unit; exact HL0).
  split; [|split].
  - rewrite (Length_standard _ tt Hvu0). cbn [mTuple]. rewrite Hunit0.
    cbn [r_sqrt ideal_ops]. now rewrite sqrt_1.
  - intros Hindep.
    assert (HL1 : (0 < L1)%R).
    { unfold L1. cbn [r_sqrt ideal_ops]. apply sqrt_lt_R0.
      destruct (Rle_lt_or_eq_dec _ _ (ideal_sum_squares_nonneg w)) as [Hpos|Hzero];
        [exact Hpos|].
      exfalso. apply (Hindep (1 / L0 * dot)%R).
      symmetry in Hzero. apply ideal_sum_squares_zero in Hzero.
      apply ideal_zip_sub_zero in Hzero; [|rewrite length_map; congruence].
      rewrite Hzero, Hu0. unfold scaled_tuple. rewrite map_map. apply map_ext.
      intros a. unfold r1. cbn [r_mul r_div r_lit ideal_ops]. lra. }
    assert (Hgt1 : r_gt L1 r0 = true) by (apply Rltb_true; exact HL1).
    rewrite Hgt1 in Hu1. split.
    + rewrite (Length_standard _ tt Hvu1). cbn [mTuple]. rewrite Hu1.
      unfold L1. rewrite ideal_scaled_unit by exact HL1.
      cbn [r_sqrt ideal_ops]. now rewrite sqrt_1.
    + cbn [r_lt ideal_ops]. destruct (Rltb L1 L0); assumption.
  - intros [c Hc].
    assert (Hdot : dot = (c * L0)%R).
    { unfold dot. rewrite Hc, ideal_dot_scaled. f_equal.
      assert (Hl0 : l0 = map (fun a => a * L0)%R u0).
      { rewrite Hu0. unfold scaled_tuple. rewrite map_map. rewrite <- (map_id l0) at 1.
        apply map_ext. intros a. unfold r1. cbn [r_mul r_div r_lit ideal_ops]. field. lra. }
      rewrite Hl0 at 1. rewrite ideal_dot_scaled, <- ideal_sum_squares_dot, Hunit0. lra. }
    assert (Hw : w = map (fun _ => r0) l0).
    { unfold w. rewrite Hc, Hu0. unfold scaled_tuple. rewrite map_map.
      rewrite (zip_tuples_map r_sub). apply map_ext. intros a.
      rewrite Hdot. unfold r0, r1. cbn [r_sub r_mul r_div r_lit ideal_ops]. field. lra. }
    assert (Hzero : all_zero w).
    { rewrite Hw. apply Forall_forall. intros y Hy. apply in_map_iff in Hy.
      now destruct Hy as [_ [<- _]]. }
    assert (HL1 : L1 = 0%R).
    { unfold L1. rewrite (sum_squares_all_zero w Hzero).
      unfold r0. cbn [r_sqrt r_lit ideal_ops]. apply sqrt_0. }
    assert (Hgt1 : r_gt L1 r0 = false) by (apply Rltb_false; rewrite HL1; apply Rle_refl).
    assert (Hlt : r_lt L1 L0 = true) by (apply Rltb_true; lra).
    rewrite Hgt1 in Hu1. rewrite Hlt. split; [|exact HL1].
    rewrite Hu1. unfold zero_tuple. apply Forall_forall. intros y Hy.
    apply in_map_iff in Hy. now destruct Hy as [_ [<- _]].
Qed.

Lemma ideal_Orthonormalize_pair_witness :
  exists (u0 u1 : GVector R) (minLength : R),
    Orthonormalize 2 false (Some [mkGVector [3; 4]; mkGVector [0; 1]]%R)
    = (Ok minLength, Some [u0; u1])
    /\ Dot u1 u0 tt = (Ok 0%R, tt).
Proof.
  destruct (ideal_Orthonormalize_pair (mkGVector [3; 4]%R) (mkGVector [0; 1]%R) [])
    as (u0 & u1 & minLength & Hrun & Horth & _).
  - unfold GVector_valid, INT32_MAX; cbn; lia.
  - reflexivity.
  - cbn; lia.
  - exists u0, u1, minLength. split; [exact Hrun|exact Horth].
Defined.

(** * Further properties of Rigidsphere.h and RigidSphere.cpp *)

Section WorldSphereFacts.

Context {Real : Type} `{RealOps Real}.

(** X20.  The world sphere of a constructed RigidSphere is the sphere given
    to the constructor.  It follows the body only through
    UpdateWorldQuantities: an operation inherited from RigidBody, SetPosition
    among them, leaves GetWorldSphere as it was; the next
    UpdateWorldQuantities moves the center to the position and keeps the
    radius; and a second UpdateWorldQuantities changes nothing. *)
Theorem GetWorldSphere_follows_on_update (fresh : RigidBody Real) (sphere : Sphere3 Real)
    (massDensity : Real) (s0 : RigidSphere Real) :
  RigidSphere_new fresh sphere massDensity = Ok s0 ->
  fst (GetWorldSphere s0) = Ok sphere
  /\ (forall (A : Type) (f : M (RigidBody Real) A),
         fst (GetWorldSphere (snd (sphere_inherited f s0))) = Ok sphere)
  /\ (forall p : Vector3 Real,
         fst (GetWorldSphere
                (snd (UpdateWorldQuantities (snd (sphere_inherited (SetPosition p) s0)))))
         = Ok (mkSphere3 p (radius sphere)))
  /\ (forall s : RigidSphere Real,
         UpdateWorldQuantities (snd (UpdateWorldQuantities s))
         = (Ok tt, snd (UpdateWorldQuantities s))).
Proof.
  intros Hnew. apply RigidSphere_new_Ok in Hnew as (_ & _ & _ & Hworld).
  assert (Hsphere : mWorldSphere s0 = sphere) by (rewrite Hworld; now destruct sphere).
  split; [|split; [|split]].
  - unfold GetWorldSphere. cbn [fst]. now rewrite Hsphere.
  - intros A f. unfold GetWorldSphere. cbn [fst].
    now rewrite sphere_inherited_mWorldSphere, Hsphere.
  - intros p. unfold GetWorldSphere, UpdateWorldQuantities, bind, sphere_inherited,
      SetPosition, GetPosition. cbn. now rewrite Hsphere.
  - intros s. unfold UpdateWorldQuantities, bind, sphere_inherited, GetPosition. cbn.
    reflexivity.
Qed.

End WorldSphereFacts.

Lemma GetWorldSphere_follows_on_update_witness :
  let s0 := mkRigidSphere
              (mkRigidBody (sphere_mass 2%float 1%float) (scale_matrix 1%float Identity)
                 (mkVector3 1 2 3)%float (mkQuaternion 0 0 0 1)%float
                 binary64_origin binary64_origin binary64_origin binary64_origin)
              (mkSphere3 (mkVector3 1 2 3)%float 2%float) in
  fst (GetWorldSphere (snd (sphere_inherited (SetPosition (mkVector3 4 5 6)%float) s0)))
  = Ok (mkSphere3 (mkVector3 1 2 3)%float 2%float)
  /\ fst (GetWorldSphere
            (snd (UpdateWorldQuantities
                    (snd (sphere_inherited (SetPosition (mkVector3 4 5 6)%float) s0)))))
     = Ok (mkSphere3 (mkVector3 4 5 6)%float 2%float).
Proof.
  intros s0.
  pose proof (GetWorldSphere_follows_on_update binary64_fresh
                (mkSphere3 (mkVector3 1 2 3)%float 2%float) 1%float s0 eq_refl) as Hw.
  split.
  - exact (proj1 (proj2 Hw) unit (SetPosition (mkVector3 4 5 6)%float)).
  - exact (proj1 (proj2 (proj2 Hw)) (mkVector3 4 5 6)%float).
Defined.
